(** * TRINITI memory subsystem: persistence, search engine and facades

    A shallow embedding of the memory subsystem of the TRINITI front end:

    - [PersistenceManager]   (services/PersistenceManager.ts)
    - [MemorySearchEngine]   (services/MemorySearchEngine.ts)
    - [TRINITIMemorySystem]  (services/TRINITIMemorySystem.ts, the synchronous
                              facade with [record] and [prune])
    - [EnhancedMemorySystem] (the "Enhanced Version" of the same class, with
                              [recordTask] on top of the two services)
    - [ErrorGuard]           (services/error_guard.ts)

    Conventions of the embedding.

    - JavaScript numbers are integers ([Z]); the non-finite doubles appear
      only in the dynamically typed universe [value].  Similarity scores,
      which are quotients, are rationals ([Q]).
    - Strings are [string]; [toLowerCase] acts on the ASCII letters.
    - A method that can throw returns [res]; a method that reads a clock or
      a random source receives the reading as an argument.
    - [localStorage] is an association list together with a quota. *)

From Stdlib Require Import ZArith List String Ascii Bool Lia QArith.
From Stdlib Require Import Sorted Permutation Lqa.
From Stdlib Require DecimalString DecimalPos DecimalZ.
Import ListNotations.

#[global] Set Warnings "-register-all".

Local Open Scope string_scope.
Local Open Scope Z_scope.

(* ================================================================== *)
(** ** The JavaScript fragment used by the services                    *)
(* ================================================================== *)

Module JS.

(** Exceptions that the modelled code can raise or observe. *)
Inductive error : Type :=
| TypeError (msg : string)
| SyntaxError (msg : string)
| QuotaExceededError
| Error (msg : string).

(** Outcome of a computation that may throw. *)
Inductive res (A : Type) : Type :=
| Ok (a : A)
| Throw (e : error).
Arguments Ok {A} a.
Arguments Throw {A} e.

Definition bind {A B} (m : res A) (k : A -> res B) : res B :=
  match m with
  | Ok a => k a
  | Throw e => Throw e
  end.

Definition is_ok {A} (m : res A) : bool :=
  match m with Ok _ => true | Throw _ => false end.

(** [try { m } catch { h }] *)
Definition try_catch {A} (m : res A) (h : error -> A) : A :=
  match m with
  | Ok a => a
  | Throw e => h e
  end.

(** The double-precision values that a [typeof x === 'number'] test
    accepts: the finite ones are restricted to integers. *)
Inductive number : Type :=
| NaN
| Infinity (negative : bool)
| Num (z : Z).

(** Dynamically typed values ([unknown] in the TypeScript sources). *)
Inductive value : Type :=
| VUndefined
| VNull
| VBool (b : bool)
| VNumber (n : number)
| VBigInt (z : Z)
| VStr (s : string)
| VError (message : string)
| VArr (items : list value)
| VObj (fields : list (string * value)).

Definition typeof (v : value) : string :=
  match v with
  | VUndefined => "undefined"
  | VNull => "object"
  | VBool _ => "boolean"
  | VNumber _ => "number"
  | VBigInt _ => "bigint"
  | VStr _ => "string"
  | VError _ => "object"
  | VArr _ => "object"
  | VObj _ => "object"
  end.

(** ToBoolean *)
Definition truthy (v : value) : bool :=
  match v with
  | VUndefined | VNull => false
  | VBool b => b
  | VNumber NaN => false
  | VNumber (Infinity _) => true
  | VNumber (Num z) => negb (z =? 0)
  | VBigInt z => negb (z =? 0)
  | VStr s => negb (s =? "")%string
  | VError _ | VArr _ | VObj _ => true
  end.

Definition is_null (v : value) : bool :=
  match v with VNull => true | _ => false end.

Definition isArray (v : value) : bool :=
  match v with VArr _ => true | _ => false end.

(** Own property lookup on the association list of an object. *)
Fixpoint lookup (k : string) (fs : list (string * value)) : option value :=
  match fs with
  | [] => None
  | (k', v) :: r => if (k =? k')%string then Some v else lookup k r
  end.

(** [v.k] for a [v] that is neither [null] nor [undefined]; a property
    that is absent reads as [undefined], and so does every property of a
    primitive, of an array or of an [Error] other than the ones below. *)
Definition get (v : value) (k : string) : value :=
  match v with
  | VObj fs => match lookup k fs with Some x => x | None => VUndefined end
  | VError m => if (k =? "message")%string then VStr m else VUndefined
  | _ => VUndefined
  end.

(** *** Strings *)

Definition is_upper (c : ascii) : bool :=
  let n := nat_of_ascii c in (Nat.leb 65 n && Nat.leb n 90)%bool.

Definition lower_char (c : ascii) : ascii :=
  if is_upper c then ascii_of_nat (nat_of_ascii c + 32) else c.

Fixpoint toLowerCase (s : string) : string :=
  match s with
  | EmptyString => EmptyString
  | String c r => String (lower_char c) (toLowerCase r)
  end.

(** [s.includes(sub)] *)
Fixpoint includes (s sub : string) : bool :=
  (String.prefix sub s ||
   match s with
   | EmptyString => false
   | String _ r => includes r sub
   end)%bool.

(** [\s] on the ASCII range: tab, line feed, vertical tab, form feed,
    carriage return and space. *)
Definition is_space (c : ascii) : bool :=
  let n := nat_of_ascii c in
  ((Nat.leb 9 n && Nat.leb n 13) || Nat.eqb n 32)%bool.

(** [s.split(/\s+/)]: the maximal runs of white space are the separators;
    a run at either end leaves an empty first or last piece. *)
Fixpoint split_ws_from (cur : string) (in_ws : bool) (s : string)
  : list string :=
  match s with
  | EmptyString => [cur]
  | String c r =>
      if is_space c
      then if in_ws then split_ws_from cur true r
           else cur :: split_ws_from EmptyString true r
      else split_ws_from (cur ++ String c EmptyString) false r
  end.

Definition split_ws (s : string) : list string :=
  split_ws_from EmptyString false s.

(** [[...new Set(l)]]: first occurrences, in order. *)
Fixpoint dedupe_from (seen l : list string) : list string :=
  match l with
  | [] => []
  | x :: r =>
      if existsb (String.eqb x) seen then dedupe_from seen r
      else x :: dedupe_from (x :: seen) r
  end.

Definition dedupe (l : list string) : list string := dedupe_from [] l.

(** [l.includes(x)] on an array of strings. *)
Definition arr_includes (l : list string) (x : string) : bool :=
  existsb (String.eqb x) l.

(** *** Arrays *)

(** [l.slice(0, e)] *)
Definition slice0 {A} (l : list A) (e : Z) : list A :=
  let len := Z.of_nat (List.length l) in
  let k := if e <? 0 then Z.max (len + e) 0 else Z.min e len in
  firstn (Z.to_nat k) l.

(** [Array.prototype.sort(comparefn)], as a stable insertion sort: each
    element in turn is moved left past the elements [y] of the sorted
    prefix for which [comparefn(y, key) > 0].  The prefix is kept
    reversed while it is built. *)
Definition positive (q : Q) : bool := (0 <? Qnum q)%Z.

Fixpoint sort_insert {A} (comparefn : A -> A -> Q) (key : A)
    (rprefix : list A) : list A :=
  match rprefix with
  | [] => [key]
  | y :: r =>
      if positive (comparefn y key)
      then y :: sort_insert comparefn key r
      else key :: y :: r
  end.

Definition sort {A} (comparefn : A -> A -> Q) (l : list A) : list A :=
  rev (fold_left (fun rprefix key => sort_insert comparefn key rprefix)
                 l []).

(** *** Decimal rendering of integers (template strings, JSON) *)

Definition string_of_Z (z : Z) : string :=
  DecimalString.NilZero.string_of_int (Z.to_int z).


(** *** [String(v)] *)

(** The text of a value; an array is the texts of its elements joined by
    commas, with nothing for [null] and [undefined], and an error is its
    name and its message. *)
Fixpoint toString (v : value) : string :=
  match v with
  | VUndefined => "undefined"
  | VNull => "null"
  | VBool b => if b then "true" else "false"
  | VNumber NaN => "NaN"
  | VNumber (Infinity negative) =>
      if negative then "-Infinity" else "Infinity"
  | VNumber (Num z) => string_of_Z z
  | VBigInt z => string_of_Z z
  | VStr s => s
  | VError message =>
      if (message =? "")%string then "Error" else "Error: " ++ message
  | VArr items =>
      String.concat ","
        (map (fun x =>
                match x with
                | VUndefined | VNull => ""
                | _ => toString x
                end)
             items)
  | VObj _ => "[object Object]"
  end.

End JS.

Import JS.

Notation "x <- m ;; k" := (JS.bind m (fun x => k))
  (at level 61, m at next level, right associativity).

(* ================================================================== *)
(** ** JSON.stringify and JSON.parse                                    *)
(* ================================================================== *)

Module JSON.

Definition dquote : ascii := "034"%char.
Definition backslash : ascii := "092"%char.

Definition hex_digit (n : nat) : ascii :=
  if Nat.ltb n 10 then ascii_of_nat (48 + n) else ascii_of_nat (87 + n).

(** QuoteJSONString on one character. *)
Definition quote_char (c : ascii) : string :=
  let n := nat_of_ascii c in
  if Ascii.eqb c dquote then String backslash (String dquote EmptyString)
  else if Ascii.eqb c backslash
       then String backslash (String backslash EmptyString)
  else if Nat.eqb n 8 then String backslash "b"
  else if Nat.eqb n 9 then String backslash "t"
  else if Nat.eqb n 10 then String backslash "n"
  else if Nat.eqb n 12 then String backslash "f"
  else if Nat.eqb n 13 then String backslash "r"
  else if Nat.ltb n 32
       then String backslash
              ("u00" ++ String (hex_digit (Nat.div n 16))
                          (String (hex_digit (Nat.modulo n 16)) EmptyString))
  else String c EmptyString.

Fixpoint quote_body (s : string) : string :=
  match s with
  | EmptyString => EmptyString
  | String c r => quote_char c ++ quote_body r
  end.

Definition quote (s : string) : string :=
  String dquote (quote_body s ++ String dquote EmptyString).

Definition number_text (n : number) : string :=
  match n with
  | Num z => string_of_Z z
  | NaN | Infinity _ => "null"
  end.

Definition join_comma (parts : list string) : string :=
  String.concat "," parts.

(** [JSON.stringify(v)]: [Ok None] stands for the result [undefined];
    a BigInt anywhere in [v] raises a [TypeError].  In an array,
    [undefined] is written as [null]; in an object, a property whose
    value is [undefined] is left out. *)
Fixpoint stringify (v : value) : res (option string) :=
  match v with
  | VUndefined => Ok None
  | VNull => Ok (Some "null")
  | VBool b => Ok (Some (if b then "true" else "false"))
  | VNumber n => Ok (Some (number_text n))
  | VBigInt _ => Throw (TypeError "Do not know how to serialize a BigInt")
  | VStr s => Ok (Some (quote s))
  | VError _ => Ok (Some "{}")
  | VArr items =>
      parts <-
        (fix elems (l : list value) : res (list string) :=
           match l with
           | [] => Ok []
           | x :: r =>
               o <- stringify x ;;
               rest <- elems r ;;
               Ok (match o with Some t => t | None => "null" end :: rest)
           end) items ;;
      Ok (Some ("[" ++ join_comma parts ++ "]"))
  | VObj fields =>
      parts <-
        (fix props (l : list (string * value)) : res (list string) :=
           match l with
           | [] => Ok []
           | (k, x) :: r =>
               o <- stringify x ;;
               rest <- props r ;;
               Ok (match o with
                   | Some t => (quote k ++ ":" ++ t) :: rest
                   | None => rest
                   end)
           end) fields ;;
      Ok (Some ("{" ++ join_comma parts ++ "}"))
  end.

(** *** JSON.parse *)

(** White space of the JSON grammar. *)
Definition is_json_ws (c : ascii) : bool :=
  let n := nat_of_ascii c in
  (Nat.eqb n 32 || Nat.eqb n 9 || Nat.eqb n 10 || Nat.eqb n 13)%bool.

Fixpoint skip_ws (s : string) : string :=
  match s with
  | String c r => if is_json_ws c then skip_ws r else s
  | EmptyString => s
  end.

Definition is_digit (c : ascii) : bool :=
  let n := nat_of_ascii c in (Nat.leb 48 n && Nat.leb n 57)%bool.

Definition digit_value (c : ascii) : Z := Z.of_nat (nat_of_ascii c - 48).

Fixpoint parse_digits (acc : Z) (s : string) : Z * string :=
  match s with
  | String c r =>
      if is_digit c then parse_digits (10 * acc + digit_value c) r
      else (acc, s)
  | EmptyString => (acc, s)
  end.

(** A number of the text: an optional minus sign, then either a single
    zero or a non-zero digit followed by digits.  A fraction or an
    exponent is outside the integer model of numbers and is refused. *)
Definition parse_number (s : string) : option (value * string) :=
  let '(negative, body) :=
    match s with
    | String c r => if Ascii.eqb c "-"%char then (true, r) else (false, s)
    | EmptyString => (false, s)
    end in
  match body with
  | String c r =>
      if is_digit c then
        let '(magnitude, rest) :=
          if Ascii.eqb c "0"%char then (0, r)
          else parse_digits (digit_value c) r in
        match rest with
        | String d _ =>
            if (Ascii.eqb d "."%char || Ascii.eqb d "e"%char
                || Ascii.eqb d "E"%char)%bool
            then None
            else Some (VNumber (Num (if negative : bool then - magnitude
                                     else magnitude)), rest)
        | EmptyString =>
            Some (VNumber (Num (if negative : bool then - magnitude
                                else magnitude)), rest)
        end
      else None
  | EmptyString => None
  end.

Definition hex_value (c : ascii) : option nat :=
  let n := nat_of_ascii c in
  if is_digit c then Some (n - 48)%nat
  else if (Nat.leb 97 n && Nat.leb n 102)%bool then Some (n - 87)%nat
  else if (Nat.leb 65 n && Nat.leb n 70)%bool then Some (n - 55)%nat
  else None.

(** The character of [\uXXXX], for the code points below 256. *)
Definition unicode_escape (h1 h2 h3 h4 : ascii) : option ascii :=
  match hex_value h1, hex_value h2, hex_value h3, hex_value h4 with
  | Some a, Some b, Some c, Some d =>
      if (Nat.eqb a 0 && Nat.eqb b 0)%bool
      then Some (ascii_of_nat (16 * c + d))
      else None
  | _, _, _, _ => None
  end.

Definition simple_escape (e : ascii) : option ascii :=
  if Ascii.eqb e dquote then Some dquote
  else if Ascii.eqb e backslash then Some backslash
  else if Ascii.eqb e "/"%char then Some "/"%char
  else if Ascii.eqb e "b"%char then Some (ascii_of_nat 8)
  else if Ascii.eqb e "t"%char then Some (ascii_of_nat 9)
  else if Ascii.eqb e "n"%char then Some (ascii_of_nat 10)
  else if Ascii.eqb e "f"%char then Some (ascii_of_nat 12)
  else if Ascii.eqb e "r"%char then Some (ascii_of_nat 13)
  else None.

(** The characters of a string literal, after its opening quote, up to
    and including the closing quote. *)
Fixpoint parse_string_body (s : string) : option (string * string) :=
  match s with
  | EmptyString => None
  | String c r =>
      if Ascii.eqb c dquote then Some (EmptyString, r)
      else if Ascii.eqb c backslash then
        match r with
        | String e r' =>
            match simple_escape e with
            | Some ch =>
                match parse_string_body r' with
                | Some (t, rest) => Some (String ch t, rest)
                | None => None
                end
            | None =>
                if Ascii.eqb e "u"%char then
                  match r' with
                  | String h1 (String h2 (String h3 (String h4 r''))) =>
                      match unicode_escape h1 h2 h3 h4 with
                      | Some ch =>
                          match parse_string_body r'' with
                          | Some (t, rest) => Some (String ch t, rest)
                          | None => None
                          end
                      | None => None
                      end
                  | _ => None
                  end
                else None
            end
        | EmptyString => None
        end
      else if Nat.ltb (nat_of_ascii c) 32 then None
      else
        match parse_string_body r with
        | Some (t, rest) => Some (String c t, rest)
        | None => None
        end
  end.

Definition strip_prefix (p s : string) : option string :=
  if String.prefix p s
  then Some (String.substring (String.length p)
                              (String.length s - String.length p) s)
  else None.

(** Recursive descent; [fuel] bounds the nesting of calls, and twice the
    length of the text (plus two) is enough for every text. *)
Fixpoint parse_value (fuel : nat) (s : string) : option (value * string) :=
  match fuel with
  | O => None
  | S fuel' =>
      match skip_ws s with
      | EmptyString => None
      | String c r as s' =>
          if Ascii.eqb c dquote then
            match parse_string_body r with
            | Some (t, rest) => Some (VStr t, rest)
            | None => None
            end
          else if Ascii.eqb c "["%char then
            match skip_ws r with
            | String c' r' as body =>
                if Ascii.eqb c' "]"%char then Some (VArr [], r')
                else
                  match parse_elements fuel' body with
                  | Some (l, rest) => Some (VArr l, rest)
                  | None => None
                  end
            | EmptyString => None
            end
          else if Ascii.eqb c "{"%char then
            match skip_ws r with
            | String c' r' as body =>
                if Ascii.eqb c' "}"%char then Some (VObj [], r')
                else
                  match parse_members fuel' body with
                  | Some (l, rest) => Some (VObj l, rest)
                  | None => None
                  end
            | EmptyString => None
            end
          else
            match strip_prefix "null" s', strip_prefix "true" s',
                  strip_prefix "false" s' with
            | Some rest, _, _ => Some (VNull, rest)
            | _, Some rest, _ => Some (VBool true, rest)
            | _, _, Some rest => Some (VBool false, rest)
            | None, None, None => parse_number s'
            end
      end
  end

with parse_elements (fuel : nat) (s : string)
  : option (list value * string) :=
  match fuel with
  | O => None
  | S fuel' =>
      match parse_value fuel' s with
      | Some (v, rest) =>
          match skip_ws rest with
          | String c r =>
              if Ascii.eqb c ","%char then
                match parse_elements fuel' r with
                | Some (l, rest') => Some (v :: l, rest')
                | None => None
                end
              else if Ascii.eqb c "]"%char then Some ([v], r)
              else None
          | EmptyString => None
          end
      | None => None
      end
  end

with parse_members (fuel : nat) (s : string)
  : option (list (string * value) * string) :=
  match fuel with
  | O => None
  | S fuel' =>
      match skip_ws s with
      | String q r =>
          if Ascii.eqb q dquote then
            match parse_string_body r with
            | Some (k, afterKey) =>
                match skip_ws afterKey with
                | String colon afterColon =>
                    if Ascii.eqb colon ":"%char then
                      match parse_value fuel' afterColon with
                      | Some (v, rest) =>
                          match skip_ws rest with
                          | String c r' =>
                              if Ascii.eqb c ","%char then
                                match parse_members fuel' r' with
                                | Some (l, rest') => Some ((k, v) :: l, rest')
                                | None => None
                                end
                              else if Ascii.eqb c "}"%char
                              then Some ([(k, v)], r')
                              else None
                          | EmptyString => None
                          end
                      | None => None
                      end
                    else None
                | EmptyString => None
                end
            | None => None
            end
          else None
      | EmptyString => None
      end
  end.

(** A later property of the same name replaces an earlier one. *)
Fixpoint set_field (k : string) (v : value) (fs : list (string * value))
  : list (string * value) :=
  match fs with
  | [] => [(k, v)]
  | (k', v') :: r =>
      if (k =? k')%string then (k, v) :: r else (k', v') :: set_field k v r
  end.

Fixpoint normalize (v : value) : value :=
  match v with
  | VArr items => VArr (map normalize items)
  | VObj fields =>
      VObj (fold_left (fun acc kv => set_field (fst kv) (normalize (snd kv)) acc)
                      fields [])
  | _ => v
  end.

(** [JSON.parse(text)] *)
Definition parse (text : string) : res value :=
  match parse_value (2 * String.length text + 2) text with
  | Some (v, rest) =>
      match skip_ws rest with
      | EmptyString => Ok (normalize v)
      | String _ _ => Throw (SyntaxError "Unexpected non-whitespace character")
      end
  | None => Throw (SyntaxError "Unexpected token")
  end.

End JSON.

(* ================================================================== *)
(** ** types/memory.ts                                                 *)
(* ================================================================== *)

Module Memory.

Record Metadata : Type := {
  success : bool;
  duration : Z;
  errors : option (list string);
  tags : option (list string);
  priority : option Z
}.

Record MemoryEntry : Type := {
  id : string;
  timestamp : Z;
  task : string;
  result : value;
  metadata : Metadata
}.

End Memory.

(* ================================================================== *)
(** ** services/MemorySearchEngine.ts                                  *)
(* ================================================================== *)

Module MemorySearchEngine.
Import Memory.

Record Timeframe : Type := {
  tf_start : option Z;
  tf_end : option Z
}.

Record SearchOptions : Type := {
  query : option string;
  timeframe : option Timeframe;
  successOnly : option bool;
  tags : option (list string);
  minDuration : option Z;
  maxDuration : option Z;
  limit : option Z;
  sortBy : option string;
  sortOrder : option string
}.

Record SimilarityResult : Type := {
  entry : MemoryEntry;
  similarity : Q;
  matchedTerms : list string
}.

Record SearchResult : Type := {
  entries : list MemoryEntry;
  totalCount : nat;
  searchTime : Z;
  filters : SearchOptions;
  suggestions : option (list string)
}.

(** A [Map<string, Set<string>>]: keys in insertion order, each with the
    ids added to its set, in insertion order. *)
Definition index : Type := list (string * list string).

Fixpoint index_add (key id_ : string) (ix : index) : index :=
  match ix with
  | [] => [(key, [id_])]
  | (k, ids) :: r =>
      if (key =? k)%string
      then (k, if arr_includes ids id_ then ids else (ids ++ [id_])%list) :: r
      else (k, ids) :: index_add key id_ r
  end.

(** The engine: the working set and the two indexes that
    [buildSearchIndex] derives from it.  No method reads the indexes. *)
Record t : Type := {
  memoryEntries : list MemoryEntry;
  searchIndex : index;
  tagIndex : index
}.

Definition buildSearchIndex (entries : list MemoryEntry) : index * index :=
  fold_left
    (fun acc entry =>
       let '(words_, tags_) := acc in
       (fold_left
          (fun ix word =>
             if Nat.ltb 2 (String.length word)
             then index_add word (id entry) ix else ix)
          (split_ws (toLowerCase (task entry))) words_,
        match Memory.tags (metadata entry) with
        | Some ts => fold_left (fun ix tag => index_add tag (id entry) ix)
                               ts tags_
        | None => tags_
        end))
    entries ([], []).

Definition new (entries : list MemoryEntry) : t :=
  {| memoryEntries := entries;
     searchIndex := fst (buildSearchIndex entries);
     tagIndex := snd (buildSearchIndex entries) |}.

Definition updateEntries (self : t) (entries : list MemoryEntry) : t :=
  {| memoryEntries := entries;
     searchIndex := fst (buildSearchIndex entries);
     tagIndex := snd (buildSearchIndex entries) |}.

(** [!x] on an optional string, an optional number. *)
Definition falsy_string (o : option string) : bool :=
  match o with
  | None => true
  | Some s => (s =? "")%string
  end.

Definition falsy_number (o : option Z) : bool :=
  match o with
  | None => true
  | Some z => z =? 0
  end.

Definition searchInResult (result : value) (query : string) : res bool :=
  match result with
  | VStr s => Ok (includes (toLowerCase s) query)
  | VArr _ | VObj _ | VError _ =>
      o <- JSON.stringify result ;;
      match o with
      | Some resultStr => Ok (includes (toLowerCase resultStr) query)
      | None => Throw (TypeError "Cannot read properties of undefined")
      end
  | _ => Ok false
  end.

Definition matchesTextQuery (entry : MemoryEntry) (query : string)
  : res bool :=
  let queryLower := toLowerCase query in
  if includes (toLowerCase (task entry)) queryLower then Ok true
  else
    inResult <- searchInResult (result entry) queryLower ;;
    if inResult : bool then Ok true
    else
      match Memory.tags (metadata entry) with
      | Some ts =>
          Ok (existsb (fun tag => includes (toLowerCase tag) queryLower) ts)
      | None => Ok false
      end.

Definition matchTimeframe (entry : MemoryEntry) (timeframe : option Timeframe)
  : bool :=
  match timeframe with
  | None => true
  | Some tf =>
      ((falsy_number (tf_start tf) ||
        match tf_start tf with
        | Some s => s <=? timestamp entry
        | None => true
        end) &&
       (falsy_number (tf_end tf) ||
        match tf_end tf with
        | Some e => timestamp entry <=? e
        | None => true
        end))%bool
  end.

Definition matchTags (entry : MemoryEntry) (requiredTags : list string)
  : bool :=
  match Memory.tags (metadata entry) with
  | None => false
  | Some ts => forallb (fun tag => arr_includes ts tag) requiredTags
  end.

Definition matchDuration (entry : MemoryEntry)
    (minDuration maxDuration : option Z) : bool :=
  let d := duration (metadata entry) in
  if (negb (falsy_number minDuration) &&
      match minDuration with Some m => d <? m | None => false end)%bool
  then false
  else if (negb (falsy_number maxDuration) &&
           match maxDuration with Some m => m <? d | None => false end)%bool
  then false
  else true.

(** The comparison function that [sortResults] hands to [sort]. *)
Definition compareEntries (sortBy : string) (sortOrder : string)
    (a b : MemoryEntry) : Z :=
  let ordered (comparison : Z) :=
    if (sortOrder =? "asc")%string then comparison else - comparison in
  if (sortBy =? "timestamp")%string
  then ordered (timestamp a - timestamp b)
  else if (sortBy =? "duration")%string
  then ordered (duration (metadata a) - duration (metadata b))
  else if (sortBy =? "relevance")%string
  then ordered (if success (metadata b) then 1 else -1)
  else 0.

Definition sortResults (results : list MemoryEntry) (sortBy : option string)
    (sortOrder : option string) : list MemoryEntry :=
  let order := match sortOrder with Some o => o | None => "desc" end in
  match sortBy with
  | None => results
  | Some by_ =>
      if (by_ =? "")%string then results
      else JS.sort (fun a b => inject_Z (compareEntries by_ order a b)) results
  end.

(** [Array.prototype.filter] with a predicate that may throw. *)
Fixpoint filterM {A} (p : A -> res bool) (l : list A) : res (list A) :=
  match l with
  | [] => Ok []
  | x :: r =>
      keep <- p x ;;
      rest <- filterM p r ;;
      Ok (if keep : bool then x :: rest else rest)
  end.

Definition getSuggestions (self : t) (query : string) : list string :=
  if ((query =? "")%string || Nat.ltb (String.length query) 2)%bool then []
  else
    let queryLower := toLowerCase query in
    let tasks :=
      map task
          (filter (fun e => includes (toLowerCase (task e)) queryLower)
                  (memoryEntries self)) in
    let tagHits :=
      flat_map
        (fun e =>
           match Memory.tags (metadata e) with
           | Some ts =>
               filter (fun tag => includes (toLowerCase tag) queryLower) ts
           | None => []
           end)
        (memoryEntries self) in
    slice0 (dedupe (tasks ++ tagHits)) 10.

Definition generateSuggestions (self : t) (query : option string)
  : list string :=
  match query with
  | None => []
  | Some q => if (q =? "")%string then [] else getSuggestions self q
  end.

(** The predicate of the [filter] call: the five tests are evaluated in
    the order of the source, the text test first. *)
Definition matchesOptions (options : SearchOptions) (entry : MemoryEntry)
  : res bool :=
  textMatch <-
    (if falsy_string (query options) then Ok true
     else match query options with
          | Some q => matchesTextQuery entry q
          | None => Ok true
          end) ;;
  let timeframeMatch := matchTimeframe entry (timeframe options) in
  let successMatch :=
    match successOnly options with
    | None => true
    | Some b => Bool.eqb (success (metadata entry)) b
    end in
  let tagMatch :=
    match tags options with
    | None => true
    | Some ts => (Nat.eqb (List.length ts) 0 || matchTags entry ts)%bool
    end in
  let durationMatch :=
    matchDuration entry (minDuration options) (maxDuration options) in
  Ok (textMatch && timeframeMatch && successMatch && tagMatch
      && durationMatch)%bool.

(** The body of the [try] block of [search]; [now] is the reading of
    [performance.now()] when the result is built. *)
Definition search_try (self : t) (options : SearchOptions)
    (startTime now : Z) : res SearchResult :=
  results <- filterM (matchesOptions options) (memoryEntries self) ;;
  let results := sortResults results (sortBy options) (sortOrder options) in
  let results :=
    match limit options with
    | Some l => if (negb (l =? 0) && (0 <? l))%bool
                then slice0 results l else results
    | None => results
    end in
  Ok {| entries := results;
        totalCount := List.length results;
        searchTime := now - startTime;
        filters := options;
        suggestions := Some (generateSuggestions self (query options)) |}.

Definition search (self : t) (options : SearchOptions)
    (startTime now : Z) : SearchResult :=
  try_catch (search_try self options startTime now)
    (fun _ =>
       {| entries := [];
          totalCount := 0;
          searchTime := now - startTime;
          filters := options;
          suggestions := None |}).


(** *** Similarity *)

(** [l[i] = x] for [i] inside the array. *)
Fixpoint array_set {A} (l : list A) (i : nat) (x : A) : list A :=
  match l, i with
  | [], _ => []
  | _ :: r, O => x :: r
  | y :: r, S i' => y :: array_set r i' x
  end.

Definition dp_get (dp : list (list nat)) (i j : nat) : nat :=
  nth j (nth i dp []) O.

Definition dp_set (dp : list (list nat)) (i j : nat) (x : nat)
  : list (list nat) :=
  array_set dp i (array_set (nth i dp []) j x).

(** [s1[i] === s2[j]] *)
Definition same_char (s1 : string) (i : nat) (s2 : string) (j : nat) : bool :=
  match String.get i s1, String.get j s2 with
  | Some a, Some b => Ascii.eqb a b
  | None, None => true
  | _, _ => false
  end.

Definition min3 (a b c : nat) : nat := Nat.min (Nat.min a b) c.

(** The cell written by the inner loop of [levenshteinDistance]. *)
Definition dp_step (s1 s2 : string) (dp : list (list nat)) (i j : nat)
  : list (list nat) :=
  let cost := if same_char s1 (i - 1) s2 (j - 1) then O else 1%nat in
  dp_set dp i j
    (min3 (dp_get dp (i - 1) j + 1)
          (dp_get dp i (j - 1) + 1)
          (dp_get dp (i - 1) (j - 1) + cost)).

Definition levenshteinDistance (s1 s2 : string) : nat :=
  let m := String.length s1 in
  let n := String.length s2 in
  let dp := repeat (repeat O (n + 1)) (m + 1) in
  let dp := fold_left (fun dp i => dp_set dp i 0 i) (seq 0 (m + 1)) dp in
  let dp := fold_left (fun dp j => dp_set dp 0 j j) (seq 0 (n + 1)) dp in
  let dp :=
    fold_left
      (fun dp i => fold_left (fun dp j => dp_step s1 s2 dp i j) (seq 1 n) dp)
      (seq 1 m) dp in
  dp_get dp m n.

Definition Q_of_nat (n : nat) : Q := inject_Z (Z.of_nat n).

Definition calculateSimilarity (str1 str2 : string) : Q :=
  let editDistance :=
    levenshteinDistance (toLowerCase str1) (toLowerCase str2) in
  let maxLength := Nat.max (String.length str1) (String.length str2) in
  if Nat.eqb maxLength 0 then 1%Q
  else (1 - Q_of_nat editDistance / Q_of_nat maxLength)%Q.

Definition findMatchedTerms (str1 str2 : string) : list string :=
  let words1 := split_ws (toLowerCase str1) in
  let words2 := split_ws (toLowerCase str2) in
  let matched :=
    flat_map
      (fun word1 =>
         flat_map
           (fun word2 =>
              if ((word1 =? word2)%string
                  && Nat.ltb 2 (String.length word1))%bool
              then [word1] else [])
           words2)
      words1 in
  dedupe matched.

(** The loop of [findSimilarTasks] that collects the candidates. *)
Definition similarCandidates (self : t) (task_ : string) (threshold : Q)
  : list SimilarityResult :=
  flat_map
    (fun e =>
       let sim := calculateSimilarity (task e) task_ in
       if Qle_bool threshold sim
       then [ {| entry := e;
                 similarity := sim;
                 matchedTerms := findMatchedTerms (task e) task_ |} ]
       else [])
    (memoryEntries self).

Definition findSimilarTasks (self : t) (task_ : string) (threshold : Q)
    (limit_ : Z) : list SimilarityResult :=
  let results := similarCandidates self task_ threshold in
  let results :=
    JS.sort (fun a b => (similarity b - similarity a)%Q) results in
  slice0 results limit_.

(** Default arguments of [findSimilarTasks]. *)
Definition default_threshold : Q := 7 # 10.
Definition default_limit : Z := 10.


(** *** Patterns *)

(** A [Map<string, { count, totalDuration }>]: the keys in insertion
    order, each with its two counters. *)
Definition tally : Type := list (string * (nat * Z)).

(** One step of the loops of [findCommonTasks] and [findTagPatterns]: the
    counters of a key that is present are advanced, and a key that is not
    is added with the count one. *)
Fixpoint tally_add (key : string) (d : Z) (m : tally) : tally :=
  match m with
  | [] => [(key, (1%nat, d))]
  | (k, (count, totalDuration)) :: r =>
      if (key =? k)%string then (k, (S count, totalDuration + d)) :: r
      else (k, (count, totalDuration)) :: tally_add key d r
  end.

(** An element of the two result arrays: [{ task | tag, count,
    avgDuration }]. *)
Record Pattern : Type := {
  p_key : string;
  p_count : nat;
  p_avgDuration : Q
}.

(** [Array.from(map.entries()).map(...).sort((a, b) => b.count - a.count)
    .slice(0, 10)] *)
Definition top_patterns (m : tally) : list Pattern :=
  slice0
    (JS.sort
       (fun a b => inject_Z (Z.of_nat (p_count b) - Z.of_nat (p_count a)))
       (map (fun kv =>
               {| p_key := fst kv;
                  p_count := fst (snd kv);
                  p_avgDuration :=
                    (inject_Z (snd (snd kv)) / Q_of_nat (fst (snd kv)))%Q |})
            m))
    10.

Definition findCommonTasks (self : t) : list Pattern :=
  let taskMap :=
    fold_left
      (fun m entry => tally_add (task entry) (duration (metadata entry)) m)
      (memoryEntries self) [] in
  top_patterns taskMap.

Definition findTagPatterns (self : t) : list Pattern :=
  let tagMap :=
    fold_left
      (fun m entry =>
         match Memory.tags (metadata entry) with
         | Some ts =>
             fold_left
               (fun m tag => tally_add tag (duration (metadata entry)) m)
               ts m
         | None => m
         end)
      (memoryEntries self) [] in
  top_patterns tagMap.

End MemorySearchEngine.

(* ================================================================== *)
(** ** The key/value medium: [localStorage]                            *)
(* ================================================================== *)

Module LocalStorage.

Record t : Type := {
  items : list (string * string);
  quota : Z
}.

Definition empty (quota_ : Z) : t := {| items := []; quota := quota_ |}.

Fixpoint assoc (k : string) (l : list (string * string)) : option string :=
  match l with
  | [] => None
  | (k', v) :: r => if (k =? k')%string then Some v else assoc k r
  end.

Fixpoint put (k v : string) (l : list (string * string))
  : list (string * string) :=
  match l with
  | [] => [(k, v)]
  | (k', v') :: r =>
      if (k =? k')%string then (k, v) :: r else (k', v') :: put k v r
  end.

Definition remove (k : string) (l : list (string * string))
  : list (string * string) :=
  filter (fun kv => negb (k =? fst kv)%string) l.

Definition size (l : list (string * string)) : Z :=
  fold_right
    (fun kv acc =>
       Z.of_nat (String.length (fst kv) + String.length (snd kv)) + acc)
    0 l.

Definition getItem (ls : t) (k : string) : option string :=
  assoc k (items ls).

(** A write that would take the medium over its quota throws and leaves
    the medium as it was. *)
Definition setItem (ls : t) (k v : string) : res t :=
  let items' := put k v (items ls) in
  if size items' <=? quota ls
  then Ok {| items := items'; quota := quota ls |}
  else Throw QuotaExceededError.

Definition removeItem (ls : t) (k : string) : t :=
  {| items := remove k (items ls); quota := quota ls |}.

Definition keys (ls : t) : list string := map fst (items ls).

(** The string that [setItem] stores for the result of a
    [JSON.stringify] call. *)
Definition text_of (o : option string) : string :=
  match o with
  | Some text => text
  | None => "undefined"
  end.

End LocalStorage.

(* ================================================================== *)
(** ** Entries as dynamically typed values                             *)
(* ================================================================== *)

Module Entry.
Import Memory.

Definition strings_value (l : list string) : value := VArr (map VStr l).

Definition optional (k : string) (o : option value)
  : list (string * value) :=
  match o with
  | Some v => [(k, v)]
  | None => []
  end.

(** The object that an entry of type [MemoryEntry] is at run time. *)
Definition to_value (e : MemoryEntry) : value :=
  let m := metadata e in
  VObj [ ("id", VStr (id e));
         ("timestamp", VNumber (Num (timestamp e)));
         ("task", VStr (task e));
         ("result", result e);
         ("metadata",
          VObj ([ ("success", VBool (success m));
                  ("duration", VNumber (Num (duration m))) ]
                ++ optional "errors" (option_map strings_value (errors m))
                ++ optional "tags" (option_map strings_value (tags m))
                ++ optional "priority"
                     (option_map (fun p => VNumber (Num p)) (priority m)))%list) ].

Fixpoint strings_of (l : list value) : option (list string) :=
  match l with
  | [] => Some []
  | VStr s :: r => option_map (cons s) (strings_of r)
  | _ :: _ => None
  end.

Definition string_array (v : value) : option (list string) :=
  match v with
  | VArr l => strings_of l
  | _ => None
  end.

Definition integer (v : value) : option Z :=
  match v with
  | VNumber (Num z) => Some z
  | _ => None
  end.

(** The typed view of a value that a type guard has accepted as a
    [MemoryEntry].  The required fields are read as they are; an optional
    field that does not hold a value of its declared type is read as
    absent. *)
Definition of_value (v : value) : option MemoryEntry :=
  let m := get v "metadata" in
  match get v "id", get v "timestamp", get v "task",
        get m "success", get m "duration" with
  | VStr i, VNumber (Num ts), VStr t, VBool ok, VNumber (Num d) =>
      Some {| id := i;
              timestamp := ts;
              task := t;
              result := get v "result";
              metadata :=
                {| success := ok;
                   duration := d;
                   errors := string_array (get m "errors");
                   tags := string_array (get m "tags");
                   priority := integer (get m "priority") |} |}
  | _, _, _, _, _ => None
  end.

(** The typed view of the entries that the persistence layer returns. *)
Fixpoint typed (l : list value) : list MemoryEntry :=
  match l with
  | [] => []
  | v :: r =>
      match of_value v with
      | Some e => e :: typed r
      | None => typed r
      end
  end.

End Entry.

(* ================================================================== *)
(** ** services/PersistenceManager.ts                                  *)
(* ================================================================== *)

Module PersistenceManager.

Definition STORAGE_PREFIX : string := "TRINITI_MEMORY_".
Definition METADATA_KEY : string := "TRINITI_MEMORY_INDEX".

Record MemoryIndex : Type := {
  entryIds : list string;
  lastUpdated : Z;
  totalEntries : Z;
  storageSize : Z
}.

Definition index_to_value (ix : MemoryIndex) : value :=
  VObj [ ("entryIds", Entry.strings_value (entryIds ix));
         ("lastUpdated", VNumber (Num (lastUpdated ix)));
         ("totalEntries", VNumber (Num (totalEntries ix)));
         ("storageSize", VNumber (Num (storageSize ix))) ].

Definition index_of_value (v : value) : option MemoryIndex :=
  match v with
  | VObj _ =>
      match Entry.string_array (get v "entryIds"),
            Entry.integer (get v "lastUpdated"),
            Entry.integer (get v "totalEntries"),
            Entry.integer (get v "storageSize") with
      | Some ids, Some lu, Some te, Some ss =>
          Some {| entryIds := ids; lastUpdated := lu;
                  totalEntries := te; storageSize := ss |}
      | _, _, _, _ => None
      end
  | _ => None
  end.

(** What [getMemoryIndex] returns: an index record, or a parsed value of
    another shape than the one this class writes. *)
Inductive stored_index : Type :=
| IndexRecord (ix : MemoryIndex)
| IndexOther (v : value).

(** The index as its users read it; a value of another shape is taken to
    fail with a type error at its first use. *)
Definition the_index (si : stored_index) : res MemoryIndex :=
  match si with
  | IndexRecord ix => Ok ix
  | IndexOther _ => Throw (TypeError "index.entryIds is not iterable")
  end.

Definition default_index (now : Z) : MemoryIndex :=
  {| entryIds := []; lastUpdated := now; totalEntries := 0;
     storageSize := 0 |}.

Definition getMemoryIndex (now : Z) (ls : LocalStorage.t) : stored_index :=
  match LocalStorage.getItem ls METADATA_KEY with
  | Some indexData =>
      if (indexData =? "")%string then IndexRecord (default_index now)
      else
        match JSON.parse indexData with
        | Ok v =>
            match index_of_value v with
            | Some ix => IndexRecord ix
            | None => IndexOther v
            end
        | Throw _ => IndexRecord (default_index now)
        end
  | None => IndexRecord (default_index now)
  end.

Definition entryKey (entryId : string) : string :=
  STORAGE_PREFIX ++ entryId.

Definition calculateStorageSize (now : Z) (ls : LocalStorage.t) : Z :=
  try_catch
    (index <- the_index (getMemoryIndex now ls) ;;
     Ok (fold_left
           (fun totalSize id_ =>
              match LocalStorage.getItem ls (entryKey id_) with
              | Some data =>
                  if (data =? "")%string then totalSize
                  else totalSize + Z.of_nat (String.length data)
              | None => totalSize
              end)
           (entryIds index) 0))
    (fun _ => 0).

Definition validateEntry (entry : value) : bool :=
  if (negb (truthy entry) || negb (typeof entry =? "object")%string)%bool
  then false
  else
    let metadata := get entry "metadata" in
    ((typeof (get entry "id") =? "string")%string &&
     (typeof (get entry "timestamp") =? "number")%string &&
     (typeof (get entry "task") =? "string")%string &&
     (typeof (get entry "result") =? "object")%string &&
     negb (is_null (get entry "result")) &&
     (typeof metadata =? "object")%string &&
     negb (is_null metadata) &&
     (typeof (get metadata "success") =? "boolean")%string &&
     (typeof (get metadata "duration") =? "number")%string)%bool.

(** [encryptEntry] and [decryptEntry]: the placeholders of the source. *)
Definition encryptEntry (entry : value) : res value :=
  o <- JSON.stringify entry ;;
  Ok (match o with Some text => VStr text | None => VUndefined end).

Definition decryptEntry (encryptedData : string) : res value :=
  JSON.parse encryptedData.

(** [`${x}`] for the [id] of an entry; the validator has made it a
    string wherever the result is used. *)
Definition id_text (entry : value) : string :=
  match get entry "id" with
  | VStr s => s
  | _ => "undefined"
  end.

(** A method that writes the medium returns its outcome and the medium. *)
Definition writes (A : Type) : Type := (res A * LocalStorage.t)%type.

Definition updateMemoryIndex (entry : value) (now : Z) (ls : LocalStorage.t)
  : writes unit :=
  match the_index (getMemoryIndex now ls) with
  | Throw e => (Throw e, ls)
  | Ok index =>
      let known := arr_includes (entryIds index) (id_text entry) in
      let ids :=
        if known then entryIds index
        else (entryIds index ++ [id_text entry])%list in
      let total :=
        if known then totalEntries index else totalEntries index + 1 in
      let index' :=
        {| entryIds := ids;
           lastUpdated := now;
           totalEntries := total;
           storageSize := calculateStorageSize now ls |} in
      match JSON.stringify (index_to_value index') with
      | Throw e => (Throw e, ls)
      | Ok o =>
          match LocalStorage.setItem ls METADATA_KEY
                  (LocalStorage.text_of o) with
          | Ok ls' => (Ok tt, ls')
          | Throw e => (Throw e, ls)
          end
      end
  end.

Definition saveEntry_try (entry : value) (now : Z) (ls : LocalStorage.t)
  : writes unit :=
  if negb (validateEntry entry)
  then (Throw (Error "Invalid memory entry structure"), ls)
  else
    match encryptEntry entry with
    | Throw e => (Throw e, ls)
    | Ok encryptedEntry =>
        match JSON.stringify encryptedEntry with
        | Throw e => (Throw e, ls)
        | Ok o =>
            match LocalStorage.setItem ls (entryKey (id_text entry))
                    (LocalStorage.text_of o) with
            | Throw e => (Throw e, ls)
            | Ok ls1 => updateMemoryIndex entry now ls1
            end
        end
    end.

(** The [catch] block reads [entry.id] before it throws the error again:
    on [null] and [undefined] that read is itself a type error. *)
Definition saveEntry (entry : value) (now : Z) (ls : LocalStorage.t)
  : writes unit :=
  match saveEntry_try entry now ls with
  | (Ok u, ls') => (Ok u, ls')
  | (Throw e, ls') =>
      match entry with
      | VNull | VUndefined =>
          (Throw (TypeError "Cannot read properties of null"), ls')
      | _ => (Throw e, ls')
      end
  end.

Definition retrieveEntry (entryId : string) (ls : LocalStorage.t)
  : option value :=
  match LocalStorage.getItem ls (entryKey entryId) with
  | None => None
  | Some encryptedData =>
      if (encryptedData =? "")%string then None
      else
        match decryptEntry encryptedData with
        | Ok decryptedEntry =>
            if validateEntry decryptedEntry then Some decryptedEntry
            else None
        | Throw _ => None
        end
  end.

Definition retrieveEntries (now : Z) (ls : LocalStorage.t) : list value :=
  try_catch
    (index <- the_index (getMemoryIndex now ls) ;;
     Ok (flat_map
           (fun id_ =>
              match retrieveEntry id_ ls with
              | Some entry => [entry]
              | None => []
              end)
           (entryIds index)))
    (fun _ => []).

Definition removeFromIndex (entryId : string) (now : Z)
    (ls : LocalStorage.t) : writes unit :=
  match the_index (getMemoryIndex now ls) with
  | Throw e => (Throw e, ls)
  | Ok index =>
      let index' :=
        {| entryIds :=
             filter (fun id_ => negb (id_ =? entryId)%string)
                    (entryIds index);
           lastUpdated := now;
           totalEntries := Z.max 0 (totalEntries index - 1);
           storageSize := calculateStorageSize now ls |} in
      match JSON.stringify (index_to_value index') with
      | Throw e => (Throw e, ls)
      | Ok o =>
          match LocalStorage.setItem ls METADATA_KEY
                  (LocalStorage.text_of o) with
          | Ok ls' => (Ok tt, ls')
          | Throw e => (Throw e, ls)
          end
      end
  end.

Definition deleteEntry (entryId : string) (now : Z) (ls : LocalStorage.t)
  : bool * LocalStorage.t :=
  let ls1 := LocalStorage.removeItem ls (entryKey entryId) in
  match removeFromIndex entryId now ls1 with
  | (Ok _, ls2) => (true, ls2)
  | (Throw _, ls2) => (false, ls2)
  end.

Definition clearAllEntries (now : Z) (ls : LocalStorage.t) : writes unit :=
  match the_index (getMemoryIndex now ls) with
  | Throw e => (Throw e, ls)
  | Ok index =>
      let ls1 :=
        fold_left (fun acc id_ => LocalStorage.removeItem acc (entryKey id_))
                  (entryIds index) ls in
      (Ok tt, LocalStorage.removeItem ls1 METADATA_KEY)
  end.

End PersistenceManager.

(* ================================================================== *)
(** ** utils/defensive-programming.ts, at the declared argument types  *)
(* ================================================================== *)

Module Defensive.

Definition safeguardString (str : option string) (fallback : string)
  : string :=
  match str with
  | Some s => s
  | None => fallback
  end.

Definition safeguardNumber (num : option Z) (fallback : Z) : Z :=
  match num with
  | Some n => n
  | None => fallback
  end.

Definition safeguardBoolean (b : option bool) (fallback : bool) : bool :=
  match b with
  | Some x => x
  | None => fallback
  end.

End Defensive.

(** The readings that one call of a recording operation takes from its
    environment, in the order in which the source takes them. *)
Module Env.

Record readings : Type := {
  perf_start : Z;      (* performance.now() on entry *)
  id_now : Z;          (* Date.now() inside generateUniqueId *)
  random : string;     (* Math.random().toString(36).substr(2, 9) *)
  now : Z;             (* Date.now() for the timestamp *)
  perf_end : Z;        (* performance.now() when the duration is taken *)
  index_now : Z        (* Date.now() inside the persistence layer *)
}.

Definition generateUniqueId (r : readings) : string :=
  "task_" ++ string_of_Z (id_now r) ++ "_" ++ random r.

End Env.

(* ================================================================== *)
(** ** services/TRINITIMemorySystem.ts: the synchronous facade         *)
(* ================================================================== *)

Module TRINITIMemorySystem.
Import Memory.

Definition STORAGE_KEY_PREFIX : string := "triniti_memory_".

(** [storage] is a [Map]: an association list in insertion order.
    [MAX_ENTRIES] is the read-only field of the instance. *)
Record t : Type := {
  storage : list (string * MemoryEntry);
  MAX_ENTRIES : nat
}.

(** The fields as their initialisers leave them; the source has the
    capacity 1000 (see [new] below). *)
Definition create (capacity : nat) : t :=
  {| storage := []; MAX_ENTRIES := capacity |}.

Record RecordOptions : Type := {
  success : option bool;
  tags : option (list string);
  priority : option Z;
  duration : option Z
}.

Fixpoint map_set (k : string) (e : MemoryEntry)
    (m : list (string * MemoryEntry)) : list (string * MemoryEntry) :=
  match m with
  | [] => [(k, e)]
  | (k', e') :: r =>
      if (k =? k')%string then (k, e) :: r else (k', e') :: map_set k e r
  end.

Definition map_delete (k : string) (m : list (string * MemoryEntry))
  : list (string * MemoryEntry) :=
  filter (fun kv => negb (k =? fst kv)%string) m.

Fixpoint map_get (k : string) (m : list (string * MemoryEntry))
  : option MemoryEntry :=
  match m with
  | [] => None
  | (k', e) :: r => if (k =? k')%string then Some e else map_get k r
  end.

Definition values (self : t) : list MemoryEntry := map snd (storage self).

Definition persistToDisk (entry : MemoryEntry) (ls : LocalStorage.t)
  : LocalStorage.t :=
  try_catch
    (o <- JSON.stringify (Entry.to_value entry) ;;
     LocalStorage.setItem ls (STORAGE_KEY_PREFIX ++ id entry)
       (LocalStorage.text_of o))
    (fun _ => ls).

Definition removeFromDisk (id_ : string) (ls : LocalStorage.t)
  : LocalStorage.t :=
  LocalStorage.removeItem ls (STORAGE_KEY_PREFIX ++ id_).

(** The callback of the [reduce] call in [prune]. *)
Definition older (oldest current : string * MemoryEntry)
  : string * MemoryEntry :=
  if timestamp (snd current) <? timestamp (snd oldest)
  then current else oldest.

Definition prune (self : t) (ls : LocalStorage.t)
  : res (t * LocalStorage.t) :=
  if Nat.leb (MAX_ENTRIES self) (List.length (storage self)) then
    match storage self with
    | [] => Throw (TypeError "Reduce of empty array with no initial value")
    | first :: rest =>
        let oldestEntry := fold_left older rest first in
        Ok ({| storage := map_delete (fst oldestEntry) (storage self);
               MAX_ENTRIES := MAX_ENTRIES self |},
            removeFromDisk (fst oldestEntry) ls)
    end
  else Ok (self, ls).

Definition extractErrors (result_ : value) : list string :=
  match result_ with
  | VError message => [message]
  | VObj fields =>
      flat_map
        (fun key =>
           match JS.lookup key fields with
           | Some (VStr s) => [s]
           | _ => []
           end)
        ["error"; "errors"; "message"; "msg"]
  | VArr _ => []
  | _ => []
  end.

Definition option_field {A} (options : option RecordOptions)
    (f : RecordOptions -> option A) : option A :=
  match options with
  | Some o => f o
  | None => None
  end.

(** The entry that [record] builds, with the duration that it ends up
    with: the supplied one unless it is absent or zero. *)
Definition buildEntry (task_ : string) (result_ : value)
    (options : option RecordOptions) (r : Env.readings) : MemoryEntry :=
  let startTime := Env.perf_start r in
  let supplied := option_field options duration in
  let measured :=
    match supplied with
    | None => true
    | Some d => d =? 0
    end in
  {| id := Env.generateUniqueId r;
     timestamp := Env.now r;
     task := Defensive.safeguardString (Some task_) "";
     result := result_;
     metadata :=
       {| Memory.success :=
            Defensive.safeguardBoolean (option_field options success) true;
          Memory.duration :=
            if measured then Env.perf_end r - startTime
            else Defensive.safeguardNumber supplied 0;
          Memory.errors := Some (extractErrors result_);
          Memory.tags :=
            Some (match option_field options tags with
                  | Some ts => ts
                  | None => []
                  end);
          Memory.priority :=
            Some (Defensive.safeguardNumber (option_field options priority)
                    5) |} |}.

Definition record (self : t) (ls : LocalStorage.t) (task_ : string)
    (result_ : value) (options : option RecordOptions) (r : Env.readings)
  : res (string * t * LocalStorage.t) :=
  let entry := buildEntry task_ result_ options r in
  pruned <- prune self ls ;;
  let '(self1, ls1) := pruned in
  let self2 :=
    {| storage := map_set (id entry) entry (storage self1);
       MAX_ENTRIES := MAX_ENTRIES self1 |} in
  Ok (id entry, self2, persistToDisk entry ls1).

(** The type guard of the facade; it reads [metadata.success] without a
    test for [null]. *)
Definition validateEntry (entry : value) : res bool :=
  if (negb (truthy entry) || negb (typeof entry =? "object")%string)%bool
  then Ok false
  else
    let m := get entry "metadata" in
    if (negb ((typeof (get entry "id") =? "string")%string &&
              (typeof (get entry "timestamp") =? "number")%string &&
              (typeof (get entry "task") =? "string")%string &&
              (typeof m =? "object")%string))%bool
    then Ok false
    else if is_null m
    then Throw (TypeError "Cannot read properties of null")
    else Ok ((typeof (get m "success") =? "boolean")%string &&
             (typeof (get m "duration") =? "number")%string)%bool.

(** [loadFromDisk]: each key of the medium under the prefix is parsed and,
    when the guard accepts it, stored under its [id]; a key whose text
    does not parse, or on which the guard throws, is removed. *)
Definition loadKey (acc : t * LocalStorage.t) (key : string)
  : t * LocalStorage.t :=
  let '(self, ls) := acc in
  match LocalStorage.getItem ls key with
  | None => (self, ls)
  | Some text =>
      match
        (entry <- JSON.parse text ;;
         ok <- validateEntry entry ;;
         Ok (if ok : bool then Entry.of_value entry else None))
      with
      | Ok (Some e) =>
          ({| storage := map_set (id e) e (storage self);
              MAX_ENTRIES := MAX_ENTRIES self |}, ls)
      | Ok None => (self, ls)
      | Throw _ => (self, LocalStorage.removeItem ls key)
      end
  end.

Definition loadFromDisk (self : t) (ls : LocalStorage.t)
  : t * LocalStorage.t :=
  fold_left loadKey
    (filter (String.prefix STORAGE_KEY_PREFIX) (LocalStorage.keys ls))
    (self, ls).

(** The constructor. *)
Definition new (ls : LocalStorage.t) : t * LocalStorage.t :=
  loadFromDisk (create 1000) ls.

Record MemorySearchOptions : Type := {
  so_limit : option Z;
  so_includeErrors : option bool;
  so_tags : option (list string);
  so_dateRange : option (Z * Z)
}.

Definition searchInResult (result_ : value) (query : string) : res bool :=
  match result_ with
  | VStr s => Ok (includes (toLowerCase s) (toLowerCase query))
  | VArr _ | VObj _ | VError _ =>
      o <- JSON.stringify result_ ;;
      match o with
      | Some resultStr =>
          Ok (includes (toLowerCase resultStr) (toLowerCase query))
      | None => Throw (TypeError "Cannot read properties of undefined")
      end
  | _ => Ok false
  end.

Definition searchTasks (self : t) (query : string)
    (options : option MemorySearchOptions) : res (list MemoryEntry) :=
  let safeQuery := Defensive.safeguardString (Some query) "" in
  let results := values self in
  results <-
    (if (safeQuery =? "")%string then Ok results
     else
       MemorySearchEngine.filterM
         (fun entry =>
            if includes (toLowerCase (task entry)) (toLowerCase safeQuery)
            then Ok true
            else searchInResult (result entry) safeQuery)
         results) ;;
  let results :=
    match options with
    | Some o =>
        match so_includeErrors o with
        | Some false => filter (fun e => Memory.success (metadata e)) results
        | _ => results
        end
    | None => results
    end in
  let results :=
    match options with
    | Some o =>
        match so_tags o with
        | Some ts =>
            if Nat.ltb 0 (List.length ts)
            then
              filter
                (fun e =>
                   existsb
                     (fun tag =>
                        match Memory.tags (metadata e) with
                        | Some ets => arr_includes ets tag
                        | None => false
                        end)
                     ts)
                results
            else results
        | None => results
        end
    | None => results
    end in
  let results :=
    match options with
    | Some o =>
        match so_dateRange o with
        | Some (start, end_) =>
            filter
              (fun e => (start <=? timestamp e) && (timestamp e <=? end_))%bool
              results
        | None => results
        end
    | None => results
    end in
  let limit :=
    Defensive.safeguardNumber
      (match options with Some o => so_limit o | None => None end)
      (Z.of_nat (List.length results)) in
  Ok (slice0
        (JS.sort (fun a b => inject_Z (timestamp b - timestamp a)) results)
        limit).


(** *** Reading, removing, importing *)

Definition getRecentTasks (self : t) (limit : option Z) : list MemoryEntry :=
  let limit := match limit with Some l => l | None => 10 end in
  let safeLimit := Defensive.safeguardNumber (Some limit) 10 in
  slice0
    (JS.sort (fun a b => inject_Z (timestamp b - timestamp a)) (values self))
    safeLimit.

Definition getEntry (self : t) (id_ : string) : option MemoryEntry :=
  map_get (Defensive.safeguardString (Some id_) "") (storage self).

(** [Map.prototype.delete] reports whether the key was present. *)
Definition deleteEntry (self : t) (ls : LocalStorage.t) (id_ : string)
  : bool * t * LocalStorage.t :=
  let safeId := Defensive.safeguardString (Some id_) "" in
  let deleted :=
    match map_get safeId (storage self) with
    | Some _ => true
    | None => false
    end in
  if deleted
  then (true,
        {| storage := map_delete safeId (storage self);
           MAX_ENTRIES := MAX_ENTRIES self |},
        removeFromDisk safeId ls)
  else (false, self, ls).

Definition clearFromDisk (ls : LocalStorage.t) : LocalStorage.t :=
  fold_left (fun acc key => LocalStorage.removeItem acc key)
    (filter (String.prefix STORAGE_KEY_PREFIX) (LocalStorage.keys ls))
    ls.

Definition clear (self : t) (ls : LocalStorage.t) : t * LocalStorage.t :=
  ({| storage := []; MAX_ENTRIES := MAX_ENTRIES self |}, clearFromDisk ls).

Definition export (self : t) : list MemoryEntry := values self.

(** The callback of the [forEach] call in [import]; there is no call of
    [prune]. *)
Definition importEntry (acc : res (t * LocalStorage.t)) (entry : MemoryEntry)
  : res (t * LocalStorage.t) :=
  x <- acc ;;
  ok <- validateEntry (Entry.to_value entry) ;;
  if ok : bool
  then Ok ({| storage := map_set (id entry) entry (storage (fst x));
              MAX_ENTRIES := MAX_ENTRIES (fst x) |},
           persistToDisk entry (snd x))
  else Ok x.

Definition import (self : t) (ls : LocalStorage.t)
    (entries : list MemoryEntry) : res (t * LocalStorage.t) :=
  fold_left importEntry entries (Ok (self, ls)).

End TRINITIMemorySystem.

(* ================================================================== *)
(** ** services/TRINITIMemorySystem.ts, "Enhanced Version"             *)
(* ================================================================== *)

Module EnhancedMemorySystem.
Import Memory.

Record MemoryStats : Type := {
  totalEntries : nat;
  successfulTasks : nat;
  failedTasks : nat;
  averageDuration : Q;
  storageUsage : Q;
  mostCommonTags : list (string * nat)
}.

Record MemoryCapabilities : Type := {
  storageLimit : Z;
  maxEntrySize : Z;
  supportedFormats : list string;
  features : list string
}.

Record t : Type := {
  entries : list MemoryEntry;
  searchEngine : MemorySearchEngine.t;
  stats : MemoryStats;
  capabilities : MemoryCapabilities;
  isInitialized : bool
}.

(** [Partial<MemoryEntry['metadata']>] *)
Record MetadataOverrides : Type := {
  success : option bool;
  duration : option Z;
  errors : option (list string);
  tags : option (list string);
  priority : option Z
}.

Definition no_overrides : MetadataOverrides :=
  {| success := None; duration := None; errors := None; tags := None;
     priority := None |}.

Definition initializeStats : MemoryStats :=
  {| totalEntries := 0; successfulTasks := 0; failedTasks := 0;
     averageDuration := 0; storageUsage := 0; mostCommonTags := [] |}.

Definition initializeCapabilities : MemoryCapabilities :=
  {| storageLimit := 10000;
     maxEntrySize := 1024 * 1024;
     supportedFormats := ["json"; "text"];
     features := ["persistence"; "search"; "patterns"; "similarity"] |}.

Definition new : t :=
  {| entries := [];
     searchEngine := MemorySearchEngine.new [];
     stats := initializeStats;
     capabilities := initializeCapabilities;
     isInitialized := false |}.

Fixpoint count_tag (tag : string) (counts : list (string * nat))
  : list (string * nat) :=
  match counts with
  | [] => [(tag, 1%nat)]
  | (k, n) :: r =>
      if (tag =? k)%string then (k, S n) :: r else (k, n) :: count_tag tag r
  end.

Definition getMostCommonTags (es : list MemoryEntry)
  : list (string * nat) :=
  let tagCounts :=
    fold_left
      (fun counts e =>
         match Memory.tags (metadata e) with
         | Some ts => fold_left (fun c tag => count_tag tag c) ts counts
         | None => counts
         end)
      es [] in
  slice0
    (JS.sort (fun a b => inject_Z (Z.of_nat (snd b) - Z.of_nat (snd a)))
             tagCounts)
    10.

Definition updateStats (self : t) : t :=
  let es := entries self in
  let successful := filter (fun e => Memory.success (metadata e)) es in
  let failed := filter (fun e => negb (Memory.success (metadata e))) es in
  let n := MemorySearchEngine.Q_of_nat (List.length es) in
  let total :=
    fold_left (fun sum e => sum + Memory.duration (metadata e)) es 0 in
  {| entries := es;
     searchEngine := searchEngine self;
     stats :=
       {| totalEntries := List.length es;
          successfulTasks := List.length successful;
          failedTasks := List.length failed;
          averageDuration :=
            if Nat.ltb 0 (List.length es)
            then (inject_Z total / n)%Q
            else 0%Q;
          storageUsage :=
            (n / inject_Z (storageLimit (capabilities self))
             * inject_Z 100)%Q;
          mostCommonTags := getMostCommonTags es |};
     capabilities := capabilities self;
     isInitialized := isInitialized self |}.

Definition with_entries (self : t) (es : list MemoryEntry) : t :=
  {| entries := es;
     searchEngine := MemorySearchEngine.updateEntries (searchEngine self) es;
     stats := stats self;
     capabilities := capabilities self;
     isInitialized := isInitialized self |}.

Definition initialize (self : t) (now : Z) (ls : LocalStorage.t) : t :=
  let loaded := Entry.typed (PersistenceManager.retrieveEntries now ls) in
  let self1 := updateStats (with_entries self loaded) in
  {| entries := entries self1;
     searchEngine := searchEngine self1;
     stats := stats self1;
     capabilities := capabilities self1;
     isInitialized := true |}.

(** The facade's own type guard, the one of the synchronous facade. *)
Definition validateEntry (entry : value) : res bool :=
  TRINITIMemorySystem.validateEntry entry.

Definition array_or_empty (o : option (list string)) : list string :=
  match o with
  | Some l => l
  | None => []
  end.

(** The entry that [recordTask] builds, with its duration assigned. *)
Definition buildEntry (task_ : string) (result_ : value)
    (metadata_ : MetadataOverrides) (r : Env.readings) : MemoryEntry :=
  let startTime := Env.perf_start r in
  {| id := Env.generateUniqueId r;
     timestamp := Env.now r;
     task := Defensive.safeguardString (Some task_) "Unknown task";
     result := if truthy result_ then result_ else VObj [];
     metadata :=
       {| Memory.success :=
            Defensive.safeguardBoolean (success metadata_) true;
          Memory.duration := Env.perf_end r - startTime;
          Memory.errors := Some (array_or_empty (errors metadata_));
          Memory.tags := Some (array_or_empty (tags metadata_));
          Memory.priority :=
            Some (Defensive.safeguardNumber (priority metadata_) 5) |} |}.

Definition recordTask (self : t) (ls : LocalStorage.t) (task_ : string)
    (result_ : value) (metadata_ : MetadataOverrides) (r : Env.readings)
  : res string * t * LocalStorage.t :=
  let self0 :=
    if isInitialized self then self
    else initialize self (Env.index_now r) ls in
  let entry := buildEntry task_ result_ metadata_ r in
  match validateEntry (Entry.to_value entry) with
  | Throw e => (Throw e, self0, ls)
  | Ok false => (Throw (Error "Invalid memory entry structure"), self0, ls)
  | Ok true =>
      match PersistenceManager.saveEntry (Entry.to_value entry)
              (Env.index_now r) ls with
      | (Throw e, ls') => (Throw e, self0, ls')
      | (Ok _, ls') =>
          let self1 :=
            updateStats
              (with_entries self0 (entries self0 ++ [entry])%list) in
          (Ok (id entry), self1, ls')
      end
  end.

(** The result for a facade that is not initialised has the three
    fields [entries], [totalCount] and [searchTime] in the source; the
    record of the model carries the options as well. *)
Definition search (self : t) (options : MemorySearchEngine.SearchOptions)
    (startTime now : Z) : MemorySearchEngine.SearchResult :=
  if negb (isInitialized self)
  then {| MemorySearchEngine.entries := [];
          MemorySearchEngine.totalCount := 0;
          MemorySearchEngine.searchTime := 0;
          MemorySearchEngine.filters := options;
          MemorySearchEngine.suggestions := None |}
  else MemorySearchEngine.search (searchEngine self) options startTime now.

Definition findSimilarTasks (self : t) (task_ : string) (threshold : Q)
    (limit : Z) : list MemorySearchEngine.SimilarityResult :=
  if negb (isInitialized self) then []
  else MemorySearchEngine.findSimilarTasks (searchEngine self) task_
         threshold limit.

Definition deleteEntry (self : t) (ls : LocalStorage.t) (entryId : string)
    (now : Z) : bool * t * LocalStorage.t :=
  match PersistenceManager.deleteEntry entryId now ls with
  | (true, ls') =>
      let es :=
        filter (fun e => negb (id e =? entryId)%string) (entries self) in
      (true, updateStats (with_entries self es), ls')
  | (false, ls') => (false, self, ls')
  end.


(** [getRecentTasks] sorts [this.entries] in place.  The search engine
    holds the same array, handed over by [updateEntries], and so its
    working set takes the new order; its indexes are not rebuilt. *)
Definition getRecentTasks (self : t) (limit : option Z)
  : list MemoryEntry * t :=
  if negb (isInitialized self) then ([], self)
  else
    let limit := match limit with Some l => l | None => 20 end in
    let sorted :=
      JS.sort (fun a b => inject_Z (timestamp b - timestamp a))
              (entries self) in
    (slice0 sorted limit,
     {| entries := sorted;
        searchEngine :=
          {| MemorySearchEngine.memoryEntries := sorted;
             MemorySearchEngine.searchIndex :=
               MemorySearchEngine.searchIndex (searchEngine self);
             MemorySearchEngine.tagIndex :=
               MemorySearchEngine.tagIndex (searchEngine self) |};
        stats := stats self;
        capabilities := capabilities self;
        isInitialized := isInitialized self |}).

Definition getStats (self : t) : MemoryStats := stats self.

Definition getSuggestions (self : t) (query : string) : list string :=
  if negb (isInitialized self) then []
  else MemorySearchEngine.getSuggestions (searchEngine self) query.

Definition clearAll (self : t) (ls : LocalStorage.t) (now : Z)
  : res unit * t * LocalStorage.t :=
  match PersistenceManager.clearAllEntries now ls with
  | (Ok _, ls') => (Ok tt, updateStats (with_entries self []), ls')
  | (Throw e, ls') => (Throw e, self, ls')
  end.

End EnhancedMemorySystem.

(* ================================================================== *)
(** ** services/error_guard.ts                                         *)
(* ================================================================== *)

Module ErrorGuard.

(** [TaskResult] of types/task.ts *)
Record TaskResult : Type := {
  success : bool;
  output : string;
  error : option string
}.

(** How one call of [exec] ends: the promise is fulfilled with a result,
    or it is rejected with a value. *)
Inductive outcome : Type :=
| Resolved (res : TaskResult)
| Rejected (err : value).

(** The [for] loop of [guardedExec] from the iteration [attempt] on, with
    [remaining] iterations to go: [exec attempt] is the outcome of the
    call made in that iteration, and [delays] are the times waited so
    far, in milliseconds.  The loop ends with the result to return, if
    an attempt succeeded, with [lastErr] and with the delays. *)
Fixpoint attempts (exec : nat -> outcome) (retries : Z) (remaining : nat)
    (attempt : nat) (lastErr : value) (delays : list Z)
  : option TaskResult * value * list Z :=
  match remaining with
  | O => (None, lastErr, delays)
  | S remaining' =>
      let backoff (lastErr : value) :=
        let delays :=
          if Z.of_nat attempt <? retries
          then (delays ++ [2 ^ Z.of_nat attempt * 500])%list
          else delays in
        attempts exec retries remaining' (S attempt) lastErr delays in
      match exec attempt with
      | Resolved res =>
          if success res then (Some res, lastErr, delays)
          else backoff (match error res with
                        | Some e => VStr e
                        | None => VStr "Unknown failure"
                        end)
      | Rejected err => backoff err
      end
  end.

(** [recordTaskFailure]: a facade is constructed and [recordTask] is
    called on it, with the message as the result of the task; whatever
    [recordTask] throws is caught. *)
Definition recordTaskFailure (error : string) (ls : LocalStorage.t)
    (r : Env.readings) : LocalStorage.t :=
  snd (EnhancedMemorySystem.recordTask EnhancedMemorySystem.new ls
         "Task Execution Failure" (VStr error)
         {| EnhancedMemorySystem.success := Some false;
            EnhancedMemorySystem.duration := None;
            EnhancedMemorySystem.errors := Some [error];
            EnhancedMemorySystem.tags := Some ["error"; "failure"];
            EnhancedMemorySystem.priority := Some 1 |}
         r).

(** [guardedExec(exec, retries)]: the result, the delays that were
    waited, and the medium. *)
Definition guardedExec (exec : nat -> outcome) (retries : Z)
    (ls : LocalStorage.t) (r : Env.readings)
  : TaskResult * list Z * LocalStorage.t :=
  match attempts exec retries (Z.to_nat (retries + 1)) 0 VUndefined [] with
  | (Some res, _, delays) => (res, delays, ls)
  | (None, lastErr, delays) =>
      let errorMessage := toString lastErr in
      ({| success := false; output := ""; error := Some errorMessage |},
       delays,
       recordTaskFailure errorMessage ls r)
  end.

(** The default of [retries]. *)
Definition default_retries : Z := 2.

End ErrorGuard.

(* ================================================================== *)
(** ** Specification-level definitions                                 *)
(* ================================================================== *)

(** The predicates and functions in which the properties below are
    stated: what the specification says in words, and the invariants of
    the loops. *)

Module Spec.
Import Memory MemorySearchEngine.

(** [e] carries the tag [tag]. *)
Definition has_tag (e : MemoryEntry) (tag : string) : Prop :=
  exists ts, Memory.tags (metadata e) = Some ts /\ In tag ts.

(** The comparison function of the relevance sort. *)
Definition by_relevance (order : string) (a b : MemoryEntry) : Q :=
  inject_Z (compareEntries "relevance" order a b).

(** The classic Levenshtein distance, by its recurrence on the lengths
    [i] and [j] of the prefixes of [s1] and [s2] that are compared:
    removing the last character of either prefix costs one, and so does
    replacing the last character of one by that of the other when they
    differ. *)
Fixpoint prefix_distance (s1 s2 : string) (i : nat) : nat -> nat :=
  match i with
  | O => fun j => j
  | S i' =>
      fix row (j : nat) : nat :=
        match j with
        | O => S i'
        | S j' =>
            min3 (prefix_distance s1 s2 i' (S j') + 1)
                 (row j' + 1)
                 (prefix_distance s1 s2 i' j'
                  + (if same_char s1 i' s2 j' then O else 1%nat))
        end
  end.

Definition levenshtein (s1 s2 : string) : nat :=
  prefix_distance s1 s2 (String.length s1) (String.length s2).

(** One way of turning the text [s] into the text [t], counted in
    single-character deletions, insertions and replacements. *)
Inductive edits : list ascii -> list ascii -> nat -> Prop :=
| edits_nil : edits [] [] O
| edits_delete a s t n : edits s t n -> edits (a :: s) t (S n)
| edits_insert b s t n : edits s t n -> edits s (b :: t) (S n)
| edits_keep a s t n : edits s t n -> edits (a :: s) (a :: t) n
| edits_replace a b s t n : edits s t n -> edits (a :: s) (b :: t) (S n).

Definition chars (s : string) : list ascii := list_ascii_of_string s.

(** The prefix of length [i], last character first. *)
Definition rprefix (s : string) (i : nat) : list ascii :=
  rev (firstn i (chars s)).

(** Similarity as the specification words it: the two texts are
    compared in lower case, and the similarity is one minus their
    distance over the length of the longer of the two compared strings;
    two empty texts have similarity one. *)
Definition similarity_spec (str1 str2 : string) : Q :=
  let a := toLowerCase str1 in
  let b := toLowerCase str2 in
  let longer := Nat.max (String.length a) (String.length b) in
  if Nat.eqb longer 0 then 1%Q
  else (1 - Q_of_nat (levenshtein a b) / Q_of_nat longer)%Q.

(** Results in the order of [findSimilarTasks]: no result is followed by
    one of a greater similarity. *)
Definition descending (l : list SimilarityResult) : Prop :=
  StronglySorted (fun a b => (similarity b <= similarity a)%Q) l.

(** What the validator of the persistence layer asks of a candidate, in
    the words of the specification: [is_object] is "a non-null object". *)
Definition is_object (v : value) : Prop :=
  typeof v = "object" /\ v <> VNull.

Definition structurally_valid (e : value) : Prop :=
  is_object e /\
  (exists s, get e "id" = VStr s) /\
  (exists n, get e "timestamp" = VNumber n) /\
  (exists t, get e "task" = VStr t) /\
  is_object (get e "result") /\
  is_object (get e "metadata") /\
  (exists b, get (get e "metadata") "success" = VBool b) /\
  (exists d, get (get e "metadata") "duration" = VNumber d).

(** The facade before [recordTask] builds its entry: loaded, if it was
    not. *)
Definition loaded (self : EnhancedMemorySystem.t) (r : Env.readings)
    (ls : LocalStorage.t) : EnhancedMemorySystem.t :=
  if EnhancedMemorySystem.isInitialized self then self
  else EnhancedMemorySystem.initialize self (Env.index_now r) ls.

(** The arguments and the readings of one call of [record]. *)
Record call : Type := {
  c_task : string;
  c_result : value;
  c_options : option TRINITIMemorySystem.RecordOptions;
  c_readings : Env.readings
}.

Definition entry_of (c : call) : MemoryEntry :=
  TRINITIMemorySystem.buildEntry (c_task c) (c_result c) (c_options c)
    (c_readings c).

(** A sequence of calls of [record], one after the other. *)
Fixpoint record_all (self : TRINITIMemorySystem.t) (ls : LocalStorage.t)
    (calls : list call) : res (TRINITIMemorySystem.t * LocalStorage.t) :=
  match calls with
  | [] => Ok (self, ls)
  | c :: rest =>
      x <- TRINITIMemorySystem.record self ls (c_task c) (c_result c)
             (c_options c) (c_readings c) ;;
      record_all (snd (fst x)) (snd x) rest
  end.

(** The map that holds the entries [es] under their ids, in order. *)
Definition keyed (es : list MemoryEntry) : list (string * MemoryEntry) :=
  map (fun e => (id e, e)) es.

(** What is observed of the outcome of a sequence of calls: the number
    of stored entries, and the timestamps stored under two ids. *)
Definition observe (k1 k2 : string)
    (x : res (TRINITIMemorySystem.t * LocalStorage.t))
  : option (nat * option Z * option Z) :=
  match x with
  | Ok (self, _) =>
      let st := TRINITIMemorySystem.storage self in
      Some (List.length st,
            option_map timestamp (TRINITIMemorySystem.map_get k1 st),
            option_map timestamp (TRINITIMemorySystem.map_get k2 st))
  | Throw _ => None
  end.

(** A table of [rows] rows and [cols] columns. *)
Definition table (rows cols : nat) (dp : list (list nat)) : Prop :=
  List.length dp = rows /\ Forall (fun r => List.length r = cols) dp.

(** The table of [levenshteinDistance] after the two initialising
    loops. *)
Definition initialised (s1 s2 : string) (dp : list (list nat)) : Prop :=
  table (S (String.length s1)) (S (String.length s2)) dp /\
  (forall a, (a <= String.length s1)%nat -> dp_get dp a 0 = a) /\
  (forall b, (b <= String.length s2)%nat -> dp_get dp 0 b = b).

(** The table when the outer loop reaches row [i]: the rows above hold
    the distances of the prefixes, and so does column 0. *)
Definition rows_done (s1 s2 : string) (i : nat) (dp : list (list nat))
  : Prop :=
  table (S (String.length s1)) (S (String.length s2)) dp /\
  (forall a, (a <= String.length s1)%nat ->
             dp_get dp a 0 = prefix_distance s1 s2 a 0) /\
  (forall a b, (a < i)%nat -> (a <= String.length s1)%nat ->
               (b <= String.length s2)%nat ->
               dp_get dp a b = prefix_distance s1 s2 a b).

(** The table when the inner loop of row [i] reaches column [j]. *)
Definition cells_done (s1 s2 : string) (i j : nat) (dp : list (list nat))
  : Prop :=
  rows_done s1 s2 i dp /\
  (forall b, (b < j)%nat -> (b <= String.length s2)%nat ->
             dp_get dp i b = prefix_distance s1 s2 i b).

Definition by_similarity (a b : SimilarityResult) : Q :=
  (similarity b - similarity a)%Q.

(** The reversed prefix that [sort] builds is in ascending order. *)
Definition ascending (l : list SimilarityResult) : Prop :=
  StronglySorted (fun a b => (similarity a <= similarity b)%Q) l.


(** *** Values that JSON carries *)

(** The values made of [null], booleans, integers, strings, arrays and
    objects: what [JSON.stringify] writes without loss. *)
Fixpoint plain (v : value) : bool :=
  match v with
  | VNull | VBool _ | VStr _ | VNumber (Num _) => true
  | VArr items => forallb plain items
  | VObj fields => forallb (fun kv => plain (snd kv)) fields
  | _ => false
  end.

(** A text before which a number of the JSON grammar ends. *)
Definition ends_number (rest : string) : Prop :=
  match rest with
  | EmptyString => True
  | String c _ =>
      (JSON.is_digit c || Ascii.eqb c "." || Ascii.eqb c "e"
       || Ascii.eqb c "E")%bool = false
  end.

(** The text of a value begins with a character that is neither white
    space nor a closing bracket. *)
Definition starts_value (t : string) : Prop :=
  match t with
  | String c _ => JSON.is_json_ws c = false /\ Ascii.eqb c "]" = false
  | EmptyString => False
  end.

(** What is shown of a value [v] by induction on it: its text is read
    back as [v], with enough fuel, whatever follows. *)
Definition reads_back (v : value) : Prop :=
  plain v = true ->
  exists t,
    JSON.stringify v = Ok (Some t) /\
    starts_value t /\
    forall fuel rest,
      (2 * String.length t <= fuel)%nat -> ends_number rest ->
      JSON.parse_value fuel (t ++ rest) = Some (v, rest).

(** *** Search options *)

(** [{ ...options, limit: l }] *)
Definition set_limit (options : SearchOptions) (l : option Z)
  : SearchOptions :=
  {| query := query options; timeframe := timeframe options;
     successOnly := successOnly options; tags := tags options;
     minDuration := minDuration options; maxDuration := maxDuration options;
     limit := l; sortBy := sortBy options; sortOrder := sortOrder options |}.

(** The number by which [sortResults] compares two entries under
    [sortBy: 'timestamp'] and under [sortBy: 'duration']. *)
Definition sort_key (sortBy : string) (e : MemoryEntry) : Z :=
  if (sortBy =? "timestamp")%string then timestamp e
  else duration (metadata e).

(** The order of two keys that follow each other in a result:
    ascending for [sortOrder: 'asc'], descending for every other value
    and when [sortOrder] is left out. *)
Definition in_order (sortOrder : option string) (x y : Z) : Prop :=
  match sortOrder with
  | Some o => if (o =? "asc")%string then x <= y else y <= x
  | None => y <= x
  end.

(** *** The indexes and the patterns *)

(** [map.get(key)] on an index, as the list of the ids of the set; a key
    that is absent has none. *)
Fixpoint index_get (key : string) (ix : index) : list string :=
  match ix with
  | [] => []
  | (k, ids) :: r => if (key =? k)%string then ids else index_get key r
  end.

(** What the loops of [findCommonTasks] and [findTagPatterns] count: one
    occurrence, with the duration of the entry, for each entry under its
    task, and for each tag of each entry under that tag. *)
Definition task_occurrences (es : list MemoryEntry) : list (string * Z) :=
  map (fun e => (task e, duration (metadata e))) es.

Definition tag_occurrences (es : list MemoryEntry) : list (string * Z) :=
  flat_map
    (fun e =>
       match Memory.tags (metadata e) with
       | Some ts => map (fun tag => (tag, duration (metadata e))) ts
       | None => []
       end)
    es.

(** The occurrences of one key: how many, and the sum of their
    durations. *)
Definition count_of (key : string) (occ : list (string * Z)) : nat :=
  List.length (filter (fun kd => (fst kd =? key)%string) occ).

Definition total_of (key : string) (occ : list (string * Z)) : Z :=
  fold_right Z.add 0
    (map snd (filter (fun kd => (fst kd =? key)%string) occ)).

(** The counters of a key in a tally. *)
Fixpoint tally_get (key : string) (m : tally) : option (nat * Z) :=
  match m with
  | [] => None
  | (k, c) :: r => if (key =? k)%string then Some c else tally_get key r
  end.

(** *** The synchronous facade and its medium *)

(** The text that [persistToDisk] writes for an entry. *)
Definition stored_text (e : MemoryEntry) : string :=
  match JSON.stringify (Entry.to_value e) with
  | Ok o => LocalStorage.text_of o
  | Throw _ => ""
  end.

(** An entry whose [result] JSON carries. *)
Definition portable (e : MemoryEntry) : Prop :=
  plain (result e) = true /\ JSON.normalize (result e) = result e.

(** The key and the text under which an entry of the working set is
    kept in the medium. *)
Definition on_disk (kv : string * MemoryEntry) : string * string :=
  (TRINITIMemorySystem.STORAGE_KEY_PREFIX ++ fst kv, stored_text (snd kv)).

Definition under_prefix (kv : string * string) : bool :=
  String.prefix TRINITIMemorySystem.STORAGE_KEY_PREFIX (fst kv).

(** The medium mirrors the working set: the keys of the medium under the
    prefix of the facade are, in order, the keys of the working set, each
    with the text of its entry; every entry is kept under its [id]. *)
Definition mirrors (self : TRINITIMemorySystem.t) (ls : LocalStorage.t)
  : Prop :=
  filter under_prefix (LocalStorage.items ls)
  = map on_disk (TRINITIMemorySystem.storage self) /\
  NoDup (map fst (TRINITIMemorySystem.storage self)) /\
  Forall (fun kv => fst kv = id (snd kv) /\ portable (snd kv))
         (TRINITIMemorySystem.storage self).

(** *** The enhanced facade *)

(** The facade and its search engine hold the same array: the working
    set of the engine is the list of entries of the facade. *)
Definition shared (self : EnhancedMemorySystem.t) : Prop :=
  memoryEntries (EnhancedMemorySystem.searchEngine self)
  = EnhancedMemorySystem.entries self.

(** The statistics are the ones of the entries [es]. *)
Definition stats_of (s : EnhancedMemorySystem.MemoryStats)
    (es : list MemoryEntry) : Prop :=
  EnhancedMemorySystem.totalEntries s = List.length es /\
  EnhancedMemorySystem.successfulTasks s
  = List.length (filter (fun e => success (metadata e)) es) /\
  (EnhancedMemorySystem.successfulTasks s
   + EnhancedMemorySystem.failedTasks s
   = EnhancedMemorySystem.totalEntries s)%nat /\
  EnhancedMemorySystem.averageDuration s
  = (if Nat.ltb 0 (List.length es)
     then (inject_Z (fold_right Z.add 0%Z
                       (map (fun e => duration (metadata e)) es))
           / Q_of_nat (List.length es))%Q
     else 0%Q).

(** *** The guarded execution *)

(** The error that an attempt which does not succeed leaves in
    [lastErr]; an attempt that succeeds leaves none. *)
Definition failure_of (o : ErrorGuard.outcome) : option value :=
  match o with
  | ErrorGuard.Resolved res =>
      if ErrorGuard.success res then None
      else Some (match ErrorGuard.error res with
                 | Some e => VStr e
                 | None => VStr "Unknown failure"
                 end)
  | ErrorGuard.Rejected err => Some err
  end.

(** The waits of the exponential backoff after the attempts
    [0, ..., k - 1]: 500 ms, 1000 ms, 2000 ms, ... *)
Definition backoff_delays (k : nat) : list Z :=
  map (fun i => 2 ^ Z.of_nat i * 500) (seq 0 k).

(** The waits of the iterations [a, ..., a + n - 1] of the loop. *)
Definition delays_from (retries : Z) (a n : nat) : list Z :=
  flat_map
    (fun j => if Z.of_nat j <? retries then [2 ^ Z.of_nat j * 500] else [])
    (seq a n).

End Spec.

(* ================================================================== *)
(** ** Options, entries and media used by the examples                 *)
(* ================================================================== *)

Module Samples.
Import Memory MemorySearchEngine Spec.

Definition no_options : SearchOptions :=
  {| query := None; timeframe := None; successOnly := None; tags := None;
     minDuration := None; maxDuration := None; limit := None;
     sortBy := None; sortOrder := None |}.

Definition with_successOnly (b : option bool) : SearchOptions :=
  {| query := None; timeframe := None; successOnly := b; tags := None;
     minDuration := None; maxDuration := None; limit := None;
     sortBy := None; sortOrder := None |}.

Definition with_tags (ts : list string) : SearchOptions :=
  {| query := None; timeframe := None; successOnly := None; tags := Some ts;
     minDuration := None; maxDuration := None; limit := None;
     sortBy := None; sortOrder := None |}.

Definition with_sortBy (by_ : string) (order : option string)
  : SearchOptions :=
  {| query := None; timeframe := None; successOnly := None; tags := None;
     minDuration := None; maxDuration := None; limit := None;
     sortBy := Some by_; sortOrder := order |}.

Definition with_query (q : string) : SearchOptions :=
  {| query := Some q; timeframe := None; successOnly := None; tags := None;
     minDuration := None; maxDuration := None; limit := None;
     sortBy := None; sortOrder := None |}.

Definition with_limit (l : Z) : SearchOptions :=
  {| query := None; timeframe := None; successOnly := None; tags := None;
     minDuration := None; maxDuration := None; limit := Some l;
     sortBy := None; sortOrder := None |}.

(** A plain entry for the examples. *)
Definition sample (id_ task_ : string) (ts : Z) (ok : bool) (d : Z)
    (tags_ : list string) : MemoryEntry :=
  {| id := id_; timestamp := ts; task := task_; result := VObj [];
     metadata := {| success := ok; duration := d; errors := Some [];
                    Memory.tags := Some tags_; priority := Some 5 |} |}.

Definition created : MemoryEntry :=
  sample "task_1" "Create file test.txt" 1000 true 120 ["a"; "b"].

Definition deploy : MemoryEntry :=
  sample "task_2" "Deploy build" 2000 false 40 ["a"].

(** An entry whose [result] cannot be serialised. *)
Definition opaque : MemoryEntry :=
  {| id := "task_3"; timestamp := 3000; task := "Count rows";
     result := VObj [("rows", VBigInt 10)];
     metadata := {| success := true; duration := 7; errors := Some [];
                    Memory.tags := Some []; priority := Some 5 |} |}.

(** A medium with the usual five megabytes. *)
Definition medium : LocalStorage.t := LocalStorage.empty (5 * 1024 * 1024).

Definition reading (clock perf : Z) (rnd : string) : Env.readings :=
  {| Env.perf_start := perf; Env.id_now := clock; Env.random := rnd;
     Env.now := clock; Env.perf_end := perf + 3; Env.index_now := clock |}.

Definition overrides (ok : bool) (d : option Z)
  : EnhancedMemorySystem.MetadataOverrides :=
  {| EnhancedMemorySystem.success := Some ok;
     EnhancedMemorySystem.duration := d;
     EnhancedMemorySystem.errors := None;
     EnhancedMemorySystem.tags := None;
     EnhancedMemorySystem.priority := None |}.

(** The scenario of the specification: a successful task recorded with
    [duration = 120], then a failed one. *)
Definition after_first :=
  EnhancedMemorySystem.recordTask EnhancedMemorySystem.new medium
    "Create file test.txt" (VObj []) (overrides true (Some 120))
    (reading 1000 50 "k3j9x0a1b").

Definition after_second :=
  let '(_, sys, ls) := after_first in
  EnhancedMemorySystem.recordTask sys ls
    "Deploy build" (VObj []) (overrides false None)
    (reading 2000 90 "z8y7w6v5u").

Definition scenario : EnhancedMemorySystem.t :=
  let '(_, sys, _) := after_second in sys.

(** A valid entry whose [id] is the empty string. *)
Definition nameless : value :=
  Entry.to_value (sample "" "Create file test.txt" 1000 true 120 []).

Definition text_of_value (v : value) : string :=
  match JSON.stringify v with
  | Ok (Some text) => text
  | _ => ""
  end.

(** A medium that holds [nameless] as one serialised object, with an
    index that lists its [id]. *)
Definition foreign_medium : LocalStorage.t :=
  {| LocalStorage.items :=
       [ (PersistenceManager.entryKey "", text_of_value nameless);
         (PersistenceManager.METADATA_KEY,
          text_of_value
            (PersistenceManager.index_to_value
               {| PersistenceManager.entryIds := [""];
                  PersistenceManager.lastUpdated := 1;
                  PersistenceManager.totalEntries := 1;
                  PersistenceManager.storageSize := 0 |})) ];
     LocalStorage.quota := 5 * 1024 * 1024 |}.

(** A call that supplies nothing and reads the clock at [clock]. *)
Definition plain_call (clock : Z) (rnd : string) : call :=
  {| c_task := "Run step"; c_result := VObj []; c_options := None;
     c_readings := reading clock 0 rnd |}.

(** A thousand calls at the clock readings 5000, 5001, ..., and a call
    made after the clock was set back. *)
Definition thousand : list call :=
  map (fun i => plain_call (5000 + Z.of_nat i) "q7w8e9r0t") (seq 0 1000).

Definition after_step_back : call := plain_call 3000 "a1s2d3f4g".

(** The facade that the constructor builds over an empty medium, after
    the thousand and one calls. *)
Definition outcome_after_step_back
  : res (TRINITIMemorySystem.t * LocalStorage.t) :=
  record_all (fst (TRINITIMemorySystem.new medium))
             (snd (TRINITIMemorySystem.new medium))
             (thousand ++ [after_step_back]).


Definition with_timeframe (s x : option Z) : SearchOptions :=
  {| query := None; timeframe := Some {| tf_start := s; tf_end := x |};
     successOnly := None; tags := None;
     minDuration := None; maxDuration := None; limit := None;
     sortBy := None; sortOrder := None |}.

(** The medium after [created] was saved at the time 1, and the index
    that is read from it. *)
Definition saved_medium : LocalStorage.t :=
  snd (PersistenceManager.saveEntry (Entry.to_value created) 1 medium).

Definition saved_index : PersistenceManager.MemoryIndex :=
  match PersistenceManager.getMemoryIndex 2 saved_medium with
  | PersistenceManager.IndexRecord ix => ix
  | _ => PersistenceManager.default_index 2
  end.

(** A valid entry whose [id] is "INDEX", and the medium after its text
    was written. *)
Definition index_named : value :=
  Entry.to_value (sample "INDEX" "Create file test.txt" 1000 true 120 []).

Definition overwritten_medium : LocalStorage.t :=
  match LocalStorage.setItem medium PersistenceManager.METADATA_KEY
          (JSON.quote (text_of_value index_named)) with
  | Ok ls => ls
  | Throw _ => medium
  end.

(** One call of [record] on an empty facade. *)
Definition recorded : string * TRINITIMemorySystem.t * LocalStorage.t :=
  match TRINITIMemorySystem.record (TRINITIMemorySystem.create 1000) medium
          "Run step" (VObj []) None (reading 5000 0 "q7w8e9r0t") with
  | Ok x => x
  | Throw _ => ("", TRINITIMemorySystem.create 1000, medium)
  end.

(** A facade of capacity 1 and one that holds two entries. *)
Definition two_stored : TRINITIMemorySystem.t :=
  {| TRINITIMemorySystem.storage := keyed [created; deploy];
     TRINITIMemorySystem.MAX_ENTRIES := 1000 |}.

(** An [exec] that is rejected twice and then succeeds. *)
Definition third_time (k : nat) : ErrorGuard.outcome :=
  if Nat.ltb k 2 then ErrorGuard.Rejected (VError "timeout")
  else ErrorGuard.Resolved
         {| ErrorGuard.success := true; ErrorGuard.output := "done";
            ErrorGuard.error := None |}.

End Samples.

(** One case of the proof that a quoted character is read back: [E] is
    the unfolding equation of the reader. *)
Ltac quote_char_case H E :=
  match goal with
  | |- context [JSON.quote_char ?c] =>
      let q := eval vm_compute in (JSON.quote_char c) in
      change (JSON.quote_char c) with q
  end;
  cbn [String.append];
  rewrite E;
  cbv -[JSON.parse_string_body];
  rewrite H; reflexivity.

(* ================================================================== *)
(** * Properties                                                       *)
(* ================================================================== *)

Import Memory.

(** ** Arrays: [sort], [slice], [filter] *)

Section ArrayFacts.

Context {A : Type}.
Variable comparefn : A -> A -> Q.

Lemma sort_insert_perm (key : A) (rprefix : list A) :
  Permutation (sort_insert comparefn key rprefix) (key :: rprefix).
Proof.
  induction rprefix as [|y r IH]; simpl.
  - apply Permutation_refl.
  - destruct (positive (comparefn y key)).
    + eapply Permutation_trans.
      * apply perm_skip, IH.
      * apply perm_swap.
    + apply Permutation_refl.
Qed.

Lemma sort_fold_perm (l acc : list A) :
  Permutation
    (fold_left (fun rprefix key => sort_insert comparefn key rprefix) l acc)
    (rev l ++ acc).
Proof.
  revert acc.
  induction l as [|x l IH]; intros acc; simpl.
  - apply Permutation_refl.
  - eapply Permutation_trans; [apply IH|].
    rewrite <- app_assoc. simpl.
    apply Permutation_app_head.
    apply sort_insert_perm.
Qed.

Lemma sort_perm (l : list A) : Permutation (JS.sort comparefn l) l.
Proof.
  unfold JS.sort.
  eapply Permutation_trans.
  - apply Permutation_sym, Permutation_rev.
  - eapply Permutation_trans; [apply sort_fold_perm|].
    rewrite app_nil_r.
    apply Permutation_sym, Permutation_rev.
Qed.

Lemma sort_length (l : list A) :
  List.length (JS.sort comparefn l) = List.length l.
Proof. apply Permutation_length, sort_perm. Qed.

Lemma sort_In (l : list A) (x : A) : In x (JS.sort comparefn l) <-> In x l.
Proof.
  split; apply Permutation_in; [|apply Permutation_sym]; apply sort_perm.
Qed.

End ArrayFacts.

Lemma slice0_In {A} (l : list A) (e : Z) (x : A) :
  In x (slice0 l e) -> In x l.
Proof.
  unfold slice0. intros H.
  rewrite <- (firstn_skipn
                (Z.to_nat
                   (if e <? 0 then Z.max (Z.of_nat (List.length l) + e) 0
                    else Z.min e (Z.of_nat (List.length l)))) l).
  apply in_or_app. now left.
Qed.

Lemma slice0_length {A} (l : list A) (e : Z) :
  0 <= e -> Z.of_nat (List.length (slice0 l e)) = Z.min e (Z.of_nat (List.length l)).
Proof.
  intros He. unfold slice0.
  destruct (Z.ltb_spec e 0) as [Hneg|_]; [lia|].
  rewrite length_firstn. lia.
Qed.

Lemma filterM_pure {A} (p : A -> res bool) (q : A -> bool) (l : list A) :
  (forall x, In x l -> p x = Ok (q x)) ->
  MemorySearchEngine.filterM p l = Ok (filter q l).
Proof.
  induction l as [|x l IH]; intros Hp; simpl.
  - reflexivity.
  - rewrite (Hp x (or_introl eq_refl)). simpl.
    rewrite IH by (intros y Hy; apply Hp; now right).
    simpl. now destruct (q x).
Qed.

Lemma filterM_In {A} (p : A -> res bool) (l r : list A) (x : A) :
  MemorySearchEngine.filterM p l = Ok r ->
  In x r -> In x l /\ p x = Ok true.
Proof.
  revert r.
  induction l as [|y l IH]; intros r Hf Hx; simpl in Hf.
  - inversion Hf; subst. contradiction.
  - destruct (p y) as [keep|err] eqn:Hy; simpl in Hf; [|discriminate].
    destruct (MemorySearchEngine.filterM p l) as [rest|err] eqn:Hrest;
      simpl in Hf; [|discriminate].
    inversion Hf; subst; clear Hf.
    destruct keep.
    + destruct Hx as [Hx|Hx].
      * subst. split; [now left|assumption].
      * destruct (IH rest eq_refl Hx) as [Hin Hp]. split; [now right|assumption].
    + destruct (IH rest eq_refl Hx) as [Hin Hp]. split; [now right|assumption].
Qed.

Lemma filterM_length {A} (p : A -> res bool) (l r : list A) :
  MemorySearchEngine.filterM p l = Ok r ->
  (List.length r <= List.length l)%nat.
Proof.
  revert r.
  induction l as [|y l IH]; intros r Hf; simpl in Hf.
  - inversion Hf; subst. simpl. lia.
  - destruct (p y) as [keep|err]; simpl in Hf; [|discriminate].
    destruct (MemorySearchEngine.filterM p l) as [rest|err];
      simpl in Hf; [|discriminate].
    inversion Hf; subst; clear Hf.
    specialize (IH rest eq_refl).
    destruct keep; simpl; lia.
Qed.

(** ** The search engine *)

Import MemorySearchEngine Spec Samples.

Lemma sortResults_In (l : list MemoryEntry) by_ order (x : MemoryEntry) :
  In x (sortResults l by_ order) <-> In x l.
Proof.
  unfold sortResults.
  destruct by_ as [b|]; [|tauto].
  destruct (b =? "")%string; [tauto|].
  apply sort_In.
Qed.

Lemma sortResults_length (l : list MemoryEntry) by_ order :
  List.length (sortResults l by_ order) = List.length l.
Proof.
  unfold sortResults.
  destruct by_ as [b|]; [|reflexivity].
  destruct (b =? "")%string; [reflexivity|].
  apply sort_length.
Qed.

(** The list that [search] truncates: the entries that pass the filter,
    sorted. *)
Lemma search_entries_In self options t0 t1 (x : MemoryEntry) :
  In x (entries (search self options t0 t1)) ->
  In x (memoryEntries self) /\ matchesOptions options x = Ok true.
Proof.
  unfold search, search_try.
  destruct (filterM (matchesOptions options) (memoryEntries self))
    as [matched|err] eqn:Hf; simpl; [|contradiction].
  intros Hx.
  apply (filterM_In _ _ _ _ Hf).
  apply (sortResults_In matched (sortBy options) (sortOrder options)).
  destruct (limit options) as [l|]; [|exact Hx].
  destruct (negb (l =? 0) && (0 <? l))%bool; [|exact Hx].
  eapply slice0_In; exact Hx.
Qed.

Lemma arr_includes_In (l : list string) (x : string) :
  arr_includes l x = true <-> In x l.
Proof.
  unfold arr_includes. rewrite existsb_exists. split.
  - intros [y [Hy He]]. apply String.eqb_eq in He. now subst.
  - intros H. exists x. split; [assumption|apply String.eqb_refl].
Qed.

Lemma matchTags_has_tag (e : MemoryEntry) (T : list string) :
  matchTags e T = true -> forall tag, In tag T -> has_tag e tag.
Proof.
  unfold matchTags, has_tag.
  destruct (Memory.tags (metadata e)) as [ts|]; [|discriminate].
  rewrite forallb_forall.
  intros H tag Ht. exists ts. split; [reflexivity|].
  apply arr_includes_In, H, Ht.
Qed.

(** With no text query the predicate of the filter does not throw. *)
Lemma matchesOptions_no_query (options : SearchOptions) (e : MemoryEntry) :
  query options = None ->
  matchesOptions options e =
  Ok (true
      && matchTimeframe e (timeframe options)
      && match successOnly options with
         | None => true
         | Some b => Bool.eqb (success (metadata e)) b
         end
      && match tags options with
         | None => true
         | Some ts => Nat.eqb (List.length ts) 0 || matchTags e ts
         end
      && matchDuration e (minDuration options) (maxDuration options))%bool.
Proof.
  intros Hq. unfold matchesOptions. rewrite Hq. reflexivity.
Qed.

(** *** C2 *)

(** In the scenario of the specification both calls of [recordTask]
    succeed, and the facade holds the two entries. *)
Example scenario_recorded :
  fst (fst after_second) = Ok "task_2000_z8y7w6v5u" /\
  map task (EnhancedMemorySystem.entries scenario)
  = ["Create file test.txt"; "Deploy build"] /\
  map (fun e => success (metadata e)) (EnhancedMemorySystem.entries scenario)
  = [true; false].
Proof. vm_compute. repeat split. Qed.

(** C2, counterexample.  After recording the successful task
    "Create file test.txt" and the failed task "Deploy build",
    [search({successOnly: false})] returns the failed entry alone, not
    both entries. *)
Lemma successOnly_false_excludes_successful :
  map task
    (entries (EnhancedMemorySystem.search scenario
                (with_successOnly (Some false)) 0 1))
  = ["Deploy build"].
Proof. vm_compute. reflexivity. Qed.

(** C2, as amended.  [successOnly] is an exact match on
    [metadata.success]: with [successOnly: b] the search returns exactly
    the entries of the working set whose [success] flag equals [b], in
    their order (so [false] selects the failed entries and [true] the
    successful ones); only when [successOnly] is left out are the entries
    of both kinds returned. *)
Theorem search_successOnly_exact_match :
  forall (self : MemorySearchEngine.t) (t0 t1 : Z),
    (forall b : bool,
        entries (search self (with_successOnly (Some b)) t0 t1)
        = filter (fun e => Bool.eqb (success (metadata e)) b)
                 (memoryEntries self)) /\
    entries (search self (with_successOnly None) t0 t1) = memoryEntries self.
Proof.
  intros self t0 t1. split.
  - intros b. unfold search, search_try.
    rewrite (filterM_pure _ (fun e => Bool.eqb (success (metadata e)) b)).
    + reflexivity.
    + intros e _. rewrite matchesOptions_no_query by reflexivity.
      unfold matchDuration, matchTimeframe. simpl.
      now rewrite !andb_true_r.
  - unfold search, search_try.
    rewrite (filterM_pure _ (fun _ => true)).
    + simpl. f_equal.
      induction (memoryEntries self) as [|x l IH]; simpl; congruence.
    + intros e _. rewrite matchesOptions_no_query by reflexivity.
      reflexivity.
Qed.

(** The three searches of the scenario. *)
Example scenario_searches :
  map task (entries (EnhancedMemorySystem.search scenario
                       (with_successOnly (Some true)) 0 1))
  = ["Create file test.txt"] /\
  map task (entries (EnhancedMemorySystem.search scenario no_options 0 1))
  = ["Create file test.txt"; "Deploy build"] /\
  map task (entries (EnhancedMemorySystem.search scenario
                       (with_query "create") 0 1))
  = ["Create file test.txt"].
Proof. vm_compute. repeat split. Qed.

(** *** C6 *)

Lemma search_entries_carry_all_tags self options T t0 t1 (e : MemoryEntry) :
  tags options = Some T ->
  T <> [] ->
  In e (entries (search self options t0 t1)) ->
  forall tag, In tag T -> has_tag e tag.
Proof.
  intros HT Hne He.
  destruct (search_entries_In _ _ _ _ _ He) as [_ Hm].
  unfold matchesOptions in Hm.
  destruct (if falsy_string (query options) then Ok true
            else match query options with
                 | Some q => matchesTextQuery e q
                 | None => Ok true
                 end) as [textMatch|err]; simpl in Hm; [|discriminate].
  rewrite HT in Hm.
  inversion Hm as [Hb]; clear Hm.
  repeat rewrite andb_true_iff in Hb.
  destruct Hb as [[[_ _] Htag] _].
  apply orb_true_iff in Htag.
  destruct Htag as [Hlen|Hmatch].
  - apply Nat.eqb_eq in Hlen. destruct T; [congruence|discriminate].
  - now apply matchTags_has_tag.
Qed.

(** C6.  Tag filtering in [search] has AND semantics: when the options
    carry a non-empty tag list [T], every entry that the engine returns
    carries every tag of [T], an entry that lacks one of the tags of [T]
    is not returned, and the same holds of the [search] of the facade,
    which hands the options to the engine. *)
Theorem search_tags_and_semantics :
  forall (self : MemorySearchEngine.t) (options : SearchOptions)
         (T : list string) (t0 t1 : Z),
    tags options = Some T ->
    T <> [] ->
    (forall e, In e (entries (search self options t0 t1)) ->
               forall tag, In tag T -> has_tag e tag) /\
    (forall e tag, In tag T -> ~ has_tag e tag ->
                   ~ In e (entries (search self options t0 t1))) /\
    (forall (facade : EnhancedMemorySystem.t) e,
        In e (entries (EnhancedMemorySystem.search facade options t0 t1)) ->
        forall tag, In tag T -> has_tag e tag).
Proof.
  intros self options T t0 t1 HT Hne.
  split; [|split].
  - intros e He. now apply (search_entries_carry_all_tags self options T t0 t1).
  - intros e tag Htag Hno He. apply Hno.
    now apply (search_entries_carry_all_tags self options T t0 t1 e).
  - intros facade e He. unfold EnhancedMemorySystem.search in He.
    destruct (negb (EnhancedMemorySystem.isInitialized facade)).
    + simpl in He. contradiction.
    + now apply (search_entries_carry_all_tags
                   (EnhancedMemorySystem.searchEngine facade) options T t0 t1).
Qed.

Lemma search_tags_and_semantics_witness :
  (forall e,
      In e (entries (search (new [created; deploy]) (with_tags ["a"; "b"])
                            0 1)) ->
      forall tag, In tag ["a"; "b"] -> has_tag e tag) /\
  entries (search (new [created; deploy]) (with_tags ["a"; "b"]) 0 1)
  = [created].
Proof.
  split.
  - apply (search_tags_and_semantics (new [created; deploy])
             (with_tags ["a"; "b"]) ["a"; "b"] 0 1).
    + reflexivity.
    + discriminate.
  - reflexivity.
Defined.

(** The synchronous facade filters differently: [searchTasks] keeps an
    entry as soon as it carries one of the listed tags. *)
Example searchTasks_keeps_any_tag :
  match TRINITIMemorySystem.searchTasks
          {| TRINITIMemorySystem.storage :=
               [("task_1", created); ("task_2", deploy)];
             TRINITIMemorySystem.MAX_ENTRIES := 1000 |}
          ""
          (Some {| TRINITIMemorySystem.so_limit := None;
                   TRINITIMemorySystem.so_includeErrors := None;
                   TRINITIMemorySystem.so_tags := Some ["a"; "b"];
                   TRINITIMemorySystem.so_dateRange := None |}) with
  | Ok found => map id found = ["task_2"; "task_1"]
  | Throw _ => False
  end.
Proof. vm_compute. reflexivity. Qed.

(** *** C9 *)

(** C9.  [search] returns a result for every working set and every
    options value, and never an exception: when a step of the [try] block
    fails, the result has no entries, [totalCount = 0] and the elapsed
    time measured in the handler. *)
Theorem search_degrades_on_failure :
  forall (self : MemorySearchEngine.t) (options : SearchOptions)
         (t0 t1 : Z) (err : JS.error),
    search_try self options t0 t1 = Throw err ->
    entries (search self options t0 t1) = [] /\
    totalCount (search self options t0 t1) = 0%nat /\
    searchTime (search self options t0 t1) = t1 - t0 /\
    suggestions (search self options t0 t1) = None.
Proof.
  intros self options t0 t1 err Hfail.
  unfold search. rewrite Hfail. simpl. repeat split.
Qed.

Lemma search_degrades_on_failure_witness :
  entries (search (new [created; opaque]) (with_query "ledger") 5 9) = [] /\
  totalCount (search (new [created; opaque]) (with_query "ledger") 5 9) = 0%nat /\
  searchTime (search (new [created; opaque]) (with_query "ledger") 5 9) = 4 /\
  suggestions (search (new [created; opaque]) (with_query "ledger") 5 9) = None.
Proof.
  apply (search_degrades_on_failure (new [created; opaque])
           (with_query "ledger") 5 9
           (TypeError "Do not know how to serialize a BigInt")).
  vm_compute. reflexivity.
Defined.

(** When no step fails, [search] returns what the [try] block built. *)
Lemma search_on_success self options t0 t1 r :
  search_try self options t0 t1 = Ok r -> search self options t0 t1 = r.
Proof. intros H. unfold search. now rewrite H. Qed.

(** *** C10 *)

(** C10.  [totalCount] is the length of the returned [entries], counted
    after the truncation to [limit]: with a positive [limit] below the
    number of entries that passed the filters, [totalCount] is [limit]. *)
Theorem search_totalCount_is_length :
  forall (self : MemorySearchEngine.t) (options : SearchOptions)
         (t0 t1 : Z),
    totalCount (search self options t0 t1)
    = List.length (entries (search self options t0 t1)) /\
    (forall (l : Z) (matched : list MemoryEntry),
        limit options = Some l ->
        filterM (matchesOptions options) (memoryEntries self) = Ok matched ->
        0 < l < Z.of_nat (List.length matched) ->
        Z.of_nat (totalCount (search self options t0 t1)) = l).
Proof.
  intros self options t0 t1. split.
  - unfold search, search_try.
    destruct (filterM (matchesOptions options) (memoryEntries self));
      reflexivity.
  - intros l matched Hl Hm Hrange.
    unfold search, search_try. rewrite Hm, Hl. simpl.
    destruct (Z.eqb_spec l 0) as [Hz|_]; [lia|].
    destruct (Z.ltb_spec 0 l) as [_|Hle]; [|lia].
    simpl. rewrite slice0_length by lia.
    rewrite sortResults_length. lia.
Qed.

Lemma search_totalCount_is_length_witness :
  Z.of_nat (totalCount (search (new [created; deploy]) (with_limit 1) 0 1))
  = 1.
Proof.
  apply (proj2 (search_totalCount_is_length (new [created; deploy])
                  (with_limit 1) 0 1) 1 [created; deploy]).
  - reflexivity.
  - reflexivity.
  - simpl. lia.
Defined.

(** *** C3 *)

Lemma by_relevance_desc_sign (y key : MemoryEntry) :
  positive (by_relevance "desc" y key) = negb (success (metadata key)).
Proof.
  unfold by_relevance, compareEntries. simpl.
  now destruct (success (metadata key)).
Qed.

Lemma relevance_desc_insert_successful (key : MemoryEntry) racc :
  success (metadata key) = true ->
  sort_insert (by_relevance "desc") key racc = key :: racc.
Proof.
  intros Hk. destruct racc as [|y r]; simpl; [reflexivity|].
  now rewrite by_relevance_desc_sign, Hk.
Qed.

Lemma relevance_desc_insert_failed (key : MemoryEntry) racc :
  success (metadata key) = false ->
  sort_insert (by_relevance "desc") key racc = (racc ++ [key])%list.
Proof.
  intros Hk. induction racc as [|y r IH]; simpl; [reflexivity|].
  rewrite by_relevance_desc_sign, Hk. simpl. now rewrite IH.
Qed.

Lemma relevance_desc_fold (l S F : list MemoryEntry) :
  fold_left (fun racc key => sort_insert (by_relevance "desc") key racc) l
            (rev S ++ F)%list
  = (rev (S ++ filter (fun e => success (metadata e)) l)
     ++ (F ++ filter (fun e => negb (success (metadata e))) l))%list.
Proof.
  revert S F.
  induction l as [|x l IH]; intros S F; simpl.
  - now rewrite !app_nil_r.
  - destruct (success (metadata x)) eqn:Hx; simpl.
    + rewrite relevance_desc_insert_successful by assumption.
      replace (x :: rev S ++ F)%list with (rev (S ++ [x]) ++ F)%list
        by (rewrite rev_app_distr; reflexivity).
      rewrite IH. now rewrite <- app_assoc.
    + rewrite relevance_desc_insert_failed by assumption.
      rewrite <- app_assoc. rewrite IH. now rewrite <- app_assoc.
Qed.

(** With the insertion sort above, sorting by relevance in descending
    order (the default) moves every failed entry in front of every
    successful one. *)
Lemma sortResults_relevance_desc (l : list MemoryEntry) :
  sortResults l (Some "relevance") None
  = (rev (filter (fun e => negb (success (metadata e))) l)
     ++ filter (fun e => success (metadata e)) l)%list.
Proof.
  unfold sortResults. simpl. unfold JS.sort.
  change (fun a b : MemoryEntry => inject_Z (compareEntries "relevance" "desc" a b))
    with (by_relevance "desc").
  change (@nil MemoryEntry) with (rev (@nil MemoryEntry) ++ [])%list at 1.
  rewrite relevance_desc_fold. simpl.
  rewrite rev_app_distr. now rewrite rev_involutive.
Qed.

(** C3, at the failing input.  The working set holds the successful entry
    "Create file test.txt" and the failed entry "Deploy build"; sorted by
    relevance with the default order, the failed entry comes first,
    whichever of the two comes first in the working set; only the
    ascending order puts the successful entry first.  The comparison
    function itself orders the failed entry first, in both directions in
    which a sort can call it: positive on (successful, failed), negative
    on (failed, successful). *)
Theorem relevance_default_order_puts_failed_first :
  map task
    (entries (search (new [created; deploy])
                     (with_sortBy "relevance" None) 0 1))
  = ["Deploy build"; "Create file test.txt"] /\
  map task
    (entries (search (new [deploy; created])
                     (with_sortBy "relevance" (Some "desc")) 0 1))
  = ["Deploy build"; "Create file test.txt"] /\
  map task
    (entries (search (new [created; deploy])
                     (with_sortBy "relevance" (Some "asc")) 0 1))
  = ["Create file test.txt"; "Deploy build"] /\
  compareEntries "relevance" "desc" created deploy = 1 /\
  compareEntries "relevance" "desc" deploy created = -1.
Proof. vm_compute. repeat split. Qed.

(** ** Similarity *)

(** *** The table of [levenshteinDistance] *)

Lemma array_set_length {A} (l : list A) (i : nat) (x : A) :
  List.length (array_set l i x) = List.length l.
Proof.
  revert i. induction l as [|y l IH]; intros [|i]; simpl; auto.
Qed.

Lemma array_set_nth_same {A} (l : list A) (i : nat) (x d : A) :
  (i < List.length l)%nat -> nth i (array_set l i x) d = x.
Proof.
  revert i. induction l as [|y l IH]; intros [|i] Hi; simpl in *;
    try lia; auto.
  apply IH. lia.
Qed.

Lemma array_set_nth_other {A} (l : list A) (i j : nat) (x d : A) :
  i <> j -> nth j (array_set l i x) d = nth j l d.
Proof.
  revert i j. induction l as [|y l IH]; intros [|i] [|j] Hij; simpl;
    try congruence; auto.
Qed.

Lemma array_set_Forall {A} (P : A -> Prop) (l : list A) (i : nat) (x : A) :
  Forall P l -> P x -> Forall P (array_set l i x).
Proof.
  intros Hl Hx. revert i.
  induction Hl as [|y l Hy Hl IH]; intros [|i]; simpl; auto.
Qed.

Lemma table_row rows cols dp i :
  table rows cols dp -> (i < rows)%nat -> List.length (nth i dp []) = cols.
Proof.
  intros [Hlen Hall] Hi.
  rewrite Forall_forall in Hall. apply Hall, nth_In. lia.
Qed.

Lemma dp_set_table rows cols dp i j x :
  table rows cols dp -> (i < rows)%nat -> table rows cols (dp_set dp i j x).
Proof.
  intros Ht Hi. pose proof (table_row _ _ _ _ Ht Hi) as Hrow.
  destruct Ht as [Hlen Hall]. unfold dp_set. split.
  - now rewrite array_set_length.
  - apply array_set_Forall; [assumption|].
    now rewrite array_set_length.
Qed.

Lemma dp_get_set_same rows cols dp i j x :
  table rows cols dp -> (i < rows)%nat -> (j < cols)%nat ->
  dp_get (dp_set dp i j x) i j = x.
Proof.
  intros Ht Hi Hj. pose proof (table_row _ _ _ _ Ht Hi) as Hrow.
  destruct Ht as [Hlen _]. unfold dp_get, dp_set.
  rewrite array_set_nth_same by lia.
  apply array_set_nth_same. lia.
Qed.

Lemma dp_get_set_other rows cols dp i j x a b :
  table rows cols dp -> (i < rows)%nat -> (a <> i \/ b <> j) ->
  dp_get (dp_set dp i j x) a b = dp_get dp a b.
Proof.
  intros Ht Hi Hne. destruct Ht as [Hlen _]. unfold dp_get, dp_set.
  destruct (Nat.eq_dec a i) as [->|Hai].
  - rewrite array_set_nth_same by lia.
    apply array_set_nth_other. destruct Hne; congruence.
  - rewrite array_set_nth_other by congruence. reflexivity.
Qed.

(** A [for] loop over [a, a+1, ..., a+n-1] keeps an invariant indexed by
    the loop variable. *)
Lemma for_loop_invariant {S} (body : S -> nat -> S) (P : nat -> S -> Prop)
    (n a : nat) (s : S) :
  P a s ->
  (forall k st, (a <= k < a + n)%nat -> P k st -> P (Datatypes.S k) (body st k)) ->
  P (a + n)%nat (fold_left body (seq a n) s).
Proof.
  revert a s.
  induction n as [|n IH]; intros a s Hs Hstep; simpl.
  - now rewrite Nat.add_0_r.
  - rewrite <- Nat.add_succ_comm.
    apply IH.
    + apply Hstep; [lia|assumption].
    + intros k st Hk. apply Hstep. lia.
Qed.

Section Table.

Variables s1 s2 : string.
Local Abbreviation m := (String.length s1).
Local Abbreviation n := (String.length s2).
Local Abbreviation L := (prefix_distance s1 s2).
Local Abbreviation initialised := (Spec.initialised s1 s2).
Local Abbreviation rows_done := (Spec.rows_done s1 s2).
Local Abbreviation cells_done := (Spec.cells_done s1 s2).

Lemma L_zero_row j : L 0 j = j.
Proof. reflexivity. Qed.

Lemma L_zero_col i : L i 0 = i.
Proof. destruct i; reflexivity. Qed.

Lemma L_step i j :
  L (S i) (S j)
  = min3 (L i (S j) + 1) (L (S i) j + 1)
         (L i j + (if same_char s1 i s2 j then O else 1%nat)).
Proof. reflexivity. Qed.

Lemma initial_table :
  initialised
    (fold_left (fun dp j => dp_set dp 0 j j) (seq 0 (n + 1))
       (fold_left (fun dp i => dp_set dp i 0 i) (seq 0 (m + 1))
          (repeat (repeat O (n + 1)) (m + 1)))).
Proof.
  assert (H0 : table (S m) (S n) (repeat (repeat O (n + 1)) (m + 1))).
  { split.
    - rewrite repeat_length. lia.
    - apply Forall_forall. intros r Hr. apply repeat_spec in Hr. subst.
      rewrite repeat_length. lia. }
  pose proof
    (for_loop_invariant (fun dp i => dp_set dp i 0 i)
       (fun k dp => table (S m) (S n) dp /\
                    forall a, (a < k)%nat -> dp_get dp a 0 = a)
       (m + 1) 0 _ (conj H0 (fun a (Ha : (a < 0)%nat) =>
                               match Nat.nlt_0_r a Ha with end))) as H1.
  simpl in H1.
  assert (H1' : table (S m) (S n)
                  (fold_left (fun dp i => dp_set dp i 0 i) (seq 0 (m + 1))
                     (repeat (repeat O (n + 1)) (m + 1))) /\
                forall a, (a < m + 1)%nat ->
                  dp_get (fold_left (fun dp i => dp_set dp i 0 i)
                            (seq 0 (m + 1))
                            (repeat (repeat O (n + 1)) (m + 1))) a 0 = a).
  { apply H1. intros k st Hk [Ht Hcol]. split.
    - apply dp_set_table; [assumption|lia].
    - intros a Ha. destruct (Nat.eq_dec a k) as [->|Hak].
      + eapply dp_get_set_same; [eassumption|lia|lia].
      + erewrite dp_get_set_other; [|eassumption|lia|now left].
        apply Hcol. lia. }
  clear H1. destruct H1' as [Ht1 Hcol1].
  set (dp1 := fold_left (fun dp i => dp_set dp i 0 i) (seq 0 (m + 1))
                (repeat (repeat O (n + 1)) (m + 1))) in *.
  pose proof
    (for_loop_invariant (fun dp j => dp_set dp 0 j j)
       (fun k dp => table (S m) (S n) dp /\
                    (forall a, (a <= m)%nat -> dp_get dp a 0 = a) /\
                    forall b, (b < k)%nat -> dp_get dp 0 b = b)
       (n + 1) 0 dp1) as H2.
  simpl in H2.
  assert (H2' : table (S m) (S n)
                  (fold_left (fun dp j => dp_set dp 0 j j) (seq 0 (n + 1)) dp1)
                /\ (forall a, (a <= m)%nat ->
                      dp_get (fold_left (fun dp j => dp_set dp 0 j j)
                                (seq 0 (n + 1)) dp1) a 0 = a)
                /\ forall b, (b < n + 1)%nat ->
                      dp_get (fold_left (fun dp j => dp_set dp 0 j j)
                                (seq 0 (n + 1)) dp1) 0 b = b).
  { apply H2.
    - split; [assumption|]. split.
      + intros a Ha. apply Hcol1. lia.
      + intros b Hb. lia.
    - intros k st Hk [Ht [Hcol Hrow]]. split; [|split].
      + apply dp_set_table; [assumption|lia].
      + intros a Ha.
        destruct (Nat.eq_dec a 0) as [->|Ha0];
          [destruct (Nat.eq_dec k 0) as [->|Hk0]|].
        * eapply dp_get_set_same; [eassumption|lia|lia].
        * erewrite dp_get_set_other; [|eassumption|lia|right; lia].
          apply Hcol. lia.
        * erewrite dp_get_set_other; [|eassumption|lia|left; lia].
          now apply Hcol.
      + intros b Hb. destruct (Nat.eq_dec b k) as [->|Hbk].
        * eapply dp_get_set_same; [eassumption|lia|lia].
        * erewrite dp_get_set_other; [|eassumption|lia|now right].
          apply Hrow. lia. }
  destruct H2' as [Ht2 [Hcol2 Hrow2]].
  split; [assumption|]. split; [assumption|].
  intros b Hb. apply Hrow2. lia.
Qed.

Lemma dp_step_cells i j dp :
  (1 <= i <= m)%nat -> (1 <= j <= n)%nat ->
  cells_done i j dp -> cells_done i (S j) (dp_step s1 s2 dp i j).
Proof.
  intros Hi Hj [[Ht [Hcol Hrows]] Hcells].
  unfold dp_step.
  set (v := min3 _ _ _).
  assert (Hv : v = L i j).
  { subst v.
    destruct i as [|i']; [lia|]. destruct j as [|j']; [lia|].
    rewrite L_step. simpl Nat.sub. rewrite !Nat.sub_0_r.
    rewrite (Hrows i' (S j')) by lia.
    rewrite (Hcells j') by lia.
    rewrite (Hrows i' j') by lia.
    reflexivity. }
  split; [split; [|split]|].
  - apply dp_set_table; [assumption|lia].
  - intros a Ha.
    erewrite dp_get_set_other; [|eassumption|lia|right; lia].
    now apply Hcol.
  - intros a b Ha Ham Hb.
    erewrite dp_get_set_other; [|eassumption|lia|left; lia].
    now apply Hrows.
  - intros b Hb Hbn. destruct (Nat.eq_dec b j) as [->|Hbj].
    + erewrite dp_get_set_same; [|eassumption|lia|lia]. exact Hv.
    + erewrite dp_get_set_other; [|eassumption|lia|now right].
      apply Hcells; lia.
Qed.

Lemma inner_loop_row i dp :
  (1 <= i <= m)%nat ->
  rows_done i dp ->
  rows_done (S i)
    (fold_left (fun dp j => dp_step s1 s2 dp i j) (seq 1 n) dp).
Proof.
  intros Hi Hdone.
  assert (Hend : cells_done i (1 + n)
                   (fold_left (fun dp j => dp_step s1 s2 dp i j) (seq 1 n) dp)).
  { apply (for_loop_invariant (fun dp j => dp_step s1 s2 dp i j)
             (fun j dp => cells_done i j dp)).
    - split; [assumption|].
      intros b Hb _. assert (b = O) by lia. subst b.
      destruct Hdone as [_ [Hcol _]]. apply Hcol. lia.
    - intros k st Hk Hc. apply dp_step_cells; [lia|lia|assumption]. }
  destruct Hend as [[Ht [Hcol Hrows]] Hcells].
  split; [assumption|]. split; [assumption|].
  intros a b Ha Ham Hb.
  destruct (Nat.eq_dec a i) as [->|Hai].
  - apply Hcells; lia.
  - apply Hrows; lia.
Qed.

(** The table loops compute the classic distance. *)
Lemma levenshteinDistance_table : levenshteinDistance s1 s2 = L m n.
Proof.
  unfold levenshteinDistance.
  destruct initial_table as [Ht [Hcol Hrow]].
  set (dp2 := fold_left (fun dp j => dp_set dp 0 j j) (seq 0 (n + 1)) _) in *.
  assert (Hstart : rows_done 1 dp2).
  { split; [assumption|]. split.
    - intros a Ha. rewrite L_zero_col. now apply Hcol.
    - intros a b Ha _ Hb. assert (a = O) by lia. subst a.
      rewrite L_zero_row. now apply Hrow. }
  assert (Hend : rows_done (1 + m)
            (fold_left
               (fun dp i =>
                  fold_left (fun dp j => dp_step s1 s2 dp i j) (seq 1 n) dp)
               (seq 1 m) dp2)).
  { apply (for_loop_invariant
             (fun dp i =>
                fold_left (fun dp j => dp_step s1 s2 dp i j) (seq 1 n) dp)
             (fun i dp => rows_done i dp)); [assumption|].
    intros k st Hk Hdone. apply inner_loop_row; [lia|assumption]. }
  destruct Hend as [_ [_ Hrows]].
  apply Hrows; lia.
Qed.

End Table.

Theorem levenshteinDistance_correct (s1 s2 : string) :
  levenshteinDistance s1 s2 = levenshtein s1 s2.
Proof. apply levenshteinDistance_table. Qed.

Lemma same_char_refl (s : string) (i : nat) : same_char s i s i = true.
Proof.
  unfold same_char. destruct (String.get i s); [apply Ascii.eqb_refl|reflexivity].
Qed.

Lemma prefix_distance_diagonal (s : string) (i : nat) :
  prefix_distance s s i i = O.
Proof.
  induction i as [|i IH]; [reflexivity|].
  rewrite L_step, same_char_refl, IH. unfold min3. lia.
Qed.

Lemma levenshtein_refl (s : string) : levenshtein s s = O.
Proof. apply prefix_distance_diagonal. Qed.

(** The distance is at most the length of the longer text. *)
Lemma prefix_distance_bound (s1 s2 : string) (i j : nat) :
  (prefix_distance s1 s2 i j <= Nat.max i j)%nat.
Proof.
  revert j. induction i as [|i IH]; intros j; [simpl; lia|].
  induction j as [|j IHj]; [rewrite L_zero_col; lia|].
  rewrite L_step. specialize (IH j). unfold min3.
  destruct (same_char s1 i s2 j); lia.
Qed.

(** The recurrence is symmetric, bounded below by the difference of the
    lengths, and zero only on equal texts: it is a distance. *)
Lemma same_char_sym (s1 s2 : string) (i j : nat) :
  same_char s1 i s2 j = same_char s2 j s1 i.
Proof.
  unfold same_char.
  destruct (String.get i s1), (String.get j s2); try reflexivity.
  apply Ascii.eqb_sym.
Qed.

Lemma prefix_distance_sym (s1 s2 : string) (i j : nat) :
  prefix_distance s1 s2 i j = prefix_distance s2 s1 j i.
Proof.
  revert j. induction i as [|i IH]; intros j.
  - rewrite L_zero_row, L_zero_col. reflexivity.
  - induction j as [|j IHj].
    + rewrite L_zero_row, L_zero_col. reflexivity.
    + rewrite !L_step, IHj, (IH (S j)), (IH j), (same_char_sym s1 s2).
      unfold min3. lia.
Qed.

Lemma levenshtein_sym (s1 s2 : string) : levenshtein s1 s2 = levenshtein s2 s1.
Proof. apply prefix_distance_sym. Qed.

Lemma prefix_distance_lower_bound (s1 s2 : string) (i j : nat) :
  (i - j <= prefix_distance s1 s2 i j)%nat /\
  (j - i <= prefix_distance s1 s2 i j)%nat.
Proof.
  revert j. induction i as [|i IH]; intros j.
  - rewrite L_zero_row. lia.
  - induction j as [|j IHj].
    + rewrite L_zero_col. lia.
    + rewrite L_step.
      destruct (IH (S j)) as [H1 H2]. destruct (IH j) as [H3 H4].
      destruct IHj as [H5 H6]. unfold min3.
      destruct (same_char s1 i s2 j); lia.
Qed.

Lemma prefix_distance_zero (s1 s2 : string) (i j : nat) :
  prefix_distance s1 s2 i j = O ->
  i = j /\ forall k, (k < i)%nat -> same_char s1 k s2 k = true.
Proof.
  revert j. induction i as [|i IH]; intros j.
  - rewrite L_zero_row. intros ->. split; [reflexivity|]. intros k Hk. lia.
  - destruct j as [|j].
    + rewrite L_zero_col. discriminate.
    + rewrite L_step. unfold min3. intros H.
      destruct (same_char s1 i s2 j) eqn:Hc; [|lia].
      assert (H0 : prefix_distance s1 s2 i j = O) by lia.
      destruct (IH j H0) as [-> Hk]. split; [reflexivity|].
      intros k Hlt. destruct (Nat.eq_dec k j) as [->|Hne]; [assumption|].
      apply Hk. lia.
Qed.

Lemma same_chars_equal (s t : string) :
  String.length s = String.length t ->
  (forall k, (k < String.length s)%nat -> same_char s k t k = true) ->
  s = t.
Proof.
  revert t. induction s as [|a s IH]; intros [|b t] Hlen Hall;
    simpl in Hlen; try discriminate; [reflexivity|].
  f_equal.
  - specialize (Hall O). unfold same_char in Hall. simpl in Hall.
    apply Ascii.eqb_eq, Hall. lia.
  - apply IH; [congruence|].
    intros k Hk. specialize (Hall (S k)). unfold same_char in *.
    simpl in Hall. apply Hall. lia.
Qed.

Lemma levenshtein_zero_iff (s t : string) : levenshtein s t = O <-> s = t.
Proof.
  split.
  - unfold levenshtein. intros H.
    destruct (prefix_distance_zero _ _ _ _ H) as [Hlen Hall].
    now apply same_chars_equal.
  - intros ->. apply levenshtein_refl.
Qed.

(** *** The recurrence counts the least number of edits *)

Lemma edits_snoc_delete a s t n :
  edits s t n -> edits (s ++ [a]) t (S n).
Proof.
  induction 1; simpl.
  - apply edits_delete, edits_nil.
  - now apply edits_delete.
  - now apply edits_insert.
  - now apply edits_keep.
  - now apply edits_replace.
Qed.

Lemma edits_snoc_insert b s t n :
  edits s t n -> edits s (t ++ [b]) (S n).
Proof.
  induction 1; simpl.
  - apply edits_insert, edits_nil.
  - now apply edits_delete.
  - now apply edits_insert.
  - now apply edits_keep.
  - now apply edits_replace.
Qed.

Lemma edits_snoc_keep a s t n :
  edits s t n -> edits (s ++ [a]) (t ++ [a]) n.
Proof.
  induction 1; simpl.
  - apply edits_keep, edits_nil.
  - now apply edits_delete.
  - now apply edits_insert.
  - now apply edits_keep.
  - now apply edits_replace.
Qed.

Lemma edits_snoc_replace a b s t n :
  edits s t n -> edits (s ++ [a]) (t ++ [b]) (S n).
Proof.
  induction 1; simpl.
  - apply edits_replace, edits_nil.
  - now apply edits_delete.
  - now apply edits_insert.
  - now apply edits_keep.
  - now apply edits_replace.
Qed.

Lemma edits_rev s t n : edits s t n -> edits (rev s) (rev t) n.
Proof.
  induction 1; simpl.
  - apply edits_nil.
  - now apply edits_snoc_delete.
  - now apply edits_snoc_insert.
  - now apply edits_snoc_keep.
  - now apply edits_snoc_replace.
Qed.

Lemma get_chars (s : string) (i : nat) :
  String.get i s = nth_error (chars s) i.
Proof.
  revert i. induction s as [|c s IH]; intros [|i]; simpl; auto.
Qed.

Lemma chars_length (s : string) : List.length (chars s) = String.length s.
Proof. induction s as [|c s IH]; simpl; congruence. Qed.

Lemma firstn_snoc {A} (l : list A) (i : nat) (x : A) :
  nth_error l i = Some x -> firstn (S i) l = (firstn i l ++ [x])%list.
Proof.
  revert i. induction l as [|y l IH]; intros [|i] H; simpl in *;
    try discriminate.
  - now inversion H.
  - f_equal. now apply IH.
Qed.

Lemma rprefix_S (s : string) (i : nat) (c : ascii) :
  String.get i s = Some c -> rprefix s (S i) = c :: rprefix s i.
Proof.
  intros H. unfold rprefix. rewrite get_chars in H.
  rewrite (firstn_snoc _ _ _ H), rev_app_distr. reflexivity.
Qed.

Lemma get_in_range (s : string) (i : nat) :
  (i < String.length s)%nat -> exists c, String.get i s = Some c.
Proof.
  intros H. rewrite get_chars.
  destruct (nth_error (chars s) i) as [c|] eqn:Hn; [eauto|].
  apply nth_error_None in Hn. rewrite chars_length in Hn. lia.
Qed.

Lemma rprefix_length (s : string) (i : nat) :
  (i <= String.length s)%nat -> List.length (rprefix s i) = i.
Proof.
  intros H. unfold rprefix.
  rewrite length_rev, length_firstn, chars_length. lia.
Qed.

Lemma prefix_distance_delete (s1 s2 : string) (i j : nat) :
  (prefix_distance s1 s2 (S i) j <= S (prefix_distance s1 s2 i j))%nat.
Proof.
  destruct j as [|j].
  - rewrite !L_zero_col. lia.
  - rewrite L_step. unfold min3. lia.
Qed.

Lemma prefix_distance_insert (s1 s2 : string) (i j : nat) :
  (prefix_distance s1 s2 i (S j) <= S (prefix_distance s1 s2 i j))%nat.
Proof.
  rewrite (prefix_distance_sym s1 s2 i (S j)), (prefix_distance_sym s1 s2 i j).
  apply prefix_distance_delete.
Qed.

Lemma prefix_distance_replace (s1 s2 : string) (i j : nat) :
  (prefix_distance s1 s2 (S i) (S j) <= S (prefix_distance s1 s2 i j))%nat.
Proof.
  rewrite L_step. unfold min3. destruct (same_char s1 i s2 j); lia.
Qed.

Lemma prefix_distance_keep (s1 s2 : string) (i j : nat) (c : ascii) :
  String.get i s1 = Some c -> String.get j s2 = Some c ->
  (prefix_distance s1 s2 (S i) (S j) <= prefix_distance s1 s2 i j)%nat.
Proof.
  intros H1 H2. rewrite L_step. unfold min3, same_char.
  rewrite H1, H2, Ascii.eqb_refl. lia.
Qed.

(** The recurrence is reached by a sequence of edits. *)
Lemma prefix_distance_edits (s1 s2 : string) (i j : nat) :
  (i <= String.length s1)%nat -> (j <= String.length s2)%nat ->
  edits (rprefix s1 i) (rprefix s2 j) (prefix_distance s1 s2 i j).
Proof.
  revert j. induction i as [|i IH]; intros j Hi Hj.
  - rewrite L_zero_row. clear Hi.
    induction j as [|j IHj]; [apply edits_nil|].
    destruct (get_in_range s2 j) as [d Hd]; [lia|].
    rewrite (rprefix_S _ _ _ Hd). apply edits_insert. apply IHj. lia.
  - destruct (get_in_range s1 i) as [c Hc]; [lia|].
    induction j as [|j IHj].
    + rewrite L_zero_col, (rprefix_S _ _ _ Hc).
      apply edits_delete.
      specialize (IH O). rewrite L_zero_col in IH. apply IH; lia.
    + destruct (get_in_range s2 j) as [d Hd]; [lia|].
      rewrite L_step. unfold min3.
      destruct (Nat.min_spec (prefix_distance s1 s2 i (S j) + 1)
                             (prefix_distance s1 s2 (S i) j + 1))
        as [[_ Hm1]|[_ Hm1]]; rewrite Hm1;
        match goal with
        | |- context [Nat.min ?a ?b] =>
            destruct (Nat.min_spec a b) as [[_ Hm2]|[_ Hm2]]; rewrite Hm2
        end.
      * rewrite Nat.add_1_r, (rprefix_S s1 _ _ Hc).
        apply edits_delete. apply IH; lia.
      * unfold same_char. rewrite Hc, Hd.
        rewrite (rprefix_S s1 _ _ Hc), (rprefix_S s2 _ _ Hd).
        destruct (Ascii.eqb_spec c d) as [->|Hne].
        -- rewrite Nat.add_0_r. apply edits_keep. apply IH; lia.
        -- rewrite Nat.add_1_r. apply edits_replace. apply IH; lia.
      * rewrite Nat.add_1_r, (rprefix_S s2 _ _ Hd).
        apply edits_insert. apply IHj. lia.
      * unfold same_char. rewrite Hc, Hd.
        rewrite (rprefix_S s1 _ _ Hc), (rprefix_S s2 _ _ Hd).
        destruct (Ascii.eqb_spec c d) as [->|Hne].
        -- rewrite Nat.add_0_r. apply edits_keep. apply IH; lia.
        -- rewrite Nat.add_1_r. apply edits_replace. apply IH; lia.
Qed.

(** No sequence of edits is shorter. *)
Lemma prefix_distance_least (s1 s2 : string) (s t : list ascii) (k : nat) :
  edits s t k ->
  forall i j,
    (i <= String.length s1)%nat -> (j <= String.length s2)%nat ->
    s = rprefix s1 i -> t = rprefix s2 j ->
    (prefix_distance s1 s2 i j <= k)%nat.
Proof.
  induction 1 as [|a s t k H IH|b s t k H IH|a s t k H IH|a b s t k H IH];
    intros i j Hi Hj Hs Ht.
  - assert (i = O).
    { rewrite <- (rprefix_length s1 i Hi), <- Hs. reflexivity. }
    assert (j = O).
    { rewrite <- (rprefix_length s2 j Hj), <- Ht. reflexivity. }
    subst. reflexivity.
  - destruct i as [|i].
    { unfold rprefix in Hs. simpl in Hs. discriminate. }
    destruct (get_in_range s1 i) as [c Hc]; [lia|].
    rewrite (rprefix_S _ _ _ Hc) in Hs. inversion Hs; subst.
    etransitivity; [apply prefix_distance_delete|].
    apply le_n_S. apply IH; auto; lia.
  - destruct j as [|j].
    { unfold rprefix in Ht. simpl in Ht. discriminate. }
    destruct (get_in_range s2 j) as [d Hd]; [lia|].
    rewrite (rprefix_S _ _ _ Hd) in Ht. inversion Ht; subst.
    etransitivity; [apply prefix_distance_insert|].
    apply le_n_S. apply IH; auto; lia.
  - destruct i as [|i].
    { unfold rprefix in Hs. simpl in Hs. discriminate. }
    destruct j as [|j].
    { unfold rprefix in Ht. simpl in Ht. discriminate. }
    destruct (get_in_range s1 i) as [c Hc]; [lia|].
    destruct (get_in_range s2 j) as [d Hd]; [lia|].
    rewrite (rprefix_S _ _ _ Hc) in Hs. rewrite (rprefix_S _ _ _ Hd) in Ht.
    inversion Hs; inversion Ht; subst. subst.
    etransitivity; [eapply prefix_distance_keep; eassumption|].
    apply IH; auto; lia.
  - destruct i as [|i].
    { unfold rprefix in Hs. simpl in Hs. discriminate. }
    destruct j as [|j].
    { unfold rprefix in Ht. simpl in Ht. discriminate. }
    destruct (get_in_range s1 i) as [c Hc]; [lia|].
    destruct (get_in_range s2 j) as [d Hd]; [lia|].
    rewrite (rprefix_S _ _ _ Hc) in Hs. rewrite (rprefix_S _ _ _ Hd) in Ht.
    inversion Hs; inversion Ht; subst.
    etransitivity; [apply prefix_distance_replace|].
    apply le_n_S. apply IH; auto; lia.
Qed.

Lemma rprefix_full (s : string) :
  rprefix s (String.length s) = rev (chars s).
Proof.
  unfold rprefix. rewrite <- chars_length. now rewrite firstn_all.
Qed.

(** The distance of the specification is the least number of
    single-character deletions, insertions and replacements that turn
    one text into the other. *)
Theorem levenshtein_least_edits (s1 s2 : string) :
  edits (chars s1) (chars s2) (levenshtein s1 s2) /\
  forall k, edits (chars s1) (chars s2) k -> (levenshtein s1 s2 <= k)%nat.
Proof.
  unfold levenshtein. split.
  - rewrite <- (rev_involutive (chars s1)), <- (rev_involutive (chars s2)).
    apply edits_rev. rewrite <- !rprefix_full.
    now apply prefix_distance_edits.
  - intros k Hk. apply edits_rev in Hk.
    apply (prefix_distance_least s1 s2 _ _ _ Hk); auto.
    + now rewrite rprefix_full.
    + now rewrite rprefix_full.
Qed.

(** *** The order of the results *)

Lemma positive_difference (a b : Q) :
  positive (a - b)%Q = true <-> (b < a)%Q.
Proof.
  unfold positive, Qlt, Qminus, Qplus, Qopp. simpl.
  rewrite Z.ltb_lt. lia.
Qed.

Lemma sort_insert_ascending (key : SimilarityResult) racc :
  ascending racc -> ascending (sort_insert by_similarity key racc).
Proof.
  unfold ascending.
  induction racc as [|y r IH]; intros Hs; simpl.
  - constructor; constructor.
  - inversion Hs as [|? ? Hr Hy]; subst.
    destruct (positive (by_similarity y key)) eqn:Hp.
    + apply positive_difference in Hp.
      constructor; [now apply IH|].
      apply Forall_forall. intros z Hz.
      apply (Permutation_in _ (sort_insert_perm by_similarity key r)) in Hz.
      destruct Hz as [<-|Hz].
      * now apply Qlt_le_weak.
      * rewrite Forall_forall in Hy. now apply Hy.
    + assert (Hle : (similarity key <= similarity y)%Q).
      { apply Qnot_lt_le. intros Hlt.
        apply positive_difference in Hlt.
        unfold by_similarity in Hp. congruence. }
      constructor; [assumption|].
      constructor; [assumption|].
      rewrite Forall_forall in Hy |- *. intros z Hz.
      eapply Qle_trans; [exact Hle|]. now apply Hy.
Qed.

Lemma ascending_rev (l : list SimilarityResult) :
  ascending l -> descending (rev l).
Proof.
  unfold ascending, descending.
  induction l as [|x l IH]; intros Hs; simpl; [constructor|].
  inversion Hs as [|? ? Hl Hx]; subst.
  specialize (IH Hl).
  assert (Happ : forall l1 : list SimilarityResult,
             StronglySorted (fun a b => (similarity b <= similarity a)%Q) l1 ->
             Forall (fun y => (similarity x <= similarity y)%Q) l1 ->
             StronglySorted (fun a b => (similarity b <= similarity a)%Q)
                            (l1 ++ [x])).
  { induction l1 as [|z l1 IH1]; intros Hs1 Hall; simpl.
    - constructor; constructor.
    - inversion Hs1; subst. inversion Hall; subst.
      constructor; [now apply IH1|].
      apply Forall_app. split; [assumption|]. now constructor. }
  apply Happ; [assumption|].
  rewrite Forall_forall in Hx |- *. intros y Hy.
  apply Hx. now apply in_rev.
Qed.

Lemma sort_by_similarity_descending (l : list SimilarityResult) :
  descending (JS.sort by_similarity l).
Proof.
  unfold JS.sort. apply ascending_rev.
  assert (H : forall acc, ascending acc ->
              ascending
                (fold_left (fun rprefix key =>
                              sort_insert by_similarity key rprefix) l acc)).
  { induction l as [|x l IH]; intros acc Hacc; simpl; [assumption|].
    apply IH. now apply sort_insert_ascending. }
  apply H. constructor.
Qed.

Lemma descending_firstn (k : nat) (l : list SimilarityResult) :
  descending l -> descending (firstn k l).
Proof.
  unfold descending. revert k.
  induction l as [|x l IH]; intros [|k] Hs; simpl; try constructor.
  - inversion Hs; subst. now apply IH.
  - inversion Hs as [|? ? _ Hx]; subst.
    rewrite Forall_forall in Hx |- *. intros y Hy.
    apply Hx. rewrite <- (firstn_skipn k l). apply in_or_app. now left.
Qed.

(** *** C5 *)

Lemma similarCandidates_In self task_ threshold (r : SimilarityResult) :
  In r (similarCandidates self task_ threshold) ->
  In (entry r) (memoryEntries self) /\
  similarity r = calculateSimilarity (task (entry r)) task_ /\
  (threshold <= similarity r)%Q.
Proof.
  unfold similarCandidates. rewrite in_flat_map.
  intros [e [He Hr]].
  destruct (Qle_bool threshold (calculateSimilarity (task e) task_)) eqn:Hq;
    [|contradiction].
  destruct Hr as [<-|[]]. simpl.
  split; [assumption|]. split; [reflexivity|].
  now apply Qle_bool_iff.
Qed.

Lemma toLowerCase_length (s : string) :
  String.length (toLowerCase s) = String.length s.
Proof. induction s as [|c s IH]; simpl; congruence. Qed.

Lemma calculateSimilarity_spec (str1 str2 : string) :
  calculateSimilarity str1 str2 = similarity_spec str1 str2.
Proof.
  unfold calculateSimilarity, similarity_spec.
  now rewrite levenshteinDistance_correct, !toLowerCase_length.
Qed.

Lemma calculateSimilarity_self (s : string) :
  (calculateSimilarity s s == 1)%Q.
Proof.
  rewrite calculateSimilarity_spec. unfold similarity_spec.
  destruct (Nat.eqb _ 0); [reflexivity|].
  rewrite levenshtein_refl. unfold Q_of_nat. simpl.
  unfold Qdiv. rewrite Qmult_0_l. reflexivity.
Qed.



(** The query differs from the first task by letter case only and is far
    from the second. *)
Example findSimilarTasks_sample :
  map (fun r => (task (entry r), Qred (similarity r)))
      (findSimilarTasks (new [created; deploy]) "create file test.txt"
                        default_threshold default_limit)
  = [("Create file test.txt", 1%Q)] /\
  Qred (calculateSimilarity "Deploy build" "create file test.txt") = (1 # 10)%Q.
Proof. vm_compute. split; reflexivity. Qed.

(** A negative [limit] is not a count: [slice(0, limit)] then drops that
    many results from the end. *)
Example findSimilarTasks_negative_limit :
  List.length
    (findSimilarTasks (new [created; created; created]) "create file test.txt"
                      default_threshold (-1))
  = 2%nat.
Proof. vm_compute. reflexivity. Qed.

(** ** Persistence *)

Import PersistenceManager.

(** *** The validator *)

Lemma typeof_string (v : value) :
  (typeof v =? "string")%string = true <-> exists s, v = VStr s.
Proof.
  split.
  - destruct v; simpl; try discriminate. intros _. eauto.
  - intros [s ->]. reflexivity.
Qed.

Lemma typeof_number (v : value) :
  (typeof v =? "number")%string = true <-> exists n, v = VNumber n.
Proof.
  split.
  - destruct v; simpl; try discriminate. intros _. eauto.
  - intros [s ->]. reflexivity.
Qed.

Lemma typeof_boolean (v : value) :
  (typeof v =? "boolean")%string = true <-> exists b, v = VBool b.
Proof.
  split.
  - destruct v; simpl; try discriminate. intros _. eauto.
  - intros [s ->]. reflexivity.
Qed.

Lemma typeof_object (v : value) :
  ((typeof v =? "object")%string && negb (is_null v))%bool = true
  <-> is_object v.
Proof.
  unfold is_object. rewrite andb_true_iff, String.eqb_eq, negb_true_iff.
  split; intros [H1 H2]; split; try assumption.
  - intros ->. discriminate.
  - destruct v; try reflexivity. congruence.
Qed.

Lemma truthy_object (v : value) : is_object v -> truthy v = true.
Proof.
  intros [Ht Hn]. destruct v; simpl in *; try discriminate; congruence.
Qed.

Lemma validateEntry_spec (e : value) :
  validateEntry e = true <-> structurally_valid e.
Proof.
  unfold validateEntry, structurally_valid.
  split.
  - destruct (negb (truthy e) || negb (typeof e =? "object")%string)%bool
      eqn:Hguard; [discriminate|].
    apply orb_false_iff in Hguard. destruct Hguard as [Htr Hty].
    apply negb_false_iff in Htr. apply negb_false_iff in Hty.
    rewrite !andb_true_iff.
    intros [[[[[[[[Hid Hts] Htask] Hres] Hresn] Hm] Hmn] Hs] Hd].
    repeat split.
    + now apply String.eqb_eq.
    + intros ->. discriminate.
    + now apply typeof_string.
    + now apply typeof_number.
    + now apply typeof_string.
    + now apply String.eqb_eq.
    + intros Heq. rewrite Heq in Hresn. discriminate.
    + now apply String.eqb_eq.
    + intros Heq. rewrite Heq in Hmn. discriminate.
    + now apply typeof_boolean.
    + now apply typeof_number.
  - intros [He [Hid [Hts [Htask [Hres [Hm [Hs Hd]]]]]]].
    rewrite (truthy_object e He).
    destruct He as [Hty _]. rewrite Hty. simpl.
    apply typeof_string in Hid. apply typeof_number in Hts.
    apply typeof_string in Htask. apply typeof_boolean in Hs.
    apply typeof_number in Hd.
    apply typeof_object in Hres. apply typeof_object in Hm.
    apply andb_true_iff in Hres. destruct Hres as [Hres1 Hres2].
    apply andb_true_iff in Hm. destruct Hm as [Hm1 Hm2].
    rewrite Hid, Hts, Htask, Hres1, Hres2, Hm1, Hm2, Hs, Hd. reflexivity.
Qed.

(** *** What [saveEntry] and the readers do with a candidate *)

Lemma saveEntry_try_ok_valid (entry : value) now ls ls' :
  saveEntry_try entry now ls = (Ok tt, ls') -> validateEntry entry = true.
Proof.
  unfold saveEntry_try.
  destruct (validateEntry entry); [reflexivity|]. simpl. discriminate.
Qed.

Lemma saveEntry_ok_valid (entry : value) now ls :
  fst (saveEntry entry now ls) = Ok tt -> validateEntry entry = true.
Proof.
  unfold saveEntry.
  destruct (saveEntry_try entry now ls) as [[[]|err] ls'] eqn:Htry.
  - intros _. eapply saveEntry_try_ok_valid; eassumption.
  - destruct entry; simpl; discriminate.
Qed.

Lemma saveEntry_rejects_invalid (entry : value) now ls :
  validateEntry entry = false ->
  (exists err, fst (saveEntry entry now ls) = Throw err) /\
  snd (saveEntry entry now ls) = ls.
Proof.
  intros Hinv. unfold saveEntry, saveEntry_try. rewrite Hinv. simpl.
  destruct entry; simpl; eauto.
Qed.

Lemma retrieveEntry_valid (entryId : string) ls (e : value) :
  retrieveEntry entryId ls = Some e -> validateEntry e = true.
Proof.
  unfold retrieveEntry.
  destruct (LocalStorage.getItem ls (entryKey entryId)) as [data|];
    [|discriminate].
  destruct (data =? "")%string; [discriminate|].
  destruct (decryptEntry data) as [v|err]; [|discriminate].
  destruct (validateEntry v) eqn:Hv; [|discriminate].
  intros H. inversion H; subst. assumption.
Qed.

Lemma retrieveEntries_valid now ls (e : value) :
  In e (retrieveEntries now ls) -> validateEntry e = true.
Proof.
  unfold retrieveEntries.
  destruct (the_index (getMemoryIndex now ls)) as [index|err]; simpl;
    [|contradiction].
  rewrite in_flat_map. intros [id_ [_ Hin]].
  destruct (retrieveEntry id_ ls) as [e'|] eqn:Hr; [|contradiction].
  destruct Hin as [<-|[]].
  eapply retrieveEntry_valid; eassumption.
Qed.

(** *** C4 *)

(** C4, counterexample.  The entry [nameless] has the empty string as its
    [id]; [saveEntry] accepts it and writes it under the bare prefix, and
    [retrieveEntries] returns it from a medium that holds it. *)
Lemma empty_id_is_persisted_and_returned :
  get nameless "id" = VStr "" /\
  fst (saveEntry nameless 1 medium) = Ok tt /\
  LocalStorage.getItem (snd (saveEntry nameless 1 medium)) "TRINITI_MEMORY_"
  <> None /\
  retrieveEntries 2 foreign_medium = [nameless].
Proof.
  vm_compute. repeat split. discriminate.
Qed.

(** C4, as amended.  The validator of the persistence layer accepts
    exactly the non-null objects with a string [id] (the empty string
    included), a numeric [timestamp], a string [task], a non-null object
    [result] and a non-null object [metadata] with a boolean [success] and
    a numeric [duration].  Every entry that [saveEntry] persists and every
    entry that [retrieveEntries] returns passes it; a candidate that does
    not is rejected by [saveEntry] with an error, leaves the medium as it
    was and is not among the entries that [retrieveEntries] returns. *)
Theorem persisted_entries_pass_the_validator :
  forall (entry : value) (now : Z) (ls : LocalStorage.t),
    (validateEntry entry = true <-> structurally_valid entry) /\
    (fst (saveEntry entry now ls) = Ok tt -> structurally_valid entry) /\
    (~ structurally_valid entry ->
     (exists err, fst (saveEntry entry now ls) = Throw err) /\
     snd (saveEntry entry now ls) = ls /\
     ~ In entry (retrieveEntries now (snd (saveEntry entry now ls)))) /\
    (forall e, In e (retrieveEntries now ls) -> structurally_valid e).
Proof.
  intros entry now ls.
  split; [apply validateEntry_spec|].
  split; [|split].
  - intros Hok. apply validateEntry_spec.
    eapply saveEntry_ok_valid; eassumption.
  - intros Hinv.
    assert (Hv : validateEntry entry = false).
    { destruct (validateEntry entry) eqn:Hv; [|reflexivity].
      exfalso. apply Hinv. now apply validateEntry_spec. }
    destruct (saveEntry_rejects_invalid entry now ls Hv) as [Herr Hls].
    split; [assumption|]. split; [assumption|].
    intros Hin. apply retrieveEntries_valid in Hin. congruence.
  - intros e He. apply validateEntry_spec.
    eapply retrieveEntries_valid; eassumption.
Qed.

Lemma persisted_entries_pass_the_validator_witness :
  (exists err, fst (saveEntry (VObj [("id", VStr "task_9")]) 1 medium)
               = Throw err) /\
  snd (saveEntry (VObj [("id", VStr "task_9")]) 1 medium) = medium /\
  ~ In (VObj [("id", VStr "task_9")])
       (retrieveEntries 1
          (snd (saveEntry (VObj [("id", VStr "task_9")]) 1 medium))).
Proof.
  apply (proj1 (proj2 (proj2
           (persisted_entries_pass_the_validator
              (VObj [("id", VStr "task_9")]) 1 medium)))).
  intros [_ [_ [[n Hn] _]]]. discriminate Hn.
Defined.

(** *** String literals survive [JSON.stringify] and [JSON.parse] *)

Lemma parse_string_body_cons (c : ascii) (r : string) :
  JSON.parse_string_body (String c r)
  = if Ascii.eqb c JSON.dquote then Some (EmptyString, r)
    else if Ascii.eqb c JSON.backslash then
      match r with
      | String e r' =>
          match JSON.simple_escape e with
          | Some ch =>
              match JSON.parse_string_body r' with
              | Some (t, rest) => Some (String ch t, rest)
              | None => None
              end
          | None =>
              if Ascii.eqb e "u"%char then
                match r' with
                | String h1 (String h2 (String h3 (String h4 r''))) =>
                    match JSON.unicode_escape h1 h2 h3 h4 with
                    | Some ch =>
                        match JSON.parse_string_body r'' with
                        | Some (t, rest) => Some (String ch t, rest)
                        | None => None
                        end
                    | None => None
                    end
                | _ => None
                end
              else None
          end
      | EmptyString => None
      end
    else if Nat.ltb (nat_of_ascii c) 32 then None
    else
      match JSON.parse_string_body r with
      | Some (t, rest) => Some (String c t, rest)
      | None => None
      end.
Proof. reflexivity. Qed.

Lemma parse_quote_char (c : ascii) (tail t rest : string) :
  JSON.parse_string_body tail = Some (t, rest) ->
  JSON.parse_string_body (JSON.quote_char c ++ tail) = Some (String c t, rest).
Proof.
  intros H.
  destruct c as [[] [] [] [] [] [] [] []];
    quote_char_case H parse_string_body_cons.
Qed.

Lemma append_assoc (a b c : string) : ((a ++ b) ++ c = a ++ (b ++ c))%string.
Proof. induction a as [|x a IH]; simpl; congruence. Qed.

Lemma parse_quote_body (s rest : string) :
  JSON.parse_string_body (JSON.quote_body s ++ String JSON.dquote rest)
  = Some (s, rest).
Proof.
  induction s as [|c s IH].
  - reflexivity.
  - cbn [JSON.quote_body].
    rewrite append_assoc.
    now apply parse_quote_char.
Qed.

Lemma parse_value_quote (fuel : nat) (s rest : string) :
  JSON.parse_value (S fuel)
    (String JSON.dquote (JSON.quote_body s ++ String JSON.dquote rest))
  = Some (VStr s, rest).
Proof.
  cbn [JSON.parse_value JSON.skip_ws].
  change (JSON.is_json_ws JSON.dquote) with false.
  cbv iota.
  change (Ascii.eqb JSON.dquote JSON.dquote) with true.
  cbv iota.
  now rewrite parse_quote_body.
Qed.

Lemma parse_quote (s : string) : JSON.parse (JSON.quote s) = Ok (VStr s).
Proof.
  unfold JSON.parse, JSON.quote.
  replace (2 * String.length
                 (String JSON.dquote (JSON.quote_body s ++ String JSON.dquote ""))
           + 2)%nat
    with (S (2 * String.length
                   (String JSON.dquote (JSON.quote_body s ++ String JSON.dquote ""))
             + 1))%nat by lia.
  rewrite parse_value_quote. reflexivity.
Qed.

(** *** The medium *)

Lemma assoc_put_same (k v : string) l :
  LocalStorage.assoc k (LocalStorage.put k v l) = Some v.
Proof.
  induction l as [|[k' v'] l IH]; simpl.
  - now rewrite String.eqb_refl.
  - destruct (k =? k')%string eqn:Hk; simpl; rewrite ?String.eqb_refl, ?Hk;
      [reflexivity|assumption].
Qed.

Lemma assoc_put_other (k k' v : string) l :
  k <> k' ->
  LocalStorage.assoc k (LocalStorage.put k' v l) = LocalStorage.assoc k l.
Proof.
  intros Hne. apply String.eqb_neq in Hne.
  induction l as [|[k2 v2] l IH]; simpl.
  - now rewrite Hne.
  - destruct (k' =? k2)%string eqn:Hk; simpl.
    + apply String.eqb_eq in Hk. subst k2. now rewrite Hne.
    + now rewrite IH.
Qed.

Lemma setItem_get_same ls k v ls' :
  LocalStorage.setItem ls k v = Ok ls' -> LocalStorage.getItem ls' k = Some v.
Proof.
  unfold LocalStorage.setItem, LocalStorage.getItem.
  destruct (_ <=? _); [|discriminate].
  intros H. inversion H; subst. simpl. apply assoc_put_same.
Qed.

Lemma setItem_get_other ls k v ls' k0 :
  LocalStorage.setItem ls k v = Ok ls' -> k0 <> k ->
  LocalStorage.getItem ls' k0 = LocalStorage.getItem ls k0.
Proof.
  unfold LocalStorage.setItem, LocalStorage.getItem.
  destruct (_ <=? _); [|discriminate].
  intros H Hne. inversion H; subst. simpl. now apply assoc_put_other.
Qed.

(** *** C7 *)

Lemma valid_entry_is_record (entry : value) :
  validateEntry entry = true -> exists fields, entry = VObj fields.
Proof.
  intros Hv. apply validateEntry_spec in Hv.
  destruct Hv as [_ [[s Hid] _]].
  destruct entry; simpl in Hid; try discriminate.
  eauto.
Qed.

(** A valid entry is encrypted to a string. *)
Lemma encryptEntry_string (entry enc : value) :
  validateEntry entry = true ->
  encryptEntry entry = Ok enc -> exists text, enc = VStr text.
Proof.
  intros Hv Henc.
  destruct (valid_entry_is_record entry Hv) as [fields ->].
  unfold encryptEntry in Henc. cbn [JSON.stringify] in Henc.
  match type of Henc with
  | context [JS.bind (JS.bind ?m _) _] => destruct m as [parts|err]
  end; simpl in Henc; [|discriminate].
  inversion Henc. eauto.
Qed.

(** What [saveEntry] leaves under the key of the entry: the text of the
    entry serialised a second time, that is, a string literal. *)
Lemma saveEntry_stores_a_string_literal (entry : value) now ls ls' :
  saveEntry_try entry now ls = (Ok tt, ls') ->
  exists text,
    LocalStorage.getItem ls' (entryKey (id_text entry))
    = Some (JSON.quote text).
Proof.
  unfold saveEntry_try.
  destruct (validateEntry entry) eqn:Hv; simpl; [|discriminate].
  destruct (encryptEntry entry) as [enc|err] eqn:Henc; [|discriminate].
  destruct (encryptEntry_string entry enc Hv Henc) as [text ->].
  cbn [JSON.stringify LocalStorage.text_of].
  destruct (LocalStorage.setItem ls (entryKey (id_text entry))
              (JSON.quote text)) as [ls1|err] eqn:Hset; [|discriminate].
  pose proof (setItem_get_same _ _ _ _ Hset) as Hget1.
  unfold updateMemoryIndex.
  destruct (String.eqb_spec (entryKey (id_text entry)) METADATA_KEY)
    as [Hkey|Hkey].
  - (* the entry was written over the index: the index is then a string *)
    unfold getMemoryIndex. rewrite <- Hkey, Hget1.
    unfold JSON.quote at 1. cbn [String.eqb].
    change (Ascii.eqb JSON.dquote _) with false. cbv iota.
    fold (JSON.quote text). rewrite parse_quote. simpl. discriminate.
  - destruct (the_index (getMemoryIndex now ls1)) as [index|err];
      [|discriminate].
    match goal with
    | |- context [JSON.stringify ?v] => destruct (JSON.stringify v) as [o|err]
    end; [|discriminate].
    destruct (LocalStorage.setItem ls1 METADATA_KEY (LocalStorage.text_of o))
      as [ls2|err] eqn:Hset2; [|discriminate].
    intros H. inversion H; subst ls'.
    exists text.
    rewrite (setItem_get_other _ _ _ _ _ Hset2 Hkey). exact Hget1.
Qed.

Lemma validateEntry_string (text : string) :
  validateEntry (VStr text) = false.
Proof. unfold validateEntry. simpl. now rewrite orb_true_r. Qed.

(** C7, for every entry.  Once [saveEntry] has succeeded on an entry,
    [retrieveEntry] returns [null] for its [id]: the text under the key is
    a string literal, which the validator refuses after the single
    [JSON.parse] of the reader.  The round trip fails on every valid
    entry. *)
Theorem saved_entry_is_not_retrievable :
  forall (entry : value) (now : Z) (ls : LocalStorage.t),
    fst (saveEntry entry now ls) = Ok tt ->
    retrieveEntry (id_text entry) (snd (saveEntry entry now ls)) = None.
Proof.
  intros entry now ls. unfold saveEntry.
  destruct (saveEntry_try entry now ls) as [[[]|err] ls'] eqn:Htry.
  - intros _. simpl.
    destruct (saveEntry_stores_a_string_literal _ _ _ _ Htry) as [text Hget].
    unfold retrieveEntry. rewrite Hget.
    unfold JSON.quote at 1. cbn [String.eqb].
    fold (JSON.quote text).
    unfold decryptEntry. rewrite parse_quote, validateEntry_string.
    reflexivity.
  - destruct entry; simpl; discriminate.
Qed.

(** C7, at the failing input.  [saveEntry] succeeds on the valid entry
    "task_1"; [retrieveEntry("task_1")] then returns [null], and
    [retrieveEntries] returns no entry, although the index lists the
    [id]. *)
Lemma round_trip_fails_on_a_valid_entry :
  validateEntry (Entry.to_value created) = true /\
  fst (saveEntry (Entry.to_value created) 1 medium) = Ok tt /\
  retrieveEntry "task_1" (snd (saveEntry (Entry.to_value created) 1 medium))
  = None /\
  retrieveEntries 2 (snd (saveEntry (Entry.to_value created) 1 medium)) = [] /\
  match getMemoryIndex 2 (snd (saveEntry (Entry.to_value created) 1 medium)) with
  | IndexRecord ix => entryIds ix = ["task_1"]
  | IndexOther _ => False
  end.
Proof.
  split; [reflexivity|]. split; [reflexivity|]. split.
  - apply (saved_entry_is_not_retrievable (Entry.to_value created) 1 medium).
    reflexivity.
  - vm_compute. split; reflexivity.
Defined.

(** Read as one serialised object, the same text is returned: the
    readers are the inverse of a single [JSON.stringify]. *)
Example single_encoding_round_trips :
  retrieveEntry "" foreign_medium = Some nameless.
Proof. vm_compute. reflexivity. Qed.

(** ** The facades *)

(** *** C8 *)

Lemma recordTask_appends self ls task_ result_ metadata_ r id_ self' ls' :
  EnhancedMemorySystem.recordTask self ls task_ result_ metadata_ r
  = (Ok id_, self', ls') ->
  EnhancedMemorySystem.entries self'
  = (EnhancedMemorySystem.entries (loaded self r ls)
     ++ [EnhancedMemorySystem.buildEntry task_ result_ metadata_ r])%list /\
  id_ = id (EnhancedMemorySystem.buildEntry task_ result_ metadata_ r).
Proof.
  unfold EnhancedMemorySystem.recordTask. fold (loaded self r ls).
  destruct (EnhancedMemorySystem.validateEntry _) as [[|]|err];
    try discriminate.
  destruct (saveEntry _ _ ls) as [[u|err] ls1]; [|discriminate].
  intros H. inversion H; subst. split; reflexivity.
Qed.

(** C8, for every call.  Whatever [duration] the overrides carry, the
    entry that [recordTask] stores has the difference of the two readings
    of [performance.now()] as its [duration]; [success] defaults to
    [true], [tags] to the empty list and [priority] to 5. *)
Theorem recordTask_stores_the_measured_duration :
  forall (self : EnhancedMemorySystem.t) (ls : LocalStorage.t)
         (task_ : string) (result_ : value)
         (metadata_ : EnhancedMemorySystem.MetadataOverrides)
         (r : Env.readings) (id_ : string)
         (self' : EnhancedMemorySystem.t) (ls' : LocalStorage.t),
    EnhancedMemorySystem.recordTask self ls task_ result_ metadata_ r
    = (Ok id_, self', ls') ->
    exists before e,
      EnhancedMemorySystem.entries self' = (before ++ [e])%list /\
      id e = id_ /\
      duration (metadata e) = Env.perf_end r - Env.perf_start r /\
      success (metadata e)
      = match EnhancedMemorySystem.success metadata_ with
        | Some b => b
        | None => true
        end /\
      Memory.tags (metadata e)
      = Some match EnhancedMemorySystem.tags metadata_ with
             | Some ts => ts
             | None => []
             end /\
      priority (metadata e)
      = Some match EnhancedMemorySystem.priority metadata_ with
             | Some p => p
             | None => 5
             end.
Proof.
  intros self ls task_ result_ metadata_ r id_ self' ls' H.
  destruct (recordTask_appends _ _ _ _ _ _ _ _ _ H) as [Hentries Hid].
  exists (EnhancedMemorySystem.entries (loaded self r ls)).
  exists (EnhancedMemorySystem.buildEntry task_ result_ metadata_ r).
  split; [assumption|]. split; [now symmetry|].
  destruct metadata_ as [s d e t p]; simpl.
  destruct s, t, p; repeat split.
Qed.

(** C8, at the failing input.  [recordTask] is called with
    [duration: 120]; the two readings of [performance.now()] are 50 and
    53; the stored entry has the duration 3. *)
Lemma recordTask_drops_the_supplied_duration :
  exists before e,
    EnhancedMemorySystem.entries (snd (fst after_first))
    = (before ++ [e])%list /\
    id e = "task_1000_k3j9x0a1b" /\
    duration (metadata e) = 53 - 50 /\
    success (metadata e) = true /\
    Memory.tags (metadata e) = Some [] /\
    priority (metadata e) = Some 5.
Proof.
  apply (recordTask_stores_the_measured_duration
           EnhancedMemorySystem.new medium
           "Create file test.txt" (VObj []) (overrides true (Some 120))
           (reading 1000 50 "k3j9x0a1b")
           "task_1000_k3j9x0a1b" (snd (fst after_first)) (snd after_first)).
  vm_compute. reflexivity.
Defined.

(** *** The [Map] of the synchronous facade *)

Import TRINITIMemorySystem.

Lemma map_get_set_same k e m : map_get k (map_set k e m) = Some e.
Proof.
  induction m as [|[k' e'] m IH]; simpl.
  - now rewrite String.eqb_refl.
  - destruct (k =? k')%string eqn:Hk; simpl.
    + now rewrite String.eqb_refl.
    + now rewrite Hk.
Qed.

Lemma map_get_set_other k k' e m :
  k <> k' -> map_get k (map_set k' e m) = map_get k m.
Proof.
  intros Hne. apply String.eqb_neq in Hne.
  induction m as [|[k2 e2] m IH]; simpl.
  - now rewrite Hne.
  - destruct (k' =? k2)%string eqn:Hk; simpl.
    + apply String.eqb_eq in Hk. subst k2. now rewrite Hne.
    + now rewrite IH.
Qed.

Lemma map_set_fresh k e m :
  ~ In k (map fst m) -> map_set k e m = (m ++ [(k, e)])%list.
Proof.
  induction m as [|[k' e'] m IH]; intros Hfresh; simpl; [reflexivity|].
  simpl in Hfresh.
  destruct (String.eqb_spec k k') as [->|Hne].
  - exfalso. apply Hfresh. now left.
  - rewrite IH; [reflexivity|]. intros Hin. apply Hfresh. now right.
Qed.

Lemma map_get_delete_same k m : map_get k (map_delete k m) = None.
Proof.
  unfold map_delete.
  induction m as [|[k' e'] m IH]; simpl; [reflexivity|].
  destruct (k =? k')%string eqn:Hk; simpl; [assumption|].
  now rewrite Hk.
Qed.

Lemma map_get_delete_other k k' m :
  k <> k' -> map_get k (map_delete k' m) = map_get k m.
Proof.
  intros Hne. unfold map_delete.
  induction m as [|[k2 e2] m IH]; simpl; [reflexivity|].
  destruct (String.eqb_spec k' k2) as [->|Hk2]; simpl.
  - apply String.eqb_neq in Hne. now rewrite Hne.
  - now rewrite IH.
Qed.

Lemma map_delete_keys k m :
  map fst (map_delete k m) = filter (fun k' => negb (k =? k')%string) (map fst m).
Proof.
  unfold map_delete.
  induction m as [|[k' e'] m IH]; simpl; [reflexivity|].
  destruct (k =? k')%string; simpl; congruence.
Qed.

Lemma map_delete_length k m :
  NoDup (map fst m) -> In k (map fst m) ->
  S (List.length (map_delete k m)) = List.length m.
Proof.
  unfold map_delete.
  induction m as [|[k' e'] m IH]; intros Hnd Hin; simpl in *; [contradiction|].
  inversion Hnd as [|? ? Hnotin Hnd']; subst.
  destruct (String.eqb_spec k k') as [->|Hne]; simpl.
  - f_equal.
    clear IH Hin Hnd Hnd'.
    induction m as [|[k2 e2] m IHm]; simpl; [reflexivity|].
    simpl in Hnotin.
    destruct (String.eqb_spec k' k2) as [->|Hk2]; simpl.
    + exfalso. apply Hnotin. now left.
    + f_equal. apply IHm. intros Hin. apply Hnotin. now right.
  - f_equal. apply IH; [assumption|].
    destruct Hin as [Heq|Hin]; [congruence|assumption].
Qed.

Lemma map_get_In k e m :
  NoDup (map fst m) -> In (k, e) m -> map_get k m = Some e.
Proof.
  induction m as [|[k' e'] m IH]; intros Hnd Hin; simpl in *; [contradiction|].
  inversion Hnd as [|? ? Hnotin Hnd']; subst.
  destruct Hin as [Heq|Hin].
  - inversion Heq; subst. now rewrite String.eqb_refl.
  - destruct (String.eqb_spec k k') as [->|Hne].
    + exfalso. apply Hnotin. apply (in_map fst) in Hin. exact Hin.
    + now apply IH.
Qed.

(** The [reduce] call of [prune] returns an entry of the map whose
    timestamp is the smallest. *)
Lemma oldest_is_minimal (rest : list (string * MemoryEntry)) first :
  In (fold_left older rest first) (first :: rest) /\
  forall x, In x (first :: rest) ->
            timestamp (snd (fold_left older rest first)) <= timestamp (snd x).
Proof.
  revert first.
  induction rest as [|y rest IH]; intros first; simpl.
  - split; [now left|]. intros x [<-|[]]. lia.
  - destruct (IH (older first y)) as [Hin Hmin]. split.
    + destruct Hin as [Heq|Hin]; [|now right; right].
      rewrite <- Heq. unfold older.
      destruct (_ <? _); [right; now left|now left].
    + intros x Hx.
      assert (Hfy : timestamp (snd (older first y)) <= timestamp (snd first) /\
                    timestamp (snd (older first y)) <= timestamp (snd y)).
      { unfold older.
        destruct (Z.ltb_spec (timestamp (snd y)) (timestamp (snd first)));
          simpl; lia. }
      pose proof (Hmin (older first y) (or_introl eq_refl)) as H0.
      destruct Hx as [<-|[<-|Hx]]; [lia|lia|].
      apply Hmin. now right.
Qed.

(** The synchronous facade keeps a supplied duration, unless it is 0. *)
Lemma record_keeps_a_supplied_duration self ls task_ result_ o r d :
  TRINITIMemorySystem.duration o = Some d -> d <> 0 ->
  forall id_ self' ls',
    record self ls task_ result_ (Some o) r = Ok (id_, self', ls') ->
    exists e, map_get id_ (storage self') = Some e /\
              Memory.duration (metadata e) = d.
Proof.
  intros Hd Hnz id_ self' ls'.
  unfold record.
  destruct (prune self ls) as [[self1 ls1]|err]; simpl; [|discriminate].
  intros H. inversion H; subst; clear H.
  exists (buildEntry task_ result_ (Some o) r).
  split.
  - simpl. apply map_get_set_same.
  - simpl. unfold option_field. rewrite Hd.
    apply Z.eqb_neq in Hnz. now rewrite Hnz.
Qed.

(** *** Recording below and at the capacity *)

Lemma record_below_capacity self ls task_ result_ options r :
  (List.length (storage self) < MAX_ENTRIES self)%nat ->
  record self ls task_ result_ options r
  = Ok (id (buildEntry task_ result_ options r),
        {| storage :=
             map_set (id (buildEntry task_ result_ options r))
                     (buildEntry task_ result_ options r) (storage self);
           MAX_ENTRIES := MAX_ENTRIES self |},
        persistToDisk (buildEntry task_ result_ options r) ls).
Proof.
  intros Hlt. unfold record, prune.
  destruct (Nat.leb_spec (MAX_ENTRIES self) (List.length (storage self)));
    [lia|].
  destruct self. reflexivity.
Qed.

Lemma record_at_capacity self ls task_ result_ options r first rest :
  storage self = first :: rest ->
  (MAX_ENTRIES self <= List.length (storage self))%nat ->
  record self ls task_ result_ options r
  = Ok (id (buildEntry task_ result_ options r),
        {| storage :=
             map_set (id (buildEntry task_ result_ options r))
                     (buildEntry task_ result_ options r)
                     (map_delete (fst (fold_left older rest first))
                                 (storage self));
           MAX_ENTRIES := MAX_ENTRIES self |},
        persistToDisk (buildEntry task_ result_ options r)
          (removeFromDisk (fst (fold_left older rest first)) ls)).
Proof.
  intros Hst Hcap. unfold record, prune.
  destruct (Nat.leb_spec (MAX_ENTRIES self) (List.length (storage self)));
    [|lia].
  rewrite Hst. reflexivity.
Qed.

Lemma keyed_keys (es : list MemoryEntry) : map fst (keyed es) = map id es.
Proof. unfold keyed. rewrite map_map. reflexivity. Qed.

Lemma record_all_fills (calls : list call) :
  forall self ls,
    NoDup (map fst (storage self) ++ map (fun c => id (entry_of c)) calls) ->
    (List.length (storage self) + List.length calls <= MAX_ENTRIES self)%nat ->
    exists ls',
      record_all self ls calls
      = Ok ({| storage := (storage self ++ keyed (map entry_of calls))%list;
               MAX_ENTRIES := MAX_ENTRIES self |}, ls').
Proof.
  induction calls as [|c calls IH]; intros self ls Hnd Hcap; simpl.
  - exists ls. rewrite app_nil_r. now destruct self.
  - simpl in Hcap. cbn [record_all].
    rewrite record_below_capacity by lia.
    cbn [JS.bind fst snd].
    change (buildEntry (c_task c) (c_result c) (c_options c) (c_readings c))
      with (entry_of c).
    assert (Hfresh : ~ In (id (entry_of c)) (map fst (storage self))).
    { intros Hin. simpl in Hnd.
      apply NoDup_remove_2 in Hnd. apply Hnd.
      apply in_or_app. now left. }
    rewrite map_set_fresh by assumption.
    destruct (IH {| storage := (storage self ++ [(id (entry_of c), entry_of c)])%list;
                    MAX_ENTRIES := MAX_ENTRIES self |}
                 (persistToDisk (entry_of c) ls)) as [ls' Hls'].
    + simpl. rewrite map_app. simpl. rewrite <- app_assoc. exact Hnd.
    + simpl. rewrite length_app. simpl. lia.
    + exists ls'. rewrite Hls'. cbn [storage MAX_ENTRIES map keyed].
      unfold keyed. cbn [map]. now rewrite <- app_assoc.
Qed.

Lemma record_all_app (a b : list call) :
  forall self ls,
    record_all self ls (a ++ b)
    = (x <- record_all self ls a ;; record_all (fst x) (snd x) b).
Proof.
  induction a as [|c a IH]; intros self ls; simpl; [reflexivity|].
  destruct (record self ls (c_task c) (c_result c) (c_options c)
              (c_readings c)) as [[[i self1] ls1]|err]; simpl; [|reflexivity].
  apply IH.
Qed.

Lemma getItem_removeItem_same ls k :
  LocalStorage.getItem (LocalStorage.removeItem ls k) k = None.
Proof.
  unfold LocalStorage.getItem, LocalStorage.removeItem, LocalStorage.remove.
  simpl.
  induction (LocalStorage.items ls) as [|[k' v] l IH]; simpl; [reflexivity|].
  destruct (k =? k')%string eqn:Hk; simpl; [assumption|].
  now rewrite Hk.
Qed.

Lemma persistToDisk_other_key e ls k :
  k <> (STORAGE_KEY_PREFIX ++ id e)%string ->
  LocalStorage.getItem (persistToDisk e ls) k = LocalStorage.getItem ls k.
Proof.
  intros Hne. unfold persistToDisk.
  destruct (JSON.stringify (Entry.to_value e)) as [o|err]; simpl;
    [|reflexivity].
  destruct (LocalStorage.setItem ls _ _) as [ls'|err] eqn:Hset; simpl;
    [|reflexivity].
  eapply setItem_get_other; eassumption.
Qed.

Lemma prefixed_key_injective (a b : string) :
  (STORAGE_KEY_PREFIX ++ a = STORAGE_KEY_PREFIX ++ b)%string -> a = b.
Proof. unfold STORAGE_KEY_PREFIX. simpl. intros H. now inversion H. Qed.

(** *** C1 *)

(** C1, as amended.  The synchronous facade ([record] with [prune]) is
    given the capacity [N >= 1] and an empty store, and [N + 1] entries
    with pairwise distinct ids are recorded.  Then every call succeeds,
    the store holds exactly [N] entries, and the missing one, [oldest], is
    an entry of smallest timestamp among the [N] entries that were stored
    when the last call arrived; it is gone from the working set and from
    the medium, and every other recorded entry is still stored.  When the
    last entry is not older than [oldest] (the clock did not step back),
    [oldest] has the smallest timestamp of all [N + 1] entries. *)
Theorem record_evicts_the_oldest_stored_entry :
  forall (N : nat) (ls : LocalStorage.t) (calls : list call) (last : call),
    (1 <= N)%nat ->
    List.length calls = N ->
    NoDup (map (fun c => id (entry_of c)) (calls ++ [last])) ->
    exists self' ls' oldest,
      record_all (create N) ls (calls ++ [last]) = Ok (self', ls') /\
      List.length (storage self') = N /\
      In oldest (map entry_of calls) /\
      (forall e, In e (map entry_of calls) ->
                 timestamp oldest <= timestamp e) /\
      map_get (id oldest) (storage self') = None /\
      LocalStorage.getItem ls' (STORAGE_KEY_PREFIX ++ id oldest) = None /\
      (forall c, In c (calls ++ [last]) ->
                 id (entry_of c) <> id oldest ->
                 map_get (id (entry_of c)) (storage self')
                 = Some (entry_of c)) /\
      (timestamp oldest <= timestamp (entry_of last) ->
       forall c, In c (calls ++ [last]) ->
                 timestamp oldest <= timestamp (entry_of c)).
Proof.
  intros N ls calls last HN Hlen Hnd.
  assert (Hnd_calls : NoDup (map (fun c => id (entry_of c)) calls)).
  { rewrite map_app in Hnd. now apply NoDup_app_remove_r in Hnd. }
  assert (Hlast_fresh :
            ~ In (id (entry_of last)) (map (fun c => id (entry_of c)) calls)).
  { rewrite map_app in Hnd. simpl in Hnd.
    apply NoDup_remove_2 in Hnd. now rewrite app_nil_r in Hnd. }
  destruct (record_all_fills calls (create N) ls) as [lsN HlsN].
  { simpl. exact Hnd_calls. }
  { simpl. lia. }
  cbn [storage MAX_ENTRIES create app] in HlsN.
  rewrite record_all_app, HlsN.
  cbn [JS.bind fst snd record_all].
  set (st := keyed (map entry_of calls)).
  assert (Hkeys : map fst st = map (fun c => id (entry_of c)) calls).
  { subst st. rewrite keyed_keys, map_map. reflexivity. }
  assert (Hst_len : List.length st = N).
  { subst st. unfold keyed. now rewrite !length_map. }
  destruct st as [|first rest] eqn:Hst; [simpl in Hst_len; lia|].
  rewrite <- Hst in *.
  set (o := fold_left older rest first).
  destruct (oldest_is_minimal rest first) as [Ho_in Ho_min].
  fold o in Ho_in, Ho_min. rewrite <- Hst in Ho_in, Ho_min.
  assert (Ho_pair : o = (id (snd o), snd o) /\ In (snd o) (map entry_of calls)).
  { assert (Hin' : In o (keyed (map entry_of calls))) by (subst st; exact Ho_in).
    unfold keyed in Hin'. apply in_map_iff in Hin'.
    destruct Hin' as [e [He Hin]]. rewrite <- He. simpl. now split. }
  destruct Ho_pair as [Ho_eq Ho_entry].
  assert (Ho_key : fst o = id (snd o)) by (rewrite Ho_eq at 1; reflexivity).
  assert (Ho_keys : In (fst o) (map fst st)) by now apply in_map.
  assert (Hne_last : id (entry_of last) <> id (snd o)).
  { intros Heq. apply Hlast_fresh. rewrite <- Hkeys, Heq, <- Ho_key.
    exact Ho_keys. }
  rewrite (record_at_capacity _ lsN (c_task last) (c_result last)
             (c_options last) (c_readings last) first rest)
    by (cbn [storage MAX_ENTRIES create]; first [exact Hst | lia]).
  cbn [JS.bind fst snd storage MAX_ENTRIES].
  fold o.
  change (buildEntry (c_task last) (c_result last) (c_options last)
            (c_readings last)) with (entry_of last).
  eexists. eexists. exists (snd o).
  split; [reflexivity|]. cbn [storage].
  assert (Hfresh : ~ In (id (entry_of last)) (map fst (map_delete (fst o) st))).
  { rewrite map_delete_keys. intros Hin. apply filter_In in Hin.
    destruct Hin as [Hin _]. apply Hlast_fresh. now rewrite <- Hkeys. }
  split; [|split; [|split; [|split; [|split; [|split]]]]].
  - rewrite map_set_fresh by assumption.
    rewrite length_app. simpl.
    pose proof (map_delete_length (fst o) st) as Hdel.
    rewrite Hkeys in Hdel. specialize (Hdel Hnd_calls).
    rewrite <- Hkeys in Hdel. specialize (Hdel Ho_keys). lia.
  - exact Ho_entry.
  - intros e He. apply (Ho_min (id e, e)).
    unfold keyed. apply in_map_iff. exists e. now split.
  - rewrite map_get_set_other by congruence.
    rewrite <- Ho_key. apply map_get_delete_same.
  - rewrite persistToDisk_other_key.
    + unfold removeFromDisk. rewrite <- Ho_key.
      apply getItem_removeItem_same.
    + intros Heq. apply prefixed_key_injective in Heq. congruence.
  - intros c Hc Hcne.
    apply in_app_or in Hc. destruct Hc as [Hc|[<-|[]]].
    + assert (Hc_last : id (entry_of c) <> id (entry_of last)).
      { intros Heq. apply Hlast_fresh. rewrite <- Heq.
        apply in_map_iff. exists c. now split. }
      rewrite map_get_set_other by assumption.
      rewrite map_get_delete_other by (rewrite Ho_key; assumption).
      apply map_get_In.
      * rewrite Hkeys. exact Hnd_calls.
      * unfold keyed. apply in_map_iff. exists (entry_of c).
        split; [reflexivity|]. now apply in_map.
    + apply map_get_set_same.
  - intros Hle c Hc.
    apply in_app_or in Hc. destruct Hc as [Hc|[<-|[]]]; [|exact Hle].
    apply (Ho_min (id (entry_of c), entry_of c)).
    unfold keyed. apply in_map_iff. exists (entry_of c).
    split; [reflexivity|]. now apply in_map.
Qed.

Lemma record_evicts_the_oldest_stored_entry_witness :
  exists self' ls' oldest,
    record_all (create 2) medium
      ([plain_call 5000 "aaa"; plain_call 7000 "bbb"]
       ++ [plain_call 3000 "ccc"])
    = Ok (self', ls') /\
    List.length (storage self') = 2%nat /\
    In oldest (map entry_of [plain_call 5000 "aaa"; plain_call 7000 "bbb"]) /\
    (forall e,
        In e (map entry_of [plain_call 5000 "aaa"; plain_call 7000 "bbb"]) ->
        timestamp oldest <= timestamp e) /\
    map_get (id oldest) (storage self') = None /\
    LocalStorage.getItem ls' (STORAGE_KEY_PREFIX ++ id oldest) = None /\
    (forall c,
        In c ([plain_call 5000 "aaa"; plain_call 7000 "bbb"]
              ++ [plain_call 3000 "ccc"]) ->
        id (entry_of c) <> id oldest ->
        map_get (id (entry_of c)) (storage self') = Some (entry_of c)) /\
    (timestamp oldest <= timestamp (entry_of (plain_call 3000 "ccc")) ->
     forall c,
       In c ([plain_call 5000 "aaa"; plain_call 7000 "bbb"]
             ++ [plain_call 3000 "ccc"]) ->
       timestamp oldest <= timestamp (entry_of c)).
Proof.
  apply (record_evicts_the_oldest_stored_entry 2 medium
           [plain_call 5000 "aaa"; plain_call 7000 "bbb"]
           (plain_call 3000 "ccc")).
  - lia.
  - reflexivity.
  - vm_compute.
    repeat (constructor; [simpl; intuition discriminate|]). constructor.
Defined.

(** C1, counterexample.  The facade is the one that the constructor
    builds (capacity 1000) over an empty medium.  A thousand entries are
    recorded at the clock readings 5000 to 5999, then the clock is set
    back and one more entry is recorded at 3000.  The store holds 1000
    entries; the entry of smallest timestamp among the 1001, the last one,
    is stored, and the one missing is the entry recorded at 5000. *)
Lemma entry_of_smallest_timestamp_is_kept :
  observe "task_3000_a1s2d3f4g" "task_5000_q7w8e9r0t" outcome_after_step_back
  = Some (1000%nat, Some 3000, None) /\
  timestamp (entry_of after_step_back) = 3000 /\
  Forall (fun e => 5000 <= timestamp e) (map entry_of thousand).
Proof.
  split; [vm_compute; reflexivity|].
  split; [reflexivity|].
  apply Forall_forall. intros e He.
  apply in_map_iff in He. destruct He as [c [<- Hc]].
  unfold thousand in Hc. apply in_map_iff in Hc.
  destruct Hc as [i [<- _]].
  change (5000 <= 5000 + Z.of_nat i). lia.
Qed.

(** The same at the capacity 2, in full. *)
Example step_back_at_capacity_two :
  match record_all (create 2) medium
          [plain_call 5000 "aaa"; plain_call 7000 "bbb";
           plain_call 3000 "ccc"] with
  | Ok (self', _) => map timestamp (values self') = [7000; 3000]
  | Throw _ => False
  end.
Proof. vm_compute. reflexivity. Qed.

(** The facade of the enhanced version has no eviction: a successful
    [recordTask] adds one entry and removes none. *)
Lemma recordTask_never_evicts self ls task_ result_ metadata_ r id_ self' ls' :
  EnhancedMemorySystem.recordTask self ls task_ result_ metadata_ r
  = (Ok id_, self', ls') ->
  List.length (EnhancedMemorySystem.entries self')
  = S (List.length (EnhancedMemorySystem.entries (loaded self r ls))) /\
  forall e, In e (EnhancedMemorySystem.entries (loaded self r ls)) ->
            In e (EnhancedMemorySystem.entries self').
Proof.
  intros H. destruct (recordTask_appends _ _ _ _ _ _ _ _ _ H) as [He _].
  rewrite He. split.
  - rewrite length_app. simpl. lia.
  - intros e Hin. apply in_or_app. now left.
Qed.

(* ================================================================== *)
(** * The JSON text of a value                                         *)
(* ================================================================== *)

Import Memory MemorySearchEngine Spec Samples PersistenceManager.

Section ValueInduction.
Variable P : value -> Prop.
Hypothesis Hundefined : P VUndefined.
Hypothesis Hnull : P VNull.
Hypothesis Hbool : forall b, P (VBool b).
Hypothesis Hnumber : forall n, P (VNumber n).
Hypothesis Hbigint : forall z, P (VBigInt z).
Hypothesis Hstr : forall s, P (VStr s).
Hypothesis Herror : forall m, P (VError m).
Hypothesis Harr : forall items, Forall P items -> P (VArr items).
Hypothesis Hobj :
  forall fields, Forall (fun kv => P (snd kv)) fields -> P (VObj fields).

Lemma value_nested_ind : forall v, P v.
Proof.
  fix IH 1.
  intros [| |b|n|z|s|m|items|fields].
  - exact Hundefined.
  - exact Hnull.
  - apply Hbool.
  - apply Hnumber.
  - apply Hbigint.
  - apply Hstr.
  - apply Herror.
  - apply Harr. induction items as [|x r IHr]; constructor.
    + apply IH.
    + exact IHr.
  - apply Hobj. induction fields as [|[k x] r IHr]; constructor.
    + apply IH.
    + exact IHr.
Qed.
End ValueInduction.

Lemma parse_digits_digit (acc : Z) (c : ascii) (r : string) :
  JSON.is_digit c = true ->
  JSON.parse_digits acc (String c r)
  = JSON.parse_digits (10 * acc + JSON.digit_value c) r.
Proof. intros H. cbn [JSON.parse_digits]. now rewrite H. Qed.

Lemma parse_digits_stop (acc : Z) (rest : string) :
  ends_number rest -> JSON.parse_digits acc rest = (acc, rest).
Proof.
  destruct rest as [|c r]; [reflexivity|].
  cbn [JSON.parse_digits ends_number]. intros Hrest.
  apply orb_false_iff in Hrest. destruct Hrest as [Hrest _].
  apply orb_false_iff in Hrest. destruct Hrest as [Hrest _].
  apply orb_false_iff in Hrest. destruct Hrest as [Hrest _].
  now rewrite Hrest.
Qed.

Lemma parse_digits_uint (d : Decimal.uint) (acc : BinNums.positive)
    (rest : string) :
  ends_number rest ->
  JSON.parse_digits (Z.pos acc)
    (DecimalString.NilEmpty.string_of_uint d ++ rest)
  = (Z.pos (Pos.of_uint_acc d acc), rest).
Proof.
  intros Hrest. revert acc.
  induction d; intros acc;
    cbn [DecimalString.NilEmpty.string_of_uint String.append Pos.of_uint_acc];
    [ now apply parse_digits_stop
    | rewrite parse_digits_digit by reflexivity;
      rewrite <- IHd; f_equal .. ].
  all: unfold JSON.digit_value;
    match goal with
    | |- context [Z.of_nat ?n] =>
        let v := eval vm_compute in (Z.of_nat n) in
        change (Z.of_nat n) with v
    end; lia.
Qed.

Lemma unorm_head (d x : Decimal.uint) :
  Decimal.unorm d = Decimal.D0 x -> x = Decimal.Nil.
Proof.
  induction d; simpl; intros H; try discriminate; auto.
  inversion H. reflexivity.
Qed.

(** The decimal digits of a positive number: the first one is not 0. *)
Lemma to_uint_head (p : BinNums.positive) :
  match Pos.to_uint p with
  | Decimal.Nil | Decimal.D0 _ => False
  | _ => True
  end.
Proof.
  pose proof (DecimalPos.Unsigned.to_uint_nonzero p) as Hnz.
  pose proof (DecimalPos.Unsigned.to_uint_nonnil p) as Hnn.
  pose proof (DecimalPos.Unsigned.to_of (Pos.to_uint p)) as Hnorm.
  rewrite DecimalPos.Unsigned.of_to in Hnorm. simpl in Hnorm.
  destruct (Pos.to_uint p) eqn:E; try exact I.
  - now apply Hnn.
  - symmetry in Hnorm. apply unorm_head in Hnorm. subst.
    now apply Hnz.
Qed.

Lemma parse_number_magnitude (p : BinNums.positive) (negative : bool)
    (rest : string) :
  ends_number rest ->
  JSON.parse_number
    ((if negative then "-" else "")
     ++ DecimalString.NilZero.string_of_uint (Pos.to_uint p) ++ rest)
  = Some (VNumber (Num (if negative then Z.neg p else Z.pos p)), rest).
Proof.
  intros Hrest.
  pose proof (to_uint_head p) as Hhead.
  pose proof (DecimalPos.Unsigned.of_to p) as Hof.
  assert (Hfinal : forall m, 
    match rest with
    | String d _ =>
        if (Ascii.eqb d "." || Ascii.eqb d "e" || Ascii.eqb d "E")%bool
        then None
        else Some (VNumber (Num m), rest)
    | EmptyString => Some (VNumber (Num m), rest)
    end = Some (VNumber (Num m), rest)).
  { intros m. destruct rest as [|c r]; [reflexivity|].
    simpl in Hrest.
    destruct (JSON.is_digit c); [discriminate|]. simpl in Hrest.
    now rewrite Hrest. }
  destruct (Pos.to_uint p) as [|d|d|d|d|d|d|d|d|d|d] eqn:E;
    try contradiction;
    simpl in Hof; injection Hof as Hof;
    destruct negative;
    cbn [DecimalString.NilZero.string_of_uint
         DecimalString.NilEmpty.string_of_uint String.append];
    unfold JSON.parse_number;
    cbv beta iota zeta delta [Ascii.eqb Bool.eqb JSON.is_digit nat_of_ascii
      N_of_ascii N_of_digits N.to_nat Pos.to_nat Pos.iter_op Nat.add
      Nat.leb andb N.add N.mul Pos.add Pos.mul Pos.succ];
    (match goal with
     | |- context [JSON.parse_digits ?a _] =>
         let v := eval vm_compute in a in change a with v
     end);
    rewrite (parse_digits_uint d _ rest Hrest), Hof;
    apply Hfinal.
Qed.


Lemma parse_number_text (z : Z) (rest : string) :
  ends_number rest ->
  JSON.parse_number (string_of_Z z ++ rest) = Some (VNumber (Num z), rest).
Proof.
  intros Hrest. unfold string_of_Z.
  destruct z as [|p|p]; cbn [Z.to_int DecimalString.NilZero.string_of_int].
  - cbn. destruct rest as [|c r]; [reflexivity|].
    simpl in Hrest.
    destruct (JSON.is_digit c); [discriminate|]. simpl in Hrest.
    now rewrite Hrest.
  - apply (parse_number_magnitude p false rest Hrest).
  - apply (parse_number_magnitude p true rest Hrest).
Qed.

Lemma length_append (a b : string) :
  String.length (a ++ b) = (String.length a + String.length b)%nat.
Proof. induction a as [|c a IH]; simpl; congruence. Qed.

Lemma substring_all (s : string) : String.substring 0 (String.length s) s = s.
Proof. induction s as [|c s IH]; simpl; congruence. Qed.

Lemma prefix_append (p s : string) : String.prefix p (p ++ s) = true.
Proof.
  induction p as [|c p IH]; simpl.
  - now destruct s.
  - destruct (ascii_dec c c); [assumption|contradiction].
Qed.

Lemma strip_prefix_append (p s : string) :
  JSON.strip_prefix p (p ++ s) = Some s.
Proof.
  unfold JSON.strip_prefix. rewrite prefix_append. f_equal.
  rewrite length_append.
  replace (String.length p + String.length s - String.length p)%nat
    with (String.length s) by lia.
  induction p as [|c p IH]; simpl; [apply substring_all|assumption].
Qed.

Lemma skip_ws_value (t rest : string) :
  starts_value t -> JSON.skip_ws (t ++ rest) = (t ++ rest)%string.
Proof.
  destruct t as [|c t]; [contradiction|]. intros [Hws _].
  cbn [String.append JSON.skip_ws]. now rewrite Hws.
Qed.

Lemma parse_value_literal (fuel : nat) (word : string) (v : value)
    (rest : string) :
  (word, v) = ("null", VNull) \/ (word, v) = ("true", VBool true)
  \/ (word, v) = ("false", VBool false) ->
  JSON.parse_value (S fuel) (word ++ rest) = Some (v, rest).
Proof.
  intros [H|[H|H]]; inversion H; subst; clear H;
    cbn [String.append JSON.parse_value JSON.skip_ws];
    match goal with
    | |- context [JSON.is_json_ws ?c] =>
        change (JSON.is_json_ws c) with false
    end; cbv iota;
    repeat match goal with
    | |- context [Ascii.eqb ?a ?b] =>
        let r := eval vm_compute in (Ascii.eqb a b) in
        change (Ascii.eqb a b) with r
    end; cbv iota.
  - change (String "n" (String "u" (String "l" (String "l" rest))))
      with ("null" ++ rest)%string.
    now rewrite strip_prefix_append.
  - change (String "t" (String "r" (String "u" (String "e" rest))))
      with ("true" ++ rest)%string.
    rewrite strip_prefix_append.
    reflexivity.
  - change (String "f" (String "a" (String "l" (String "s" (String "e" rest)))))
      with ("false" ++ rest)%string.
    rewrite strip_prefix_append.
    reflexivity.
Qed.

Lemma parse_value_number_head (fuel : nat) (c : ascii) (r : string) :
  (Ascii.eqb c "-" || JSON.is_digit c)%bool = true ->
  JSON.parse_value (S fuel) (String c r) = JSON.parse_number (String c r).
Proof.
  destruct c as [[] [] [] [] [] [] [] []]; intros H;
    try (vm_compute in H; discriminate H); reflexivity.
Qed.

Lemma number_text_head (z : Z) :
  exists c r, string_of_Z z = String c r /\
              (Ascii.eqb c "-" || JSON.is_digit c)%bool = true /\
              JSON.is_json_ws c = false /\ Ascii.eqb c "]" = false.
Proof.
  unfold string_of_Z.
  destruct z as [|p|p]; cbn [Z.to_int DecimalString.NilZero.string_of_int].
  - cbn. eexists _, _. repeat split.
  - pose proof (to_uint_head p) as Hhead.
    destruct (Pos.to_uint p); try contradiction;
      cbn [DecimalString.NilZero.string_of_uint
           DecimalString.NilEmpty.string_of_uint];
      eexists _, _; repeat split.
  - eexists _, _. repeat split.
Qed.

Lemma parse_value_number (fuel : nat) (z : Z) (rest : string) :
  ends_number rest ->
  JSON.parse_value (S fuel) (string_of_Z z ++ rest)
  = Some (VNumber (Num z), rest).
Proof.
  intros Hrest.
  destruct (number_text_head z) as [c [r [Htext [Hhead _]]]].
  rewrite <- (parse_number_text z rest Hrest).
  rewrite Htext. cbn [String.append].
  now apply parse_value_number_head.
Qed.

Lemma parse_value_array (fuel : nat) (body : string) :
  JSON.parse_value (S fuel) (String "[" body)
  = match JSON.skip_ws body with
    | String c' r' as b =>
        if Ascii.eqb c' "]" then Some (VArr [], r')
        else match JSON.parse_elements fuel b with
             | Some (l, rest) => Some (VArr l, rest)
             | None => None
             end
    | EmptyString => None
    end.
Proof. reflexivity. Qed.

Lemma parse_value_object (fuel : nat) (body : string) :
  JSON.parse_value (S fuel) (String "{" body)
  = match JSON.skip_ws body with
    | String c' r' as b =>
        if Ascii.eqb c' "}" then Some (VObj [], r')
        else match JSON.parse_members fuel b with
             | Some (l, rest) => Some (VObj l, rest)
             | None => None
             end
    | EmptyString => None
    end.
Proof. reflexivity. Qed.

Lemma parse_elements_step (fuel : nat) (s : string) :
  JSON.parse_elements (S fuel) s
  = match JSON.parse_value fuel s with
    | Some (v, rest) =>
        match JSON.skip_ws rest with
        | String c r =>
            if Ascii.eqb c "," then
              match JSON.parse_elements fuel r with
              | Some (l, rest') => Some (v :: l, rest')
              | None => None
              end
            else if Ascii.eqb c "]" then Some ([v], r)
            else None
        | EmptyString => None
        end
    | None => None
    end.
Proof. reflexivity. Qed.

Lemma parse_members_step (fuel : nat) (k body : string) :
  JSON.parse_members (S fuel)
    (String JSON.dquote (JSON.quote_body k ++ String JSON.dquote (String ":" body)))
  = match JSON.parse_value fuel body with
    | Some (v, rest) =>
        match JSON.skip_ws rest with
        | String c r' =>
            if Ascii.eqb c "," then
              match JSON.parse_members fuel r' with
              | Some (l, rest') => Some ((k, v) :: l, rest')
              | None => None
              end
            else if Ascii.eqb c "}" then Some ([(k, v)], r')
            else None
        | EmptyString => None
        end
    | None => None
    end.
Proof.
  cbn [JSON.parse_members JSON.skip_ws].
  change (JSON.is_json_ws JSON.dquote) with false. cbv iota.
  change (Ascii.eqb JSON.dquote JSON.dquote) with true. cbv iota.
  rewrite parse_quote_body.
  reflexivity.
Qed.

Lemma starts_value_length (t : string) :
  starts_value t -> (1 <= String.length t)%nat.
Proof. destruct t; simpl; [contradiction|lia]. Qed.

Lemma elements_read_back (items : list value) :
  Forall reads_back items -> forallb plain items = true ->
  exists parts,
    (fix elems (l : list value) : res (list string) :=
       match l with
       | [] => Ok []
       | x :: r =>
           o <- JSON.stringify x ;;
           rest <- elems r ;;
           Ok (match o with Some t => t | None => "null" end :: rest)
       end) items = Ok parts /\
    (items = [] -> parts = []) /\
    (items <> [] -> starts_value (JSON.join_comma parts)) /\
    forall fuel rest,
      items <> [] ->
      (2 * String.length (JSON.join_comma parts) + 1 <= fuel)%nat ->
      JSON.parse_elements fuel (JSON.join_comma parts ++ String "]" rest)
      = Some (items, rest).
Proof.
  induction 1 as [|x r Hx Hr IH]; intros Hplain.
  - exists []. repeat split; try congruence.
  - cbn [forallb] in Hplain. apply andb_true_iff in Hplain.
    destruct Hplain as [Hpx Hpr].
    destruct (Hx Hpx) as [t [Ht [Hstart Hparse]]].
    destruct (IH Hpr) as [parts [Hparts [Hnil [Hstarts Hrest]]]].
    exists (t :: parts).
    rewrite Ht. cbn [JS.bind]. rewrite Hparts. cbn [JS.bind].
    split; [reflexivity|]. split; [discriminate|].
    assert (Hjoin : JSON.join_comma (t :: parts)
                    = match parts with
                      | [] => t
                      | _ :: _ => (t ++ "," ++ JSON.join_comma parts)%string
                      end).
    { unfold JSON.join_comma. destruct parts; reflexivity. }
    split.
    + intros _. rewrite Hjoin.
      destruct parts; [assumption|].
      destruct t; [contradiction|]. exact Hstart.
    + intros fuel rest _ Hfuel.
      destruct fuel as [|fuel]; [lia|].
      rewrite parse_elements_step.
      destruct r as [|y r'].
      * rewrite (Hnil eq_refl) in *. rewrite Hjoin in *.
        rewrite Hparse by (simpl; auto; lia).
        reflexivity.
      * assert (Hne : y :: r' <> []) by discriminate.
        destruct parts as [|p parts'].
        { specialize (Hstarts Hne). contradiction. }
        rewrite Hjoin in *.
        rewrite !append_assoc.
        rewrite !length_append in Hfuel. cbn [String.length] in Hfuel.
        rewrite Hparse by (simpl; auto; lia).
        cbn [String.append JSON.skip_ws].
        change (JSON.is_json_ws ",") with false. cbv iota.
        change (Ascii.eqb "," ",") with true. cbv iota.
        rewrite (Hrest fuel rest Hne) by lia.
        reflexivity.
Qed.

Lemma members_read_back (fields : list (string * value)) :
  Forall (fun kv => reads_back (snd kv)) fields ->
  forallb (fun kv => plain (snd kv)) fields = true ->
  exists parts,
    (fix props (l : list (string * value)) : res (list string) :=
       match l with
       | [] => Ok []
       | (k, x) :: r =>
           o <- JSON.stringify x ;;
           rest <- props r ;;
           Ok (match o with
               | Some t => (JSON.quote k ++ ":" ++ t) :: rest
               | None => rest
               end)
       end) fields = Ok parts /\
    (fields = [] -> parts = []) /\
    (fields <> [] ->
     exists tail, JSON.join_comma parts = String JSON.dquote tail) /\
    forall fuel rest,
      fields <> [] ->
      (2 * String.length (JSON.join_comma parts) + 1 <= fuel)%nat ->
      JSON.parse_members fuel (JSON.join_comma parts ++ String "}" rest)
      = Some (fields, rest).
Proof.
  induction 1 as [|[k x] r Hx Hr IH]; intros Hplain.
  - exists []. repeat split; try congruence.
  - cbn [forallb snd] in Hplain. apply andb_true_iff in Hplain.
    destruct Hplain as [Hpx Hpr]. cbn [snd] in Hx.
    destruct (Hx Hpx) as [t [Ht [Hstart Hparse]]].
    destruct (IH Hpr) as [parts [Hparts [Hnil [Hstarts Hrest]]]].
    exists ((JSON.quote k ++ ":" ++ t)%string :: parts).
    rewrite Ht. cbn [JS.bind]. rewrite Hparts. cbn [JS.bind].
    split; [reflexivity|]. split; [discriminate|].
    assert (Hjoin : forall p, JSON.join_comma (p :: parts)
                    = match parts with
                      | [] => p
                      | _ :: _ => (p ++ "," ++ JSON.join_comma parts)%string
                      end).
    { intros p. unfold JSON.join_comma. destruct parts; reflexivity. }
    split.
    + intros _. rewrite Hjoin. unfold JSON.quote.
      destruct parts; cbn [String.append]; eauto.
    + intros fuel rest _ Hfuel.
      destruct fuel as [|fuel]; [lia|].
      rewrite Hjoin in *.
      assert (Hlen : (String.length (JSON.quote k ++ ":" ++ t)
                      = String.length (JSON.quote k) + 1 + String.length t)%nat).
      { rewrite !length_append. simpl. lia. }
      destruct r as [|y r'].
      * rewrite (Hnil eq_refl) in *.
        unfold JSON.quote. cbn [String.append].
        rewrite !append_assoc. cbn [String.append].
        rewrite parse_members_step.
        rewrite Hparse by (simpl; auto; lia).
        reflexivity.
      * assert (Hne : y :: r' <> []) by discriminate.
        destruct parts as [|p parts'].
        { destruct (Hstarts Hne) as [tail Htail]. discriminate Htail. }
        rewrite !length_append in Hfuel. cbn [String.length] in Hfuel.
        unfold JSON.quote. cbn [String.append].
        rewrite !append_assoc. cbn [String.append].
        rewrite parse_members_step.
        rewrite Hparse by (simpl; auto; lia).
        cbn [String.append JSON.skip_ws].
        change (JSON.is_json_ws ",") with false. cbv iota.
        change (Ascii.eqb "," ",") with true. cbv iota.
        rewrite (Hrest fuel rest Hne) by lia.
        reflexivity.
Qed.

Lemma value_reads_back (v : value) : reads_back v.
Proof.
  induction v as [| |b|n|z|s|m|items IH|fields IH] using value_nested_ind;
    unfold reads_back; intros Hplain; try discriminate Hplain.
  - exists "null". split; [reflexivity|]. split; [now split|].
    intros [|fuel] rest Hfuel _; [simpl in Hfuel; lia|].
    apply (parse_value_literal fuel "null" VNull rest). auto.
  - exists (if b then "true" else "false").
    split; [reflexivity|]. split; [now destruct b; split|].
    intros [|fuel] rest Hfuel _; [destruct b; simpl in Hfuel; lia|].
    destruct b.
    + apply (parse_value_literal fuel "true" (VBool true) rest). auto.
    + apply (parse_value_literal fuel "false" (VBool false) rest). auto.
  - destruct n as [| |z]; try discriminate Hplain.
    exists (string_of_Z z). split; [reflexivity|].
    destruct (number_text_head z) as [c [r [Htext [_ [Hws Hclose]]]]].
    split; [rewrite Htext; now split|].
    intros [|fuel] rest Hfuel Hrest.
    + rewrite Htext in Hfuel. simpl in Hfuel. lia.
    + now apply parse_value_number.
  - exists (JSON.quote s). split; [reflexivity|]. split; [now split|].
    intros [|fuel] rest Hfuel _; [simpl in Hfuel; lia|].
    unfold JSON.quote. cbn [String.append]. rewrite append_assoc.
    apply parse_value_quote.
  - cbn [plain] in Hplain.
    destruct (elements_read_back items IH Hplain)
      as [parts [Hparts [Hnil [Hstarts Hread]]]].
    exists ("[" ++ JSON.join_comma parts ++ "]")%string.
    split; [cbn [JSON.stringify]; rewrite Hparts; reflexivity|].
    split; [now split|].
    intros [|fuel] rest Hfuel _; [simpl in Hfuel; lia|].
    cbn [String.append]. rewrite append_assoc. cbn [String.append].
    rewrite parse_value_array.
    destruct items as [|x r].
    + rewrite (Hnil eq_refl). reflexivity.
    + assert (Hne : x :: r <> []) by discriminate.
      specialize (Hstarts Hne).
      rewrite (skip_ws_value _ _ Hstarts).
      cbn [String.append String.length] in Hfuel.
      rewrite length_append in Hfuel. cbn [String.length] in Hfuel.
      destruct (JSON.join_comma parts) as [|c body] eqn:Hjoin;
        [contradiction|].
      destruct Hstarts as [_ Hclose]. cbn [String.append]. rewrite Hclose.
      change (String c (body ++ String "]" rest))
        with (String c body ++ String "]" rest)%string.
      rewrite <- Hjoin in *.
      rewrite (Hread fuel rest Hne) by lia.
      reflexivity.
  - cbn [plain] in Hplain.
    destruct (members_read_back fields IH Hplain)
      as [parts [Hparts [Hnil [Hstarts Hread]]]].
    exists ("{" ++ JSON.join_comma parts ++ "}")%string.
    split; [cbn [JSON.stringify]; rewrite Hparts; reflexivity|].
    split; [now split|].
    intros [|fuel] rest Hfuel _; [simpl in Hfuel; lia|].
    cbn [String.append]. rewrite append_assoc. cbn [String.append].
    rewrite parse_value_object.
    destruct fields as [|x r].
    + rewrite (Hnil eq_refl). reflexivity.
    + assert (Hne : x :: r <> []) by discriminate.
      destruct (Hstarts Hne) as [tail Htail].
      cbn [String.append String.length] in Hfuel.
      rewrite length_append in Hfuel. cbn [String.length] in Hfuel.
      specialize (Hread fuel rest Hne). rewrite Htail in *.
      cbn [String.append JSON.skip_ws].
      change (JSON.is_json_ws JSON.dquote) with false. cbv iota.
      change (Ascii.eqb JSON.dquote "}") with false. cbv iota.
      cbn [String.append] in Hread.
      rewrite Hread by lia.
      reflexivity.
Qed.

(** [JSON.parse(JSON.stringify(v))] for a value made of [null], booleans,
    integers, strings, arrays and objects. *)
Lemma parse_stringify (v : value) :
  plain v = true ->
  exists text,
    JSON.stringify v = Ok (Some text) /\
    JSON.parse text = Ok (JSON.normalize v).
Proof.
  intros Hplain.
  destruct (value_reads_back v Hplain) as [t [Ht [_ Hparse]]].
  exists t. split; [assumption|].
  unfold JSON.parse.
  specialize (Hparse (2 * String.length t + 2)%nat EmptyString).
  assert (Hnil : (t ++ "")%string = t).
  { clear. induction t as [|c t IH]; simpl; congruence. }
  rewrite Hnil in Hparse.
  rewrite Hparse by (simpl; auto; lia).
  reflexivity.
Qed.

(* ================================================================== *)
(** * The search engine: filters, order, suggestions and patterns      *)
(* ================================================================== *)

Import Memory MemorySearchEngine Spec Samples.

(** ** Sorting by a numeric key *)

Section SortByKey.

Context {A : Type}.
Variable comparefn : A -> A -> Q.
Variable key : A -> Z.
Hypothesis comparefn_key :
  forall a b, positive (comparefn a b) = (key b <? key a).

Lemma sort_insert_key_sorted (x : A) (racc : list A) :
  StronglySorted (fun a b => key b <= key a) racc ->
  StronglySorted (fun a b => key b <= key a) (sort_insert comparefn x racc).
Proof.
  induction racc as [|y r IH]; intros Hs; simpl.
  - constructor; constructor.
  - inversion Hs as [|? ? Hr Hy]; subst.
    rewrite comparefn_key.
    destruct (Z.ltb_spec (key x) (key y)) as [Hlt|Hge].
    + constructor; [now apply IH|].
      apply Forall_forall. intros z Hz.
      apply (Permutation_in _ (sort_insert_perm comparefn x r)) in Hz.
      destruct Hz as [<-|Hz]; [lia|].
      rewrite Forall_forall in Hy. now apply Hy.
    + constructor; [assumption|].
      constructor; [assumption|].
      rewrite Forall_forall in Hy |- *. intros z Hz.
      specialize (Hy z Hz). lia.
Qed.

Lemma sorted_rev (l : list A) :
  StronglySorted (fun a b => key b <= key a) l ->
  StronglySorted (fun a b => key a <= key b) (rev l).
Proof.
  induction l as [|x l IH]; intros Hs; simpl; [constructor|].
  inversion Hs as [|? ? Hl Hx]; subst.
  specialize (IH Hl).
  assert (Happ : forall l1 : list A,
             StronglySorted (fun a b => key a <= key b) l1 ->
             Forall (fun y => key y <= key x) l1 ->
             StronglySorted (fun a b => key a <= key b) (l1 ++ [x])).
  { induction l1 as [|z l1 IH1]; intros Hs1 Hall; simpl.
    - constructor; constructor.
    - inversion Hs1; subst. inversion Hall; subst.
      constructor; [now apply IH1|].
      apply Forall_app. split; [assumption|]. now constructor. }
  apply Happ; [assumption|].
  rewrite Forall_forall in Hx |- *. intros y Hy.
  apply Hx. now apply in_rev.
Qed.

(** [sort] with a comparison function that is positive exactly when its
    first argument has the greater key orders by ascending key. *)
Lemma sort_key_sorted (l : list A) :
  StronglySorted (fun a b => key a <= key b) (JS.sort comparefn l).
Proof.
  unfold JS.sort. apply sorted_rev.
  assert (H : forall acc,
             StronglySorted (fun a b => key b <= key a) acc ->
             StronglySorted (fun a b => key b <= key a)
               (fold_left (fun rprefix x => sort_insert comparefn x rprefix)
                          l acc)).
  { induction l as [|x l IH]; intros acc Hacc; simpl; [assumption|].
    apply IH. now apply sort_insert_key_sorted. }
  apply H. constructor.
Qed.

End SortByKey.

Lemma sorted_firstn {A} (R : A -> A -> Prop) (k : nat) (l : list A) :
  StronglySorted R l -> StronglySorted R (firstn k l).
Proof.
  revert k.
  induction l as [|x l IH]; intros [|k] Hs; simpl; try constructor.
  - inversion Hs; subst. now apply IH.
  - inversion Hs as [|? ? _ Hx]; subst.
    rewrite Forall_forall in Hx |- *. intros y Hy.
    apply Hx. rewrite <- (firstn_skipn k l). apply in_or_app. now left.
Qed.

Lemma sorted_weaken {A} (R R' : A -> A -> Prop) (l : list A) :
  (forall a b, R a b -> R' a b) ->
  StronglySorted R l -> StronglySorted R' l.
Proof.
  intros HR. induction 1 as [|x l Hl IH Hx]; constructor; [assumption|].
  rewrite Forall_forall in Hx |- *. auto.
Qed.

Lemma positive_inject (z : Z) : positive (inject_Z z) = (0 <? z).
Proof. reflexivity. Qed.

(** A comparison function that is never positive leaves the array as it
    is. *)
Lemma sort_never_positive {A} (comparefn : A -> A -> Q) (l : list A) :
  (forall a b, positive (comparefn a b) = false) -> JS.sort comparefn l = l.
Proof.
  intros Hc. unfold JS.sort.
  assert (H : forall acc,
             fold_left (fun rprefix x => sort_insert comparefn x rprefix) l acc
             = (rev l ++ acc)%list).
  { induction l as [|x l IH]; intros acc; simpl; [reflexivity|].
    rewrite IH. rewrite <- app_assoc. simpl.
    destruct acc as [|y r]; simpl; [reflexivity|].
    now rewrite Hc. }
  rewrite H, app_nil_r. apply rev_involutive.
Qed.

Lemma slice0_count {A} (l : list A) (e : Z) :
  0 <= e -> slice0 l e = firstn (Z.to_nat e) l.
Proof.
  intros He. unfold slice0.
  destruct (Z.ltb_spec e 0) as [Hneg|_]; [lia|].
  destruct (Z.le_gt_cases e (Z.of_nat (List.length l))) as [Hle|Hgt].
  - now rewrite Z.min_l.
  - rewrite Z.min_r by lia. rewrite Nat2Z.id.
    rewrite firstn_all. symmetry. apply firstn_all2. lia.
Qed.

(** ** [search]: the limit *)

Lemma matchesOptions_set_limit (options : SearchOptions) (l : option Z)
    (e : MemoryEntry) :
  matchesOptions (set_limit options l) e = matchesOptions options e.
Proof. reflexivity. Qed.

(** X1.  [search] truncates after filtering and sorting: with
    [limit: l] and [l > 0] the entries are the first [l] entries of the
    result of the same search without a limit; a limit that is zero or
    negative is not applied. *)
Theorem search_limit_takes_the_first :
  forall (self : MemorySearchEngine.t) (options : SearchOptions) (t0 t1 : Z),
    entries (search self options t0 t1)
    = match limit options with
      | Some l =>
          if 0 <? l
          then firstn (Z.to_nat l)
                      (entries (search self (set_limit options None) t0 t1))
          else entries (search self (set_limit options None) t0 t1)
      | None => entries (search self (set_limit options None) t0 t1)
      end.
Proof.
  intros self options t0 t1.
  unfold search, search_try.
  assert (Hf : filterM (matchesOptions (set_limit options None))
                       (memoryEntries self)
               = filterM (matchesOptions options) (memoryEntries self)).
  { reflexivity. }
  rewrite Hf.
  destruct (filterM (matchesOptions options) (memoryEntries self))
    as [matched|err]; simpl.
  - destruct (limit options) as [l|]; [|reflexivity].
    destruct (Z.ltb_spec 0 l) as [Hpos|Hle].
    + replace (l =? 0) with false by (symmetry; apply Z.eqb_neq; lia).
      simpl. apply slice0_count. lia.
    + now rewrite andb_false_r.
  - destruct (limit options) as [l|]; [|reflexivity].
    destruct (0 <? l); [now rewrite firstn_nil|reflexivity].
Qed.

(** ** [search]: what every returned entry satisfies *)

Lemma matchesOptions_true (options : SearchOptions) (e : MemoryEntry) :
  matchesOptions options e = Ok true ->
  matchTimeframe e (timeframe options) = true /\
  match successOnly options with
  | None => True
  | Some b => success (metadata e) = b
  end /\
  matchDuration e (minDuration options) (maxDuration options) = true.
Proof.
  unfold matchesOptions.
  destruct (if falsy_string (query options) then Ok true
            else match query options with
                 | Some q => matchesTextQuery e q
                 | None => Ok true
                 end) as [textMatch|err]; cbn [JS.bind]; [|discriminate].
  intros H. injection H as Hb.
  repeat rewrite andb_true_iff in Hb.
  destruct Hb as [[[[_ Htf] Hs] _] Hd].
  split; [assumption|]. split; [|assumption].
  destruct (successOnly options) as [b|]; [|exact I].
  now apply Bool.eqb_prop.
Qed.

(** X2.  With a [timeframe], every entry that [search] returns has its
    [timestamp] at or after a [start] that is not zero and at or before
    an [end] that is not zero (both bounds are inclusive); a bound that
    is zero or left out is not applied, so that a [timeframe] whose bounds
    are both of that kind accepts every entry. *)
Theorem search_timeframe_bounds :
  forall (self : MemorySearchEngine.t) (options : SearchOptions) (t0 t1 : Z)
         (tf : Timeframe),
    timeframe options = Some tf ->
    (forall e, In e (entries (search self options t0 t1)) ->
       (forall s, tf_start tf = Some s -> s <> 0 -> s <= timestamp e) /\
       (forall x, tf_end tf = Some x -> x <> 0 -> timestamp e <= x)) /\
    (falsy_number (tf_start tf) = true ->
     falsy_number (tf_end tf) = true ->
     forall e, matchTimeframe e (timeframe options) = true).
Proof.
  intros self options t0 t1 tf Htf. split.
  - intros e He.
    destruct (search_entries_In _ _ _ _ _ He) as [_ Hm].
    apply matchesOptions_true in Hm. destruct Hm as [Hm _].
    rewrite Htf in Hm. unfold matchTimeframe in Hm.
    apply andb_true_iff in Hm. destruct Hm as [Hs Hx].
    split.
    + intros s Hstart Hnz. rewrite Hstart in Hs. simpl in Hs.
      apply orb_true_iff in Hs. destruct Hs as [Hs|Hs].
      * apply Z.eqb_eq in Hs. contradiction.
      * now apply Z.leb_le.
    + intros x Hend Hnz. rewrite Hend in Hx. simpl in Hx.
      apply orb_true_iff in Hx. destruct Hx as [Hx|Hx].
      * apply Z.eqb_eq in Hx. contradiction.
      * now apply Z.leb_le.
  - intros Hs Hx e. rewrite Htf. unfold matchTimeframe.
    now rewrite Hs, Hx.
Qed.

Lemma search_timeframe_bounds_witness :
  entries (search (new [created; deploy]) (with_timeframe (Some 1500) None)
                  0 1)
  = [deploy] /\
  (In deploy
      (entries (search (new [created; deploy])
                       (with_timeframe (Some 1500) None) 0 1)) ->
   1500 <= timestamp deploy).
Proof.
  split; [reflexivity|].
  intros He.
  apply (proj1 (proj1 (search_timeframe_bounds (new [created; deploy])
                         (with_timeframe (Some 1500) None) 0 1
                         {| tf_start := Some 1500; tf_end := None |}
                         eq_refl)
                  deploy He)
           1500 eq_refl).
  discriminate.
Defined.

(** X3.  Every entry that [search] returns has a [duration] that is at
    least a [minDuration] that is not zero and at most a [maxDuration]
    that is not zero; a bound that is zero or left out is not applied. *)
Theorem search_duration_bounds :
  forall (self : MemorySearchEngine.t) (options : SearchOptions) (t0 t1 : Z),
    (forall e, In e (entries (search self options t0 t1)) ->
       (forall m, minDuration options = Some m -> m <> 0 ->
                  m <= duration (metadata e)) /\
       (forall m, maxDuration options = Some m -> m <> 0 ->
                  duration (metadata e) <= m)) /\
    (falsy_number (minDuration options) = true ->
     falsy_number (maxDuration options) = true ->
     forall e,
       matchDuration e (minDuration options) (maxDuration options) = true).
Proof.
  intros self options t0 t1. split.
  - intros e He.
    destruct (search_entries_In _ _ _ _ _ He) as [_ Hm].
    apply matchesOptions_true in Hm. destruct Hm as [_ [_ Hm]].
    unfold matchDuration in Hm.
    split.
    + intros m Hmin Hnz. rewrite Hmin in Hm. simpl in Hm.
      replace (m =? 0) with false in Hm
        by (symmetry; now apply Z.eqb_neq).
      simpl in Hm.
      destruct (Z.ltb_spec (duration (metadata e)) m); [discriminate|lia].
    + intros m Hmax Hnz.
      destruct (negb (falsy_number (minDuration options)) &&
                match minDuration options with
                | Some m0 => duration (metadata e) <? m0
                | None => false
                end)%bool; [discriminate|].
      rewrite Hmax in Hm. simpl in Hm.
      replace (m =? 0) with false in Hm
        by (symmetry; now apply Z.eqb_neq).
      simpl in Hm.
      destruct (Z.ltb_spec m (duration (metadata e))); [discriminate|lia].
  - intros Hmin Hmax e. unfold matchDuration.
    now rewrite Hmin, Hmax.
Qed.

(** ** [search]: the order of the results *)

Lemma compareEntries_key (by_ order : string) (a b : MemoryEntry) :
  by_ = "timestamp" \/ by_ = "duration" ->
  compareEntries by_ order a b
  = if (order =? "asc")%string
    then sort_key by_ a - sort_key by_ b
    else - (sort_key by_ a - sort_key by_ b).
Proof.
  intros [->| ->]; reflexivity.
Qed.

Lemma sortResults_by_key (l : list MemoryEntry) (by_ : string)
    (order : option string) :
  by_ = "timestamp" \/ by_ = "duration" ->
  StronglySorted
    (fun a b => in_order order (sort_key by_ a) (sort_key by_ b))
    (sortResults l (Some by_) order).
Proof.
  intros Hby. unfold sortResults.
  replace (by_ =? "")%string with false
    by (destruct Hby as [->| ->]; reflexivity).
  set (o := match order with Some o => o | None => "desc" end).
  destruct (o =? "asc")%string eqn:Ho.
  - apply (sorted_weaken
             (fun a b => sort_key by_ a <= sort_key by_ b)).
    + intros a b Hab. unfold in_order.
      destruct order as [o'|]; [|discriminate Ho].
      subst o. now rewrite Ho.
    + apply sort_key_sorted. intros a b.
      rewrite positive_inject, (compareEntries_key _ _ _ _ Hby), Ho.
      destruct (Z.ltb_spec 0 (sort_key by_ a - sort_key by_ b));
        destruct (Z.ltb_spec (sort_key by_ b) (sort_key by_ a));
        try reflexivity; lia.
  - apply (sorted_weaken
             (fun a b => - sort_key by_ a <= - sort_key by_ b)).
    + intros a b Hab. unfold in_order.
      destruct order as [o'|]; [subst o; rewrite Ho|]; lia.
    + apply (sort_key_sorted _ (fun e => - sort_key by_ e)). intros a b.
      rewrite positive_inject, (compareEntries_key _ _ _ _ Hby), Ho.
      destruct (Z.ltb_spec 0 (- (sort_key by_ a - sort_key by_ b)));
        destruct (Z.ltb_spec (- sort_key by_ b) (- sort_key by_ a));
        try reflexivity; lia.
Qed.

Lemma sortResults_perm (l : list MemoryEntry) by_ order :
  Permutation (sortResults l by_ order) l.
Proof.
  unfold sortResults.
  destruct by_ as [b|]; [|apply Permutation_refl].
  destruct (b =? "")%string; [apply Permutation_refl|].
  apply sort_perm.
Qed.

Lemma sortResults_other_key (l : list MemoryEntry) (by_ : string) order :
  by_ <> "timestamp" -> by_ <> "duration" -> by_ <> "relevance" ->
  sortResults l (Some by_) order = l.
Proof.
  intros H1 H2 H3. unfold sortResults.
  destruct (by_ =? "")%string; [reflexivity|].
  apply sort_never_positive. intros a b.
  unfold compareEntries.
  apply String.eqb_neq in H1. apply String.eqb_neq in H2.
  apply String.eqb_neq in H3.
  now rewrite H1, H2, H3.
Qed.

(** X4.  Under [sortBy: 'timestamp'] and under [sortBy: 'duration'] the
    entries that [search] returns are ordered by that key: ascending for
    [sortOrder: 'asc'], descending for every other [sortOrder] and when
    none is given.  Sorting loses and adds nothing (the sorted array is a
    rearrangement of the matches), and a [sortBy] that is none of
    'timestamp', 'duration' and 'relevance' leaves the matches in the
    order of the working set. *)
Theorem search_orders_by_the_key :
  forall (self : MemorySearchEngine.t) (options : SearchOptions) (t0 t1 : Z),
    (forall by_, sortBy options = Some by_ ->
       by_ = "timestamp" \/ by_ = "duration" ->
       StronglySorted
         (fun a b =>
            in_order (sortOrder options) (sort_key by_ a) (sort_key by_ b))
         (entries (search self options t0 t1))) /\
    (forall l by_ order, Permutation (sortResults l by_ order) l) /\
    (forall l by_ order,
       by_ <> "timestamp" -> by_ <> "duration" -> by_ <> "relevance" ->
       sortResults l (Some by_) order = l).
Proof.
  intros self options t0 t1. split; [|split].
  - intros by_ Hsort Hby.
    unfold search, search_try.
    destruct (filterM (matchesOptions options) (memoryEntries self))
      as [matched|err]; simpl; [|constructor].
    rewrite Hsort.
    pose proof (sortResults_by_key matched by_ (sortOrder options) Hby)
      as Hsorted.
    destruct (limit options) as [l|]; [|assumption].
    destruct (negb (l =? 0) && (0 <? l))%bool; [|assumption].
    unfold slice0. now apply sorted_firstn.
  - apply sortResults_perm.
  - apply sortResults_other_key.
Qed.

(** ** Sets of strings: [new Set(...)] *)

Lemma existsb_eqb_In (x : string) (l : list string) :
  existsb (String.eqb x) l = true <-> In x l.
Proof.
  rewrite existsb_exists. split.
  - intros [y [Hy He]]. apply String.eqb_eq in He. now subst.
  - intros H. exists x. split; [assumption|apply String.eqb_refl].
Qed.

Lemma dedupe_from_In (seen l : list string) (x : string) :
  In x (dedupe_from seen l) <-> In x l /\ ~ In x seen.
Proof.
  revert seen. induction l as [|y l IH]; intros seen; simpl.
  - tauto.
  - destruct (existsb (String.eqb y) seen) eqn:Hy.
    + apply existsb_eqb_In in Hy. rewrite IH.
      split; [tauto|]. intros [[->|Hx] Hn]; tauto.
    + assert (Hny : ~ In y seen).
      { intros H. apply existsb_eqb_In in H. congruence. }
      simpl. rewrite IH. simpl.
      split.
      * intros [->|[Hx Hn]]; [tauto|]. split; [tauto|]. tauto.
      * intros [[->|Hx] Hn]; [tauto|].
        destruct (string_dec y x) as [->|Hne]; [tauto|]. right.
        split; [assumption|]. intros [H|H]; tauto.
Qed.

Lemma dedupe_from_NoDup (seen l : list string) : NoDup (dedupe_from seen l).
Proof.
  revert seen. induction l as [|y l IH]; intros seen; simpl.
  - constructor.
  - destruct (existsb (String.eqb y) seen); [apply IH|].
    constructor; [|apply IH].
    rewrite dedupe_from_In. simpl. tauto.
Qed.

Lemma dedupe_In (l : list string) (x : string) : In x (dedupe l) <-> In x l.
Proof. unfold dedupe. rewrite dedupe_from_In. simpl. tauto. Qed.

Lemma dedupe_NoDup (l : list string) : NoDup (dedupe l).
Proof. apply dedupe_from_NoDup. Qed.

Lemma NoDup_firstn {A} (k : nat) (l : list A) : NoDup l -> NoDup (firstn k l).
Proof.
  revert k. induction l as [|x l IH]; intros [|k] Hl; simpl;
    try constructor.
  - inversion Hl; subst. intros Hin. apply H1.
    rewrite <- (firstn_skipn k l). apply in_or_app. now left.
  - inversion Hl; subst. now apply IH.
Qed.

Lemma firstn_In {A} (k : nat) (l : list A) (x : A) :
  In x (firstn k l) -> In x l.
Proof.
  intros H. rewrite <- (firstn_skipn k l). apply in_or_app. now left.
Qed.

Lemma firstn_short {A} (k : nat) (l : list A) :
  (List.length (firstn k l) < k)%nat -> firstn k l = l.
Proof.
  intros H. rewrite length_firstn in H.
  apply firstn_all2. lia.
Qed.

(** ** [getSuggestions] *)

(** X5.  [getSuggestions] returns nothing for a query of fewer than two
    characters.  Otherwise it returns at most ten strings, none of them
    twice; each one contains the query, letter case ignored, and is the
    task of an entry of the working set or one of its tags.  When fewer
    than ten are returned, the task of every entry whose task contains
    the query is among them. *)
Theorem getSuggestions_sound :
  forall (self : MemorySearchEngine.t) (query : string),
    ((String.length query < 2)%nat -> getSuggestions self query = []) /\
    (List.length (getSuggestions self query) <= 10)%nat /\
    NoDup (getSuggestions self query) /\
    (forall s, In s (getSuggestions self query) ->
       includes (toLowerCase s) (toLowerCase query) = true /\
       exists e, In e (memoryEntries self) /\ (s = task e \/ has_tag e s)) /\
    ((List.length (getSuggestions self query) < 10)%nat ->
     (2 <= String.length query)%nat ->
     forall e, In e (memoryEntries self) ->
       includes (toLowerCase (task e)) (toLowerCase query) = true ->
       In (task e) (getSuggestions self query)).
Proof.
  intros self query. unfold getSuggestions.
  split.
  { intros Hshort.
    replace (Nat.ltb (String.length query) 2) with true
      by (symmetry; now apply Nat.ltb_lt).
    now rewrite orb_true_r. }
  destruct ((query =? "")%string || Nat.ltb (String.length query) 2)%bool
    eqn:Hguard.
  { split; [simpl; lia|]. split; [constructor|].
    split; [intros s []|].
    intros _ Hlong. apply orb_true_iff in Hguard.
    destruct Hguard as [Hq|Hq].
    - apply String.eqb_eq in Hq. subst. simpl in Hlong. lia.
    - apply Nat.ltb_lt in Hq. lia. }
  rewrite slice0_count by lia.
  change (Z.to_nat 10) with 10%nat.
  split; [rewrite length_firstn; lia|].
  split; [apply NoDup_firstn, dedupe_NoDup|].
  split.
  - intros s Hs. apply firstn_In in Hs.
    apply (proj1 (dedupe_In _ _)) in Hs.
    apply in_app_or in Hs. destruct Hs as [Hs|Hs].
    + apply in_map_iff in Hs. destruct Hs as [e [<- He]].
      apply filter_In in He. destruct He as [He Hinc].
      split; [assumption|]. exists e. auto.
    + apply in_flat_map in Hs. destruct Hs as [e [He Hs]].
      destruct (Memory.tags (metadata e)) as [ts|] eqn:Hts; [|contradiction].
      apply filter_In in Hs. destruct Hs as [Hs Hinc].
      split; [assumption|]. exists e. split; [assumption|].
      right. exists ts. auto.
  - intros Hfew _ e He Hinc.
    rewrite (firstn_short _ _ Hfew).
    apply dedupe_In. apply in_or_app. left.
    apply in_map. apply filter_In. auto.
Qed.

(** ** [findMatchedTerms] *)

(** X6.  The matched terms of two texts are exactly the words of more
    than two characters that the two texts have in common once they are
    put in lower case and split at white space; no term is listed
    twice. *)
Theorem findMatchedTerms_common_words :
  forall (str1 str2 : string),
    NoDup (findMatchedTerms str1 str2) /\
    forall w,
      In w (findMatchedTerms str1 str2) <->
      In w (split_ws (toLowerCase str1)) /\
      In w (split_ws (toLowerCase str2)) /\
      (2 < String.length w)%nat.
Proof.
  intros str1 str2. unfold findMatchedTerms.
  split; [apply dedupe_NoDup|].
  intros w. rewrite dedupe_In, in_flat_map.
  split.
  - intros [w1 [H1 Hw]]. apply in_flat_map in Hw.
    destruct Hw as [w2 [H2 Hw]].
    destruct ((w1 =? w2)%string && Nat.ltb 2 (String.length w1))%bool
      eqn:Hc; [|contradiction].
    destruct Hw as [<-|[]].
    apply andb_true_iff in Hc. destruct Hc as [Heq Hlen].
    apply String.eqb_eq in Heq. apply Nat.ltb_lt in Hlen. subst w2.
    auto.
  - intros [H1 [H2 Hlen]]. exists w. split; [assumption|].
    apply in_flat_map. exists w. split; [assumption|].
    rewrite String.eqb_refl.
    replace (Nat.ltb 2 (String.length w)) with true
      by (symmetry; now apply Nat.ltb_lt).
    now left.
Qed.

(** ** The similarity measure *)

Lemma Q_of_nat_le (a b : nat) : (a <= b)%nat -> (Q_of_nat a <= Q_of_nat b)%Q.
Proof.
  intros H. unfold Q_of_nat. rewrite <- Zle_Qle. lia.
Qed.

Lemma Q_of_nat_pos (a : nat) : (0 < a)%nat -> (0 < Q_of_nat a)%Q.
Proof.
  intros H. unfold Q_of_nat. change 0%Q with (inject_Z 0).
  rewrite <- Zlt_Qlt. lia.
Qed.

Lemma Q_ratio_bounds (x y : Q) :
  (0 <= x)%Q -> (x <= y)%Q -> (0 < y)%Q ->
  (0 <= x / y)%Q /\ (x / y <= 1)%Q /\ ((x / y == 0)%Q <-> (x == 0)%Q).
Proof.
  intros H0 Hxy Hy.
  split; [|split].
  - apply Qle_shift_div_l; [assumption|]. lra.
  - apply Qle_shift_div_r; [assumption|]. lra.
  - split.
    + intros H.
      assert (Hny : ~ (y == 0)%Q) by (apply Qnot_eq_sym, Qlt_not_eq, Hy).
      rewrite <- (Qmult_div_r x y Hny).
      rewrite H. apply Qmult_0_r.
    + intros ->. unfold Qdiv. apply Qmult_0_l.
Qed.

Lemma ratio_bounds (d n : nat) :
  (d <= n)%nat -> (0 < n)%nat ->
  (0 <= Q_of_nat d / Q_of_nat n)%Q /\ (Q_of_nat d / Q_of_nat n <= 1)%Q /\
  ((Q_of_nat d / Q_of_nat n == 0)%Q <-> d = O).
Proof.
  intros Hle Hpos.
  pose proof (Q_of_nat_pos n Hpos) as Hn.
  pose proof (Q_of_nat_le 0 d (Nat.le_0_l d)) as Hd0.
  pose proof (Q_of_nat_le d n Hle) as Hdn.
  change (Q_of_nat 0) with 0%Q in Hd0.
  destruct (Q_ratio_bounds _ _ Hd0 Hdn Hn) as [H1 [H2 H3]].
  split; [assumption|]. split; [assumption|].
  rewrite H3. unfold Q_of_nat. change 0%Q with (inject_Z 0).
  split.
  - intros Hz. apply (proj1 (inject_Z_injective _ _)) in Hz. lia.
  - intros ->. reflexivity.
Qed.

Lemma length_zero_empty (s : string) : String.length s = O -> s = "".
Proof. destruct s; [reflexivity|discriminate]. Qed.

Lemma calculateSimilarity_unit (str1 str2 : string) :
  (0 <= calculateSimilarity str1 str2)%Q /\
  (calculateSimilarity str1 str2 <= 1)%Q /\
  ((calculateSimilarity str1 str2 == 1)%Q <->
   toLowerCase str1 = toLowerCase str2).
Proof.
  rewrite !calculateSimilarity_spec. unfold similarity_spec.
  set (a := toLowerCase str1). set (b := toLowerCase str2).
  set (n := Nat.max (String.length a) (String.length b)).
  assert (Hbound : (levenshtein a b <= n)%nat)
    by apply prefix_distance_bound.
  destruct (Nat.eqb_spec n 0) as [Hz|Hnz].
  - split; [lra|]. split; [lra|].
    split; [|reflexivity]. intros _.
    rewrite (length_zero_empty a) by lia.
    rewrite (length_zero_empty b) by lia. reflexivity.
  - destruct (ratio_bounds (levenshtein a b) n Hbound) as [H0 [H1 Hzero]];
      [lia|].
    split; [lra|]. split; [lra|].
    rewrite <- levenshtein_zero_iff, <- Hzero.
    split; intros H; lra.
Qed.


(** ** [findSimilarTasks]: nothing is lost below the limit *)

Lemma slice0_all {A} (l : list A) (e : Z) :
  Z.of_nat (List.length l) <= e -> slice0 l e = l.
Proof.
  intros H. rewrite slice0_count by lia.
  apply firstn_all2. lia.
Qed.

Lemma similarCandidates_length self task_ threshold :
  (List.length (similarCandidates self task_ threshold)
   <= List.length (memoryEntries self))%nat.
Proof.
  unfold similarCandidates.
  induction (memoryEntries self) as [|e l IH]; simpl; [lia|].
  rewrite length_app.
  destruct (Qle_bool threshold (calculateSimilarity (task e) task_));
    simpl; lia.
Qed.


(** ** The indexes of the engine *)

Lemma index_add_get (key id_ : string) (ix : index) (k x : string) :
  In x (index_get k (index_add key id_ ix)) <->
  In x (index_get k ix) \/ (k = key /\ x = id_).
Proof.
  induction ix as [|[k0 ids] r IH]; simpl.
  - destruct (String.eqb_spec k key) as [->|Hne]; simpl.
    + split; [intros [<-|[]]; auto|]. intros [[]|[_ ->]]. now left.
    + split; [intros []|]. intros [[]|[Hk _]]. contradiction.
  - destruct (String.eqb_spec key k0) as [->|Hne]; simpl.
    + destruct (String.eqb_spec k k0) as [->|Hk].
      * destruct (arr_includes ids id_) eqn:Hinc.
        -- apply arr_includes_In in Hinc.
           split; [auto|]. intros [H|[_ ->]]; assumption.
        -- rewrite in_app_iff. simpl.
           split; [intros [H|[<-|[]]]; auto|].
           intros [H|[_ ->]]; auto.
      * split; [auto|]. intros [H|[Hk' _]]; [assumption|contradiction].
    + destruct (String.eqb_spec k k0) as [->|Hk].
      * split; [auto|]. intros [H|[Hk' _]]; [assumption|].
        subst. contradiction.
      * apply IH.
Qed.

Lemma NoDup_snoc (ids : list string) (x : string) :
  NoDup ids -> ~ In x ids -> NoDup (ids ++ [x]).
Proof.
  intros Hids Hnot.
  induction ids as [|y ids IH]; simpl.
  - constructor; [intros []|constructor].
  - inversion Hids; subst. constructor.
    + rewrite in_app_iff. simpl. intros [H|[H|[]]]; [contradiction|].
      subst. apply Hnot. now left.
    + apply IH; [assumption|]. intros H. apply Hnot. now right.
Qed.

Lemma index_add_sets (key id_ : string) (ix : index) :
  Forall (fun kv => NoDup (snd kv)) ix ->
  Forall (fun kv => NoDup (snd kv)) (index_add key id_ ix).
Proof.
  induction 1 as [|[k0 ids] r Hids Hr IH]; simpl.
  - constructor; [|constructor]. simpl.
    constructor; [intros []|constructor].
  - destruct (key =? k0)%string.
    + constructor; [|assumption]. simpl in *.
      destruct (arr_includes ids id_) eqn:Hinc; [assumption|].
      apply NoDup_snoc; [assumption|].
      intros H. apply arr_includes_In in H. congruence.
    + constructor; assumption.
Qed.

Lemma index_get_NoDup (k : string) (ix : index) :
  Forall (fun kv => NoDup (snd kv)) ix -> NoDup (index_get k ix).
Proof.
  induction 1 as [|[k0 ids] r Hids Hr IH]; simpl; [constructor|].
  destruct (k =? k0)%string; assumption.
Qed.

Lemma buildSearchIndex_split (es : list MemoryEntry) (words_ tags_ : index) :
  fold_left
    (fun acc entry =>
       let '(words_, tags_) := acc in
       (fold_left
          (fun ix word =>
             if Nat.ltb 2 (String.length word)
             then index_add word (id entry) ix else ix)
          (split_ws (toLowerCase (task entry))) words_,
        match Memory.tags (metadata entry) with
        | Some ts => fold_left (fun ix tag => index_add tag (id entry) ix)
                               ts tags_
        | None => tags_
        end))
    es (words_, tags_)
  = (fold_left
       (fun words_ entry =>
          fold_left
            (fun ix word =>
               if Nat.ltb 2 (String.length word)
               then index_add word (id entry) ix else ix)
            (split_ws (toLowerCase (task entry))) words_)
       es words_,
     fold_left
       (fun tags_ entry =>
          match Memory.tags (metadata entry) with
          | Some ts => fold_left (fun ix tag => index_add tag (id entry) ix)
                                 ts tags_
          | None => tags_
          end)
       es tags_).
Proof.
  revert words_ tags_.
  induction es as [|e es IH]; intros words_ tags_; simpl; [reflexivity|].
  apply IH.
Qed.

(** The index after the words [ws] of one entry were added. *)
Lemma index_words_get (ws : list string) (id_ : string) (ix : index)
    (k x : string) :
  In x (index_get k
          (fold_left
             (fun ix word =>
                if Nat.ltb 2 (String.length word)
                then index_add word id_ ix else ix)
             ws ix)) <->
  In x (index_get k ix) \/
  (x = id_ /\ In k ws /\ (2 < String.length k)%nat).
Proof.
  revert ix. induction ws as [|w ws IH]; intros ix; simpl.
  - tauto.
  - rewrite IH.
    destruct (Nat.ltb_spec 2 (String.length w)) as [Hlen|Hlen].
    + rewrite index_add_get.
      split.
      * intros [[H|[-> ->]]|[-> [Hin Hk]]]; auto.
      * intros [H|[-> [[->|Hin] Hk]]]; auto.
    + split.
      * intros [H|[-> [Hin Hk]]]; auto.
      * intros [H|[-> [[->|Hin] Hk]]]; auto. lia.
Qed.

Lemma index_tags_get (ts : list string) (id_ : string) (ix : index)
    (k x : string) :
  In x (index_get k
          (fold_left (fun ix tag => index_add tag id_ ix) ts ix)) <->
  In x (index_get k ix) \/ (x = id_ /\ In k ts).
Proof.
  revert ix. induction ts as [|w ts IH]; intros ix; simpl.
  - tauto.
  - rewrite IH, index_add_get.
    split.
    + intros [[H|[-> ->]]|[-> Hin]]; auto.
    + intros [H|[-> [->|Hin]]]; auto.
Qed.

Lemma index_words_sets (ws : list string) (id_ : string) (ix : index) :
  Forall (fun kv => NoDup (snd kv)) ix ->
  Forall (fun kv => NoDup (snd kv))
    (fold_left
       (fun ix word =>
          if Nat.ltb 2 (String.length word)
          then index_add word id_ ix else ix)
       ws ix).
Proof.
  revert ix. induction ws as [|w ws IH]; intros ix Hix; simpl;
    [assumption|].
  apply IH. destruct (Nat.ltb 2 (String.length w)); [|assumption].
  now apply index_add_sets.
Qed.

Lemma index_tags_sets (ts : list string) (id_ : string) (ix : index) :
  Forall (fun kv => NoDup (snd kv)) ix ->
  Forall (fun kv => NoDup (snd kv))
    (fold_left (fun ix tag => index_add tag id_ ix) ts ix).
Proof.
  revert ix. induction ts as [|w ts IH]; intros ix Hix; simpl;
    [assumption|].
  apply IH. now apply index_add_sets.
Qed.

(** X9.  The two indexes that the engine builds from its working set
    hold, under a word, the ids of exactly the entries whose task has
    that word (in lower case, split at white space, more than two
    characters long) and, under a tag, the ids of exactly the entries
    that carry the tag; no id is held twice under a key.  [updateEntries]
    rebuilds both from the new working set alone. *)
Theorem buildSearchIndex_exact :
  forall (es : list MemoryEntry) (key id_ : string),
    (In id_ (index_get key (searchIndex (new es))) <->
     exists e, In e es /\ id e = id_ /\
               In key (split_ws (toLowerCase (task e))) /\
               (2 < String.length key)%nat) /\
    (In id_ (index_get key (tagIndex (new es))) <->
     exists e, In e es /\ id e = id_ /\ has_tag e key) /\
    NoDup (index_get key (searchIndex (new es))) /\
    NoDup (index_get key (tagIndex (new es))) /\
    (forall self, updateEntries self es = new es).
Proof.
  intros es key id_.
  rewrite <- !and_assoc. split; [|reflexivity]. rewrite !and_assoc.
  unfold new, buildSearchIndex. cbn [searchIndex tagIndex].
  rewrite buildSearchIndex_split. cbn [fst snd].
  assert (Hwords : forall ix,
    In id_ (index_get key
      (fold_left
         (fun words_ entry =>
            fold_left
              (fun ix word =>
                 if Nat.ltb 2 (String.length word)
                 then index_add word (id entry) ix else ix)
              (split_ws (toLowerCase (task entry))) words_)
         es ix)) <->
    In id_ (index_get key ix) \/
    exists e, In e es /\ id e = id_ /\
              In key (split_ws (toLowerCase (task e))) /\
              (2 < String.length key)%nat).
  { induction es as [|e es' IH]; intros ix; simpl.
    - split; [auto|]. intros [H|[e [[] _]]]. assumption.
    - rewrite IH, index_words_get.
      split.
      + intros [[H|[Hid [Hin Hlen]]]|[e' [He' H]]].
        * now left.
        * right. exists e. split; [now left|]. split; [now symmetry|]. auto.
        * right. exists e'. split; [now right|assumption].
      + intros [H|[e' [[<-|He'] [Hid [Hin Hlen]]]]].
        * now left; left.
        * left; right. auto.
        * right. exists e'. auto. }
  assert (Htags : forall ix,
    In id_ (index_get key
      (fold_left
         (fun tags_ entry =>
            match Memory.tags (metadata entry) with
            | Some ts => fold_left (fun ix tag => index_add tag (id entry) ix)
                                   ts tags_
            | None => tags_
            end)
         es ix)) <->
    In id_ (index_get key ix) \/
    exists e, In e es /\ id e = id_ /\ has_tag e key).
  { clear Hwords. induction es as [|e es' IH]; intros ix; simpl.
    - split; [auto|]. intros [H|[e [[] _]]]. assumption.
    - rewrite IH. unfold has_tag.
      destruct (Memory.tags (metadata e)) as [ts|] eqn:Hts.
      + rewrite index_tags_get.
        split.
        * intros [[H|[Hid Hin]]|[e' [He' H]]].
          -- now left.
          -- right. exists e. split; [now left|]. split; [now symmetry|].
             exists ts. auto.
          -- right. exists e'. split; [now right|assumption].
        * intros [H|[e' [[<-|He'] [Hid [ts' [Hts' Hin]]]]]].
          -- now left; left.
          -- left; right. rewrite Hts in Hts'. injection Hts' as <-. auto.
          -- right. exists e'. split; [assumption|]. split; [assumption|].
             exists ts'. auto.
      + split.
        * intros [H|[e' [He' H]]].
          -- now left.
          -- right. exists e'. split; [now right|assumption].
        * intros [H|[e' [[<-|He'] [Hid [ts' [Hts' Hin]]]]]].
          -- now left.
          -- congruence.
          -- right. exists e'. split; [assumption|]. split; [assumption|].
             exists ts'. auto. }
  split; [|split; [|split]].
  - rewrite Hwords. simpl. tauto.
  - rewrite Htags. simpl. tauto.
  - apply index_get_NoDup.
    assert (H : forall ix, Forall (fun kv => NoDup (snd kv)) ix ->
      Forall (fun kv => NoDup (snd kv))
        (fold_left
           (fun words_ entry =>
              fold_left
                (fun ix word =>
                   if Nat.ltb 2 (String.length word)
                   then index_add word (id entry) ix else ix)
                (split_ws (toLowerCase (task entry))) words_)
           es ix)).
    { clear. induction es as [|e es' IH]; intros ix Hix; simpl;
        [assumption|].
      apply IH. now apply index_words_sets. }
    apply H. constructor.
  - apply index_get_NoDup.
    assert (H : forall ix, Forall (fun kv => NoDup (snd kv)) ix ->
      Forall (fun kv => NoDup (snd kv))
        (fold_left
           (fun tags_ entry =>
              match Memory.tags (metadata entry) with
              | Some ts =>
                  fold_left (fun ix tag => index_add tag (id entry) ix)
                            ts tags_
              | None => tags_
              end)
           es ix)).
    { clear. induction es as [|e es' IH]; intros ix Hix; simpl;
        [assumption|].
      apply IH. destruct (Memory.tags (metadata e)); [|assumption].
      now apply index_tags_sets. }
    apply H. constructor.
Qed.

(** ** The patterns *)

Lemma tally_add_get (key : string) (d : Z) (m : tally) (k : string) :
  tally_get k (tally_add key d m)
  = if (k =? key)%string
    then Some match tally_get key m with
              | Some (c, t) => (S c, t + d)
              | None => (1%nat, d)
              end
    else tally_get k m.
Proof.
  induction m as [|[k0 [c t]] r IH]; simpl.
  - destruct (k =? key)%string; reflexivity.
  - destruct (String.eqb_spec key k0) as [->|Hne]; simpl.
    + destruct (k =? k0)%string; reflexivity.
    + destruct (String.eqb_spec k k0) as [Hk|Hk].
      * subst k. destruct (String.eqb_spec k0 key) as [He|_];
          [symmetry in He; contradiction|].
        reflexivity.
      * exact IH.
Qed.

Lemma tally_add_keys (key : string) (d : Z) (m : tally) :
  map fst (tally_add key d m)
  = if existsb (String.eqb key) (map fst m) then map fst m
    else (map fst m ++ [key])%list.
Proof.
  induction m as [|[k0 [c t]] r IH]; simpl; [reflexivity|].
  destruct (String.eqb_spec key k0) as [->|Hne]; simpl; [reflexivity|].
  rewrite IH. destruct (existsb (String.eqb key) (map fst r)); reflexivity.
Qed.

Lemma tally_add_NoDup (key : string) (d : Z) (m : tally) :
  NoDup (map fst m) -> NoDup (map fst (tally_add key d m)).
Proof.
  intros H. rewrite tally_add_keys.
  destruct (existsb (String.eqb key) (map fst m)) eqn:He; [assumption|].
  apply NoDup_snoc; [assumption|].
  intros Hin. apply existsb_eqb_In in Hin. congruence.
Qed.

Lemma tally_get_In (m : tally) (k : string) (c : nat * Z) :
  NoDup (map fst m) -> In (k, c) m -> tally_get k m = Some c.
Proof.
  induction m as [|[k0 c0] r IH]; simpl; intros Hnd Hin; [contradiction|].
  inversion Hnd as [|? ? Hnot Hr]; subst.
  destruct Hin as [Heq|Hin].
  - inversion Heq; subst. now rewrite String.eqb_refl.
  - destruct (String.eqb_spec k k0) as [->|Hne].
    + exfalso. apply Hnot. apply in_map_iff. exists (k0, c). auto.
    + now apply IH.
Qed.

Lemma tally_get_Some_In (m : tally) (k : string) (c : nat * Z) :
  tally_get k m = Some c -> In (k, c) m.
Proof.
  induction m as [|[k0 c0] r IH]; simpl; [discriminate|].
  destruct (String.eqb_spec k k0) as [->|Hne].
  - intros H. inversion H. now left.
  - intros H. right. now apply IH.
Qed.

Lemma count_of_snoc (k : string) (occ : list (string * Z)) (x : string * Z) :
  count_of k (occ ++ [x])
  = (count_of k occ + if (fst x =? k)%string then 1 else 0)%nat.
Proof.
  unfold count_of. rewrite filter_app, length_app. simpl.
  destruct (fst x =? k)%string; reflexivity.
Qed.

Lemma total_of_snoc (k : string) (occ : list (string * Z)) (x : string * Z) :
  total_of k (occ ++ [x])
  = total_of k occ + if (fst x =? k)%string then snd x else 0.
Proof.
  unfold total_of. rewrite filter_app, map_app. simpl.
  set (l := map snd (filter (fun kd => (fst kd =? k)%string) occ)).
  assert (H : forall l', fold_right Z.add 0 (l ++ l')
                         = fold_right Z.add 0 l + fold_right Z.add 0 l').
  { induction l as [|y l IHl]; intros l'; simpl; [reflexivity|].
    rewrite IHl. lia. }
  rewrite H. destruct (fst x =? k)%string; simpl; lia.
Qed.

(** The tally that the loops build from the occurrences [occ]. *)
Lemma tally_of_occurrences (occ : list (string * Z)) :
  let m := fold_left (fun m kd => tally_add (fst kd) (snd kd) m) occ [] in
  NoDup (map fst m) /\
  forall k,
    tally_get k m
    = if Nat.eqb (count_of k occ) 0 then None
      else Some (count_of k occ, total_of k occ).
Proof.
  induction occ as [|x occ IH] using rev_ind; simpl.
  - split; [constructor|reflexivity].
  - rewrite fold_left_app. simpl.
    destruct IH as [Hnd Hget].
    split; [now apply tally_add_NoDup|].
    intros k. rewrite tally_add_get, count_of_snoc, total_of_snoc.
    destruct (String.eqb_spec k (fst x)) as [->|Hne].
    + rewrite String.eqb_refl, Hget.
      destruct (Nat.eqb_spec (count_of (fst x) occ) 0) as [Hz|Hnz].
      * rewrite Hz. simpl.
        assert (Ht : total_of (fst x) occ = 0).
        { unfold count_of in Hz. unfold total_of.
          apply length_zero_iff_nil in Hz. now rewrite Hz. }
        now rewrite Ht.
      * replace (Nat.eqb (count_of (fst x) occ + 1) 0) with false
          by (symmetry; apply Nat.eqb_neq; lia).
        now rewrite Nat.add_1_r.
    + replace (fst x =? k)%string with false
        by (symmetry; apply String.eqb_neq; congruence).
      rewrite Nat.add_0_r, Z.add_0_r. apply Hget.
Qed.

Lemma top_patterns_In (m : tally) (p : Pattern) :
  In p (top_patterns m) ->
  exists c t, In (p_key p, (c, t)) m /\ p_count p = c /\
              p_avgDuration p = (inject_Z t / Q_of_nat c)%Q.
Proof.
  unfold top_patterns. intros H.
  apply slice0_In in H. apply sort_In in H.
  apply in_map_iff in H. destruct H as [[k [c t]] [<- Hin]].
  exists c, t. simpl. auto.
Qed.

Lemma top_patterns_facts (occ : list (string * Z)) :
  let r :=
    top_patterns
      (fold_left (fun m kd => tally_add (fst kd) (snd kd) m) occ []) in
  (List.length r <= 10)%nat /\
  NoDup (map p_key r) /\
  StronglySorted (fun a b => (p_count b <= p_count a)%nat) r /\
  (forall p, In p r ->
     (1 <= p_count p)%nat /\
     p_count p = count_of (p_key p) occ /\
     p_avgDuration p
     = (inject_Z (total_of (p_key p) occ) / Q_of_nat (p_count p))%Q) /\
  ((List.length r < 10)%nat ->
   forall kd, In kd occ -> In (fst kd) (map p_key r)).
Proof.
  intros r. subst r.
  destruct (tally_of_occurrences occ) as [Hnd Hget].
  set (m := fold_left (fun m kd => tally_add (fst kd) (snd kd) m) occ [])
    in *.
  unfold top_patterns.
  set (mk := fun kv : string * (nat * Z) =>
               {| p_key := fst kv; p_count := fst (snd kv);
                  p_avgDuration :=
                    (inject_Z (snd (snd kv)) / Q_of_nat (fst (snd kv)))%Q |}).
  set (cmp := fun a b : Pattern =>
                inject_Z (Z.of_nat (p_count b) - Z.of_nat (p_count a))).
  rewrite slice0_count by lia. change (Z.to_nat 10) with 10%nat.
  assert (Hkeys : map p_key (map mk m) = map fst m).
  { rewrite map_map. apply map_ext. intros [k [c t]]. reflexivity. }
  split; [rewrite length_firstn; lia|].
  split.
  { rewrite <- firstn_map. apply NoDup_firstn.
    apply (Permutation_NoDup (l := map p_key (map mk m))).
    - apply Permutation_map, Permutation_sym, sort_perm.
    - now rewrite Hkeys. }
  split.
  { apply sorted_firstn.
    apply (sorted_weaken
             (fun a b => - Z.of_nat (p_count a) <= - Z.of_nat (p_count b))).
    - intros a b Hab. lia.
    - apply (sort_key_sorted cmp (fun p => - Z.of_nat (p_count p))).
      intros a b. unfold cmp. rewrite positive_inject.
      destruct (Z.ltb_spec 0 (Z.of_nat (p_count b) - Z.of_nat (p_count a)));
        destruct (Z.ltb_spec (- Z.of_nat (p_count b))
                             (- Z.of_nat (p_count a)));
        try reflexivity; lia. }
  split.
  { intros p Hp. apply firstn_In in Hp. apply sort_In in Hp.
    apply in_map_iff in Hp. destruct Hp as [[k [c t]] [<- Hin]].
    cbn [mk p_key p_count p_avgDuration fst snd].
    pose proof (tally_get_In m k (c, t) Hnd Hin) as Hk.
    rewrite Hget in Hk.
    destruct (Nat.eqb_spec (count_of k occ) 0) as [Hz|Hnz];
      [discriminate|].
    inversion Hk; subst. repeat split. lia. }
  intros Hfew kd Hkd.
  rewrite (firstn_short _ _ Hfew).
  apply (Permutation_in (l := map p_key (map mk m))).
  - apply Permutation_map, Permutation_sym, sort_perm.
  - rewrite Hkeys.
    assert (Hpos : count_of (fst kd) occ <> O).
    { unfold count_of. intros Hz. apply length_zero_iff_nil in Hz.
      assert (Hin : In kd (filter (fun kd0 => (fst kd0 =? fst kd)%string)
                                  occ)).
      { apply filter_In. split; [assumption|apply String.eqb_refl]. }
      rewrite Hz in Hin. contradiction. }
    specialize (Hget (fst kd)).
    apply Nat.eqb_neq in Hpos. rewrite Hpos in Hget.
    apply tally_get_Some_In in Hget.
    apply in_map_iff. eexists. split; [|exact Hget]. reflexivity.
Qed.

Lemma findCommonTasks_occurrences (self : MemorySearchEngine.t) :
  findCommonTasks self
  = top_patterns
      (fold_left (fun m kd => tally_add (fst kd) (snd kd) m)
                 (task_occurrences (memoryEntries self)) []).
Proof.
  unfold findCommonTasks, task_occurrences. f_equal.
  generalize (@nil (string * (nat * Z))).
  induction (memoryEntries self) as [|e es IH]; intros m; simpl;
    [reflexivity|apply IH].
Qed.

Lemma findTagPatterns_occurrences (self : MemorySearchEngine.t) :
  findTagPatterns self
  = top_patterns
      (fold_left (fun m kd => tally_add (fst kd) (snd kd) m)
                 (tag_occurrences (memoryEntries self)) []).
Proof.
  unfold findTagPatterns, tag_occurrences. f_equal.
  generalize (@nil (string * (nat * Z))).
  induction (memoryEntries self) as [|e es IH]; intros m; simpl;
    [reflexivity|].
  rewrite fold_left_app, <- IH. f_equal.
  destruct (Memory.tags (metadata e)) as [ts|]; [|reflexivity].
  clear. revert m. induction ts as [|tag ts IH]; intros m; simpl;
    [reflexivity|apply IH].
Qed.

(** X10.  [findCommonTasks] returns at most ten patterns, in descending
    order of their count, and no task twice.  The count of a pattern is
    the number of entries of the working set that have its task, and its
    average duration is the sum of their durations over that number.
    When fewer than ten patterns are returned, the task of every entry
    has its pattern. *)
Theorem findCommonTasks_counts :
  forall (self : MemorySearchEngine.t),
    (List.length (findCommonTasks self) <= 10)%nat /\
    NoDup (map p_key (findCommonTasks self)) /\
    StronglySorted (fun a b => (p_count b <= p_count a)%nat)
                   (findCommonTasks self) /\
    (forall p, In p (findCommonTasks self) ->
       (1 <= p_count p)%nat /\
       p_count p
       = List.length (filter (fun e => (task e =? p_key p)%string)
                             (memoryEntries self)) /\
       p_avgDuration p
       = (inject_Z (total_of (p_key p)
                      (task_occurrences (memoryEntries self)))
          / Q_of_nat (p_count p))%Q) /\
    ((List.length (findCommonTasks self) < 10)%nat ->
     forall e, In e (memoryEntries self) ->
       In (task e) (map p_key (findCommonTasks self))).
Proof.
  intros self. rewrite findCommonTasks_occurrences.
  destruct (top_patterns_facts (task_occurrences (memoryEntries self)))
    as [Hlen [Hnd [Hsorted [Hcount Hall]]]].
  split; [assumption|]. split; [assumption|]. split; [assumption|].
  split.
  - intros p Hp. destruct (Hcount p Hp) as [H1 [H2 H3]].
    split; [assumption|]. split; [|assumption].
    rewrite H2. unfold count_of, task_occurrences.
    clear. induction (memoryEntries self) as [|e es IH]; simpl;
      [reflexivity|].
    destruct (task e =? p_key p)%string; simpl; now rewrite IH.
  - intros Hfew e He.
    apply (Hall Hfew (task e, duration (metadata e))).
    unfold task_occurrences. apply in_map_iff. eauto.
Qed.

(** X11.  [findTagPatterns] returns at most ten patterns, in descending
    order of their count, and no tag twice.  The count of a pattern is
    the number of times its tag occurs in the tag lists of the entries
    of the working set, and its average duration is the sum of the
    durations of these entries (one for each occurrence) over that
    number.  When fewer than ten patterns are returned, every tag of
    every entry has its pattern. *)
Theorem findTagPatterns_counts :
  forall (self : MemorySearchEngine.t),
    (List.length (findTagPatterns self) <= 10)%nat /\
    NoDup (map p_key (findTagPatterns self)) /\
    StronglySorted (fun a b => (p_count b <= p_count a)%nat)
                   (findTagPatterns self) /\
    (forall p, In p (findTagPatterns self) ->
       (1 <= p_count p)%nat /\
       p_count p
       = count_of (p_key p) (tag_occurrences (memoryEntries self)) /\
       p_avgDuration p
       = (inject_Z (total_of (p_key p)
                      (tag_occurrences (memoryEntries self)))
          / Q_of_nat (p_count p))%Q) /\
    ((List.length (findTagPatterns self) < 10)%nat ->
     forall e tag, In e (memoryEntries self) -> has_tag e tag ->
       In tag (map p_key (findTagPatterns self))).
Proof.
  intros self. rewrite findTagPatterns_occurrences.
  destruct (top_patterns_facts (tag_occurrences (memoryEntries self)))
    as [Hlen [Hnd [Hsorted [Hcount Hall]]]].
  split; [assumption|]. split; [assumption|]. split; [assumption|].
  split; [assumption|].
  intros Hfew e tag He [ts [Hts Htag]].
  apply (Hall Hfew (tag, duration (metadata e))).
  unfold tag_occurrences. apply in_flat_map. exists e.
  split; [assumption|]. rewrite Hts. apply in_map_iff. eauto.
Qed.

(** ** [search]: the text query *)

Lemma matchesOptions_with_query (q : string) (e : MemoryEntry) :
  q <> "" ->
  matchesOptions (with_query q) e
  = (textMatch <- matchesTextQuery e q ;; Ok textMatch).
Proof.
  intros Hq. unfold matchesOptions. cbn [query with_query falsy_string].
  apply String.eqb_neq in Hq. rewrite Hq.
  destruct (matchesTextQuery e q) as [b|err]; cbn [JS.bind]; [|reflexivity].
  cbn. unfold matchDuration. cbn. now rewrite !andb_true_r.
Qed.

Lemma matchesTextQuery_case (q q' : string) (e : MemoryEntry) :
  toLowerCase q' = toLowerCase q ->
  matchesTextQuery e q' = matchesTextQuery e q.
Proof. intros H. unfold matchesTextQuery. now rewrite H. Qed.

Lemma filterM_ext {A} (p p' : A -> res bool) (l : list A) :
  (forall x, p x = p' x) -> filterM p l = filterM p' l.
Proof.
  intros H. induction l as [|x l IH]; simpl; [reflexivity|].
  now rewrite H, IH.
Qed.

Lemma filterM_complete {A} (p : A -> res bool) (l : list A) :
  (forall x, In x l -> exists b, p x = Ok b) ->
  exists r, filterM p l = Ok r /\
            forall x, In x l -> p x = Ok true -> In x r.
Proof.
  induction l as [|x l IH]; intros Hok; simpl.
  - exists []. split; [reflexivity|]. intros x [].
  - destruct (Hok x (or_introl eq_refl)) as [b Hb].
    destruct IH as [r [Hr Hin]]; [intros y Hy; apply Hok; now right|].
    rewrite Hb, Hr. cbn [JS.bind].
    eexists. split; [reflexivity|].
    intros y [<-|Hy] Hp.
    + rewrite Hb in Hp. inversion Hp; subst. now left.
    + destruct b; [right|]; now apply Hin.
Qed.

(** X12.  The text query of [search] is matched without regard to
    letter case, against the task of an entry, against its result (a
    string, or the JSON text of an object) and against its tags.  An
    empty query is no query: every entry is returned.  Every entry that
    is returned for a query matches it in one of the three places, and,
    when the result of every entry of the working set can be searched
    (none of them fails to serialise), every entry whose task contains
    the query is returned.  Two queries that differ by letter case only
    return the same entries. *)
Theorem search_text_query :
  forall (self : MemorySearchEngine.t) (q : string) (t0 t1 : Z),
    entries (search self (with_query "") t0 t1) = memoryEntries self /\
    (q <> "" ->
     forall e, In e (entries (search self (with_query q) t0 t1)) ->
       In e (memoryEntries self) /\
       (includes (toLowerCase (task e)) (toLowerCase q) = true \/
        searchInResult (result e) (toLowerCase q) = Ok true \/
        exists tag, has_tag e tag /\
                    includes (toLowerCase tag) (toLowerCase q) = true)) /\
    (q <> "" ->
     (forall e, In e (memoryEntries self) ->
        exists b, searchInResult (result e) (toLowerCase q) = Ok b) ->
     forall e, In e (memoryEntries self) ->
       includes (toLowerCase (task e)) (toLowerCase q) = true ->
       In e (entries (search self (with_query q) t0 t1))) /\
    (forall q', q <> "" -> q' <> "" -> toLowerCase q' = toLowerCase q ->
       entries (search self (with_query q') t0 t1)
       = entries (search self (with_query q) t0 t1)).
Proof.
  intros self q t0 t1.
  split; [|split; [|split]].
  - unfold search, search_try.
    rewrite (filterM_pure _ (fun _ => true)).
    + simpl. induction (memoryEntries self) as [|x l IH]; simpl; congruence.
    + intros e _. reflexivity.
  - intros Hq e He.
    destruct (search_entries_In _ _ _ _ _ He) as [Hin Hm].
    split; [assumption|].
    rewrite (matchesOptions_with_query q e Hq) in Hm.
    unfold matchesTextQuery in Hm.
    destruct (includes (toLowerCase (task e)) (toLowerCase q));
      [now left|].
    destruct (searchInResult (result e) (toLowerCase q)) as [[|]|err];
      cbn [JS.bind] in Hm; [right; now left| |discriminate].
    right. right.
    destruct (Memory.tags (metadata e)) as [ts|] eqn:Hts;
      cbn [JS.bind] in Hm; [|discriminate].
    injection Hm as Hm. apply existsb_exists in Hm.
    destruct Hm as [tag [Htag Hinc]].
    exists tag. split; [|assumption]. exists ts. auto.
  - intros Hq Hok e He Hinc.
    unfold search, search_try.
    destruct (filterM_complete (matchesOptions (with_query q))
                (memoryEntries self)) as [r [Hr Hall]].
    { intros x Hx. rewrite (matchesOptions_with_query q x Hq).
      unfold matchesTextQuery.
      destruct (includes (toLowerCase (task x)) (toLowerCase q));
        [now exists true|].
      destruct (Hok x Hx) as [b Hb]. rewrite Hb. cbn [JS.bind].
      destruct b; [now exists true|].
      destruct (Memory.tags (metadata x)); eexists; reflexivity. }
    rewrite Hr. cbn [JS.bind try_catch entries].
    cbn [sortBy limit with_query sortResults].
    apply Hall; [assumption|].
    rewrite (matchesOptions_with_query q e Hq).
    unfold matchesTextQuery. now rewrite Hinc.
  - intros q' Hq Hq' Hcase.
    unfold search, search_try.
    rewrite (filterM_ext (matchesOptions (with_query q'))
                         (matchesOptions (with_query q))).
    + destruct (filterM (matchesOptions (with_query q)) (memoryEntries self));
        reflexivity.
    + intros e. rewrite !matchesOptions_with_query by assumption.
      now rewrite (matchesTextQuery_case q q' e Hcase).
Qed.

(* ================================================================== *)
(** * The persistence layer: the index                                 *)
(* ================================================================== *)

Import Memory MemorySearchEngine Spec Samples.
Import PersistenceManager.

(** ** The index of the persistence layer *)

Lemma strings_value_plain (l : list string) :
  plain (Entry.strings_value l) = true.
Proof.
  unfold Entry.strings_value. cbn [plain].
  induction l as [|s l IH]; simpl; [reflexivity|assumption].
Qed.

Lemma strings_value_normal (l : list string) :
  JSON.normalize (Entry.strings_value l) = Entry.strings_value l.
Proof.
  unfold Entry.strings_value. cbn [JSON.normalize]. f_equal.
  induction l as [|s l IH]; simpl; [reflexivity|now rewrite IH].
Qed.

Lemma string_array_strings (l : list string) :
  Entry.string_array (Entry.strings_value l) = Some l.
Proof.
  unfold Entry.strings_value, Entry.string_array.
  induction l as [|s l IH]; simpl; [reflexivity|now rewrite IH].
Qed.

Lemma index_of_to_value (ix : MemoryIndex) :
  index_of_value (index_to_value ix) = Some ix.
Proof.
  destruct ix as [ids lu te ss].
  pose proof (string_array_strings ids) as H.
  unfold Entry.string_array, Entry.strings_value in H.
  unfold index_of_value, index_to_value, Entry.string_array,
    Entry.strings_value.
  simpl in H |- *. now rewrite H.
Qed.

Lemma index_value_plain (ix : MemoryIndex) :
  plain (index_to_value ix) = true.
Proof.
  unfold index_to_value. cbn [plain forallb snd].
  now rewrite strings_value_plain.
Qed.

Lemma index_value_normal (ix : MemoryIndex) :
  JSON.normalize (index_to_value ix) = index_to_value ix.
Proof.
  unfold index_to_value. cbn [JSON.normalize fold_left fst snd].
  rewrite strings_value_normal. reflexivity.
Qed.

Lemma object_text_nonempty (fields : list (string * value)) (text : string) :
  JSON.stringify (VObj fields) = Ok (Some text) -> (text =? "")%string = false.
Proof.
  cbn [JSON.stringify].
  match goal with
  | |- context [JS.bind ?m _] => destruct m as [parts|err]
  end; cbn [JS.bind]; [|discriminate].
  intros H. inversion H. reflexivity.
Qed.

(** The index that this class writes is the index that it reads. *)
Lemma index_round_trip (ix : MemoryIndex) :
  exists text,
    JSON.stringify (index_to_value ix) = Ok (Some text) /\
    (text =? "")%string = false /\
    JSON.parse text = Ok (index_to_value ix).
Proof.
  destruct (parse_stringify _ (index_value_plain ix)) as [text [Hs Hp]].
  exists text. split; [assumption|].
  split; [eapply object_text_nonempty; exact Hs|].
  now rewrite index_value_normal in Hp.
Qed.

Lemma getMemoryIndex_stored (ix : MemoryIndex) (text : string) now ls :
  JSON.stringify (index_to_value ix) = Ok (Some text) ->
  LocalStorage.getItem ls METADATA_KEY = Some text ->
  getMemoryIndex now ls = IndexRecord ix.
Proof.
  intros Hs Hget.
  destruct (index_round_trip ix) as [text' [Hs' [Hne Hp]]].
  rewrite Hs in Hs'. inversion Hs'; subst text'.
  unfold getMemoryIndex. rewrite Hget, Hne, Hp, index_of_to_value.
  reflexivity.
Qed.

Lemma getMemoryIndex_same_item now ls ls' :
  LocalStorage.getItem ls' METADATA_KEY = LocalStorage.getItem ls METADATA_KEY ->
  getMemoryIndex now ls' = getMemoryIndex now ls.
Proof. unfold getMemoryIndex. now intros ->. Qed.

Lemma entryKey_injective (a b : string) : entryKey a = entryKey b -> a = b.
Proof.
  unfold entryKey, STORAGE_PREFIX. cbn [String.append].
  intros H. now inversion H.
Qed.

Lemma entryKey_index (id_ : string) :
  entryKey id_ = METADATA_KEY <-> id_ = "INDEX".
Proof.
  split.
  - intros H. apply entryKey_injective. exact H.
  - intros ->. reflexivity.
Qed.

(** What a successful [saveEntry] did. *)
Lemma saveEntry_ok_steps (entry : value) now ls :
  fst (saveEntry entry now ls) = Ok tt ->
  exists text ls1 index text',
    validateEntry entry = true /\
    LocalStorage.setItem ls (entryKey (id_text entry)) (JSON.quote text)
    = Ok ls1 /\
    entryKey (id_text entry) <> METADATA_KEY /\
    getMemoryIndex now ls = IndexRecord index /\
    JSON.stringify
      (index_to_value
         {| entryIds :=
              if arr_includes (entryIds index) (id_text entry)
              then entryIds index
              else (entryIds index ++ [id_text entry])%list;
            lastUpdated := now;
            totalEntries :=
              if arr_includes (entryIds index) (id_text entry)
              then totalEntries index else totalEntries index + 1;
            storageSize := calculateStorageSize now ls1 |})
    = Ok (Some text') /\
    LocalStorage.setItem ls1 METADATA_KEY text'
    = Ok (snd (saveEntry entry now ls)).
Proof.
  unfold saveEntry.
  destruct (saveEntry_try entry now ls) as [[[]|err] ls'] eqn:Htry;
    [|destruct entry; simpl; discriminate].
  intros _. cbn [snd].
  unfold saveEntry_try in Htry.
  destruct (validateEntry entry) eqn:Hv; simpl in Htry; [|discriminate].
  destruct (encryptEntry entry) as [enc|err] eqn:Henc; [|discriminate].
  destruct (encryptEntry_string entry enc Hv Henc) as [text ->].
  cbn [JSON.stringify LocalStorage.text_of] in Htry.
  destruct (LocalStorage.setItem ls (entryKey (id_text entry))
              (JSON.quote text)) as [ls1|err] eqn:Hset; [|discriminate].
  pose proof (setItem_get_same _ _ _ _ Hset) as Hget1.
  unfold updateMemoryIndex in Htry.
  destruct (String.eqb_spec (entryKey (id_text entry)) METADATA_KEY)
    as [Hkey|Hkey].
  { exfalso. revert Htry.
    unfold getMemoryIndex. rewrite <- Hkey, Hget1.
    unfold JSON.quote at 1. cbn [String.eqb].
    change (Ascii.eqb JSON.dquote _) with false. cbv iota.
    fold (JSON.quote text). rewrite parse_quote. simpl. discriminate. }
  assert (Hsame : getMemoryIndex now ls1 = getMemoryIndex now ls).
  { apply getMemoryIndex_same_item.
    apply (setItem_get_other _ _ _ _ _ Hset). congruence. }
  rewrite Hsame in Htry.
  destruct (getMemoryIndex now ls) as [index|other] eqn:Hix;
    cbn [the_index] in Htry; [|discriminate].
  match type of Htry with
  | context [JSON.stringify ?v] =>
      destruct (JSON.stringify v) as [o|err] eqn:Hs
  end; [|discriminate].
  destruct (index_round_trip
              {| entryIds :=
                   if arr_includes (entryIds index) (id_text entry)
                   then entryIds index
                   else (entryIds index ++ [id_text entry])%list;
                 lastUpdated := now;
                 totalEntries :=
                   if arr_includes (entryIds index) (id_text entry)
                   then totalEntries index else totalEntries index + 1;
                 storageSize := calculateStorageSize now ls1 |})
    as [text' [Hs' _]].
  rewrite Hs' in Hs. inversion Hs; subst o. cbn [LocalStorage.text_of] in Htry.
  destruct (LocalStorage.setItem ls1 METADATA_KEY text') as [ls2|err] eqn:Hset2;
    [|discriminate].
  inversion Htry; subst ls'.
  exists text, ls1, index, text'. repeat split; assumption.
Qed.

(** X13.  A successful [saveEntry] leaves an index that lists the [id]
    of the entry: the [id] is added at the end when it was not listed,
    and [totalEntries] is then one more; an [id] that was listed stays
    where it was and the count is kept, so that saving an entry again
    does not list it twice.  [lastUpdated] is the time of the call. *)
Theorem saveEntry_lists_the_id :
  forall (entry : value) (now now' : Z) (ls : LocalStorage.t)
         (index : MemoryIndex),
    getMemoryIndex now ls = IndexRecord index ->
    fst (saveEntry entry now ls) = Ok tt ->
    exists index',
      getMemoryIndex now' (snd (saveEntry entry now ls)) = IndexRecord index' /\
      entryIds index'
      = (if arr_includes (entryIds index) (id_text entry)
         then entryIds index
         else (entryIds index ++ [id_text entry])%list) /\
      totalEntries index'
      = (if arr_includes (entryIds index) (id_text entry)
         then totalEntries index else totalEntries index + 1) /\
      lastUpdated index' = now /\
      In (id_text entry) (entryIds index') /\
      (NoDup (entryIds index) -> NoDup (entryIds index')).
Proof.
  intros entry now now' ls index Hix Hok.
  destruct (saveEntry_ok_steps entry now ls Hok)
    as [text [ls1 [index0 [text' [Hv [Hset [Hkey [Hix0 [Hs Hset2]]]]]]]]].
  rewrite Hix in Hix0. inversion Hix0; subst index0. clear Hix0.
  eexists. split.
  - eapply getMemoryIndex_stored; [exact Hs|].
    eapply setItem_get_same. exact Hset2.
  - cbn [entryIds totalEntries lastUpdated].
    split; [reflexivity|]. split; [reflexivity|]. split; [reflexivity|].
    destruct (arr_includes (entryIds index) (id_text entry)) eqn:Hinc.
    + split; [now apply arr_includes_In|auto].
    + split; [apply in_or_app; right; now left|].
      intros Hnd. apply NoDup_snoc; [assumption|].
      intros Hin. apply arr_includes_In in Hin. congruence.
Qed.

Lemma saveEntry_lists_the_id_witness :
  exists index',
    getMemoryIndex 2 (snd (saveEntry (Entry.to_value created) 1 medium))
    = IndexRecord index' /\
    entryIds index' = ["task_1"] /\
    totalEntries index' = 1 /\
    lastUpdated index' = 1.
Proof.
  destruct (saveEntry_lists_the_id (Entry.to_value created) 1 2 medium
              (default_index 1) eq_refl eq_refl)
    as [index' [H1 [H2 [H3 [H4 _]]]]].
  exists index'. split; [exact H1|]. split; [exact H2|].
  split; [exact H3|exact H4].
Defined.

(** ** [deleteEntry] and [clearAllEntries] *)

Lemma getItem_removeItem_other ls k k0 :
  k0 <> k ->
  LocalStorage.getItem (LocalStorage.removeItem ls k) k0
  = LocalStorage.getItem ls k0.
Proof.
  intros Hne.
  unfold LocalStorage.getItem, LocalStorage.removeItem, LocalStorage.remove.
  simpl.
  induction (LocalStorage.items ls) as [|[k' v] l IH]; simpl; [reflexivity|].
  destruct (String.eqb_spec k k') as [->|Hk]; simpl.
  - destruct (String.eqb_spec k0 k') as [->|_]; [contradiction|assumption].
  - destruct (k0 =? k')%string; [reflexivity|assumption].
Qed.

Lemma retrieveEntry_absent (id_ : string) ls :
  LocalStorage.getItem ls (entryKey id_) = None -> retrieveEntry id_ ls = None.
Proof. unfold retrieveEntry. now intros ->. Qed.

Lemma deleteEntry_text_gone (entryId : string) (now : Z)
    (ls : LocalStorage.t) :
  entryId <> "INDEX" ->
  LocalStorage.getItem (snd (deleteEntry entryId now ls)) (entryKey entryId)
  = None.
Proof.
  intros Hid.
  assert (Hkey : METADATA_KEY <> entryKey entryId).
  { intros H. apply Hid. apply entryKey_index. now symmetry. }
  unfold deleteEntry, removeFromIndex.
  set (ls1 := LocalStorage.removeItem ls (entryKey entryId)).
  assert (Hgone : LocalStorage.getItem ls1 (entryKey entryId) = None)
    by apply getItem_removeItem_same.
  destruct (the_index (getMemoryIndex now ls1)) as [index|err];
    [|exact Hgone].
  destruct (JSON.stringify _) as [o|err]; [|exact Hgone].
  destruct (LocalStorage.setItem ls1 METADATA_KEY (LocalStorage.text_of o))
    as [ls2|err] eqn:Hset; cbn [snd]; [|exact Hgone].
  rewrite (setItem_get_other _ _ _ _ _ Hset); [assumption|congruence].
Qed.

(** X14.  [deleteEntry] removes the text of the entry from the medium
    whether or not it then succeeds in rewriting the index (it returns
    [false] when it does not).  When it returns [true], the index no
    longer lists the [id], the other ids keep their order, and
    [totalEntries] is one less, but not less than zero: the count is
    decremented also for an [id] that was not listed. *)
Theorem deleteEntry_unlists_the_id :
  forall (entryId : string) (now now' : Z) (ls : LocalStorage.t)
         (index : MemoryIndex),
    entryId <> "INDEX" ->
    getMemoryIndex now ls = IndexRecord index ->
    LocalStorage.getItem (snd (deleteEntry entryId now ls)) (entryKey entryId)
    = None /\
    retrieveEntry entryId (snd (deleteEntry entryId now ls)) = None /\
    (fst (deleteEntry entryId now ls) = true ->
     exists index',
       getMemoryIndex now' (snd (deleteEntry entryId now ls))
       = IndexRecord index' /\
       entryIds index'
       = filter (fun id_ => negb (id_ =? entryId)%string) (entryIds index) /\
       totalEntries index' = Z.max 0 (totalEntries index - 1) /\
       lastUpdated index' = now /\
       ~ In entryId (entryIds index')).
Proof.
  intros entryId now now' ls index Hid Hix.
  assert (Hkey : METADATA_KEY <> entryKey entryId).
  { intros H. apply Hid. apply entryKey_index. now symmetry. }
  unfold deleteEntry, removeFromIndex.
  set (ls1 := LocalStorage.removeItem ls (entryKey entryId)).
  assert (Hsame : getMemoryIndex now ls1 = getMemoryIndex now ls).
  { apply getMemoryIndex_same_item.
    now apply getItem_removeItem_other. }
  rewrite Hsame, Hix. cbn [the_index].
  destruct (index_round_trip
              {| entryIds :=
                   filter (fun id_ => negb (id_ =? entryId)%string)
                          (entryIds index);
                 lastUpdated := now;
                 totalEntries := Z.max 0 (totalEntries index - 1);
                 storageSize := calculateStorageSize now ls1 |})
    as [text [Hs _]].
  rewrite Hs. cbn [LocalStorage.text_of].
  assert (Hgone : LocalStorage.getItem ls1 (entryKey entryId) = None)
    by apply getItem_removeItem_same.
  destruct (LocalStorage.setItem ls1 METADATA_KEY text) as [ls2|err] eqn:Hset;
    cbn [fst snd].
  - assert (Hgone2 : LocalStorage.getItem ls2 (entryKey entryId) = None).
    { rewrite (setItem_get_other _ _ _ _ _ Hset); [assumption|].
      congruence. }
    split; [assumption|]. split; [now apply retrieveEntry_absent|].
    intros _. eexists. split.
    + eapply getMemoryIndex_stored; [exact Hs|].
      eapply setItem_get_same. exact Hset.
    + cbn [entryIds totalEntries lastUpdated]. repeat split.
      intros Hin. apply filter_In in Hin. destruct Hin as [_ Hin].
      now rewrite String.eqb_refl in Hin.
  - split; [assumption|]. split; [now apply retrieveEntry_absent|].
    discriminate.
Qed.

Lemma deleteEntry_unlists_the_id_witness :
  LocalStorage.getItem (snd (deleteEntry "task_1" 3 saved_medium))
                       (entryKey "task_1") = None /\
  retrieveEntry "task_1" (snd (deleteEntry "task_1" 3 saved_medium)) = None /\
  (fst (deleteEntry "task_1" 3 saved_medium) = true ->
   exists index',
     getMemoryIndex 4 (snd (deleteEntry "task_1" 3 saved_medium))
     = IndexRecord index' /\
     entryIds index'
     = filter (fun id_ => negb (id_ =? "task_1")%string)
              (entryIds saved_index) /\
     totalEntries index' = Z.max 0 (totalEntries saved_index - 1) /\
     lastUpdated index' = 3 /\
     ~ In "task_1" (entryIds index')).
Proof.
  apply (deleteEntry_unlists_the_id "task_1" 3 4 saved_medium saved_index).
  - discriminate.
  - vm_compute. reflexivity.
Defined.

Lemma getItem_removeItems (ids : list string) ls k :
  LocalStorage.getItem
    (fold_left (fun acc id_ => LocalStorage.removeItem acc (entryKey id_))
               ids ls) k
  = if existsb (fun id_ => (k =? entryKey id_)%string) ids then None
    else LocalStorage.getItem ls k.
Proof.
  revert ls. induction ids as [|i ids IH]; intros ls; simpl; [reflexivity|].
  rewrite IH.
  destruct (String.eqb_spec k (entryKey i)) as [->|Hne]; simpl.
  - rewrite getItem_removeItem_same.
    now destruct (existsb _ ids).
  - now rewrite getItem_removeItem_other.
Qed.

(** X15.  On a medium whose index is readable, [clearAllEntries]
    succeeds; it removes the index and the text of every entry that the
    index lists, and it leaves every other key of the medium as it is (an
    entry that the index does not list stays in the medium).  Afterwards
    the index is read as empty and [retrieveEntries] returns no
    entry. *)
Theorem clearAllEntries_removes_what_is_listed :
  forall (now now' : Z) (ls : LocalStorage.t) (index : MemoryIndex),
    getMemoryIndex now ls = IndexRecord index ->
    fst (clearAllEntries now ls) = Ok tt /\
    LocalStorage.getItem (snd (clearAllEntries now ls)) METADATA_KEY = None /\
    (forall id_, In id_ (entryIds index) ->
       LocalStorage.getItem (snd (clearAllEntries now ls)) (entryKey id_)
       = None) /\
    (forall k, k <> METADATA_KEY ->
       (forall id_, In id_ (entryIds index) -> k <> entryKey id_) ->
       LocalStorage.getItem (snd (clearAllEntries now ls)) k
       = LocalStorage.getItem ls k) /\
    getMemoryIndex now' (snd (clearAllEntries now ls))
    = IndexRecord (default_index now') /\
    retrieveEntries now' (snd (clearAllEntries now ls)) = [].
Proof.
  intros now now' ls index Hix.
  unfold clearAllEntries. rewrite Hix. cbn [the_index fst snd].
  set (ls1 := fold_left
                (fun acc id_ => LocalStorage.removeItem acc (entryKey id_))
                (entryIds index) ls).
  assert (Hindex : LocalStorage.getItem
                     (LocalStorage.removeItem ls1 METADATA_KEY) METADATA_KEY
                   = None) by apply getItem_removeItem_same.
  split; [reflexivity|]. split; [assumption|].
  split; [|split; [|split]].
  - intros id_ Hin.
    destruct (String.eqb_spec (entryKey id_) METADATA_KEY) as [->|Hne];
      [assumption|].
    rewrite getItem_removeItem_other by assumption.
    unfold ls1. rewrite getItem_removeItems.
    replace (existsb (fun i => (entryKey id_ =? entryKey i)%string)
                     (entryIds index)) with true; [reflexivity|].
    symmetry. apply existsb_exists. exists id_.
    split; [assumption|apply String.eqb_refl].
  - intros k Hk Hother.
    rewrite getItem_removeItem_other by assumption.
    unfold ls1. rewrite getItem_removeItems.
    replace (existsb (fun i => (k =? entryKey i)%string) (entryIds index))
      with false; [reflexivity|].
    symmetry. apply not_true_is_false. intros Hex.
    apply existsb_exists in Hex. destruct Hex as [i [Hi He]].
    apply String.eqb_eq in He. now apply (Hother i).
  - unfold getMemoryIndex. now rewrite Hindex.
  - unfold retrieveEntries, getMemoryIndex. now rewrite Hindex.
Qed.

Lemma clearAllEntries_removes_what_is_listed_witness :
  fst (clearAllEntries 3 saved_medium) = Ok tt /\
  LocalStorage.getItem (snd (clearAllEntries 3 saved_medium))
                       (entryKey "task_1") = None /\
  retrieveEntries 4 (snd (clearAllEntries 3 saved_medium)) = [].
Proof.
  destruct (clearAllEntries_removes_what_is_listed 3 4 saved_medium
              saved_index)
    as [H1 [_ [H3 [_ [_ H6]]]]].
  - vm_compute. reflexivity.
  - split; [exact H1|]. split; [|exact H6].
    apply H3. vm_compute. left. reflexivity.
Defined.

(** ** An entry under the key of the index *)

(** X16.  The index is kept under the key that an entry with the [id]
    "INDEX" is written to.  [saveEntry] on such an entry writes the entry
    over the index and then fails when it reads the index back; from
    then on the index is not readable: every later [saveEntry] and
    [clearAllEntries] fails, [deleteEntry] of every other [id] returns
    [false], and [retrieveEntries] returns no entry. *)
Theorem saveEntry_over_the_index :
  forall (entry : value) (now : Z) (ls ls1 : LocalStorage.t) (text : string),
    validateEntry entry = true ->
    id_text entry = "INDEX" ->
    encryptEntry entry = Ok (VStr text) ->
    LocalStorage.setItem ls METADATA_KEY (JSON.quote text) = Ok ls1 ->
    (exists err, saveEntry entry now ls = (Throw err, ls1)) /\
    (forall now', getMemoryIndex now' ls1 = IndexOther (VStr text)) /\
    (forall entry' now',
       exists err, fst (saveEntry entry' now' ls1) = Throw err) /\
    (forall now', exists err, fst (clearAllEntries now' ls1) = Throw err) /\
    (forall entryId now',
       entryId <> "INDEX" -> fst (deleteEntry entryId now' ls1) = false) /\
    (forall now', retrieveEntries now' ls1 = []).
Proof.
  intros entry now ls ls1 text Hv Hid Henc Hset.
  assert (Hget : LocalStorage.getItem ls1 METADATA_KEY
                 = Some (JSON.quote text))
    by (eapply setItem_get_same; exact Hset).
  assert (Hix : forall now', getMemoryIndex now' ls1 = IndexOther (VStr text)).
  { intros now'. unfold getMemoryIndex. rewrite Hget.
    unfold JSON.quote at 1. cbn [String.eqb].
    change (Ascii.eqb JSON.dquote _) with false. cbv iota.
    fold (JSON.quote text). now rewrite parse_quote. }
  split; [|split; [exact Hix|split; [|split; [|split]]]].
  - unfold saveEntry, saveEntry_try. rewrite Hv, Henc. cbn [negb].
    cbn [JSON.stringify LocalStorage.text_of].
    replace (entryKey (id_text entry)) with METADATA_KEY
      by (rewrite Hid; reflexivity).
    rewrite Hset. unfold updateMemoryIndex. rewrite Hix. cbn [the_index].
    destruct (valid_entry_is_record entry Hv) as [fields ->]. eauto.
  - intros entry' now'.
    destruct (fst (saveEntry entry' now' ls1)) as [[]|err] eqn:Hok;
      [|eauto].
    exfalso.
    destruct (saveEntry_ok_steps entry' now' ls1 Hok)
      as [t [l1 [index [t' [_ [_ [_ [Hrec _]]]]]]]].
    rewrite Hix in Hrec. discriminate.
  - intros now'. unfold clearAllEntries. rewrite Hix. cbn [the_index fst].
    eauto.
  - intros entryId now' Hne.
    unfold deleteEntry, removeFromIndex.
    rewrite (getMemoryIndex_same_item now' ls1
               (LocalStorage.removeItem ls1 (entryKey entryId))).
    + rewrite Hix. reflexivity.
    + apply getItem_removeItem_other. intros H. apply Hne.
      apply entryKey_index. now symmetry.
  - intros now'. unfold retrieveEntries. rewrite Hix. reflexivity.
Qed.

Lemma saveEntry_over_the_index_witness :
  (exists err, saveEntry index_named 1 medium = (Throw err, overwritten_medium)) /\
  (forall entry' now',
     exists err, fst (saveEntry entry' now' overwritten_medium) = Throw err) /\
  (forall now', retrieveEntries now' overwritten_medium = []).
Proof.
  destruct (saveEntry_over_the_index index_named 1 medium overwritten_medium
              (text_of_value index_named))
    as [H1 [_ [H3 [_ [_ H6]]]]].
  - reflexivity.
  - reflexivity.
  - vm_compute. reflexivity.
  - vm_compute. reflexivity.
  - split; [exact H1|]. split; [exact H3|exact H6].
Defined.

(** ** The placeholders for encryption *)

Lemma to_value_plain (e : MemoryEntry) :
  plain (result e) = true -> plain (Entry.to_value e) = true.
Proof.
  intros Hr. unfold Entry.to_value. cbn [plain forallb snd].
  rewrite Hr. cbn [andb].
  rewrite forallb_app. cbn [forallb snd plain andb].
  rewrite !forallb_app.
  destruct (errors (metadata e)), (Memory.tags (metadata e)),
    (priority (metadata e)); cbn [option_map Entry.optional forallb snd andb];
    rewrite ?strings_value_plain; reflexivity.
Qed.

Lemma to_value_normal (e : MemoryEntry) :
  JSON.normalize (result e) = result e ->
  JSON.normalize (Entry.to_value e) = Entry.to_value e.
Proof.
  intros Hr. unfold Entry.to_value.
  destruct (errors (metadata e)) as [es|], (Memory.tags (metadata e)) as [ts|],
    (priority (metadata e)) as [p|];
    cbn [option_map Entry.optional app JSON.normalize fold_left fst snd];
    rewrite ?strings_value_normal, Hr; reflexivity.
Qed.

Lemma of_to_value (e : MemoryEntry) : Entry.of_value (Entry.to_value e) = Some e.
Proof.
  destruct e as [i ts t r [ok d es tg p]].
  unfold Entry.of_value, Entry.to_value.
  cbn [id timestamp task result metadata success duration errors
       Memory.tags priority].
  destruct es as [es|], tg as [tg|], p as [p|];
    cbn [option_map Entry.optional app];
    pose proof (string_array_strings) as Hsa;
    unfold Entry.string_array, Entry.strings_value in Hsa;
    unfold Entry.string_array, Entry.strings_value, Entry.integer;
    simpl; rewrite ?Hsa; reflexivity.
Qed.

(** X17.  [decryptEntry] inverts [encryptEntry] on every value that JSON
    carries (made of [null], booleans, integers, strings, arrays and
    objects).  In particular an entry whose [result] is such a value is
    encrypted to a text from which [decryptEntry] gives the entry
    back. *)
Theorem decryptEntry_inverts_encryptEntry :
  (forall entry : value,
     plain entry = true -> JSON.normalize entry = entry ->
     exists text,
       encryptEntry entry = Ok (VStr text) /\
       decryptEntry text = Ok entry) /\
  (forall e : MemoryEntry,
     plain (result e) = true -> JSON.normalize (result e) = result e ->
     exists text,
       encryptEntry (Entry.to_value e) = Ok (VStr text) /\
       decryptEntry text = Ok (Entry.to_value e) /\
       Entry.of_value (Entry.to_value e) = Some e).
Proof.
  assert (H : forall entry : value,
     plain entry = true -> JSON.normalize entry = entry ->
     exists text,
       encryptEntry entry = Ok (VStr text) /\
       decryptEntry text = Ok entry).
  { intros entry Hplain Hnormal.
    destruct (parse_stringify entry Hplain) as [text [Hs Hp]].
    exists text. unfold encryptEntry, decryptEntry.
    rewrite Hs, Hp, Hnormal. split; reflexivity. }
  split; [exact H|].
  intros e Hplain Hnormal.
  destruct (H (Entry.to_value e) (to_value_plain e Hplain)
              (to_value_normal e Hnormal)) as [text [Henc Hdec]].
  exists text. split; [assumption|]. split; [assumption|].
  apply of_to_value.
Qed.

(* ================================================================== *)
(** * The synchronous facade and the medium                            *)
(* ================================================================== *)

Import Memory MemorySearchEngine Spec Samples.
Import PersistenceManager.
Import TRINITIMemorySystem.

(** ** The medium of the synchronous facade *)

Lemma assoc_filter (p : string -> bool) (k : string) l :
  p k = true ->
  LocalStorage.assoc k (filter (fun kv => p (fst kv)) l)
  = LocalStorage.assoc k l.
Proof.
  intros Hp. induction l as [|[k' v] l IH]; simpl; [reflexivity|].
  destruct (String.eqb_spec k k') as [->|Hne].
  - rewrite Hp. simpl. now rewrite String.eqb_refl.
  - destruct (p k'); simpl; [|assumption].
    apply String.eqb_neq in Hne. now rewrite Hne.
Qed.

Lemma filter_put (p : string -> bool) (k v : string) l :
  p k = true ->
  filter (fun kv => p (fst kv)) (LocalStorage.put k v l)
  = LocalStorage.put k v (filter (fun kv => p (fst kv)) l).
Proof.
  intros Hp. induction l as [|[k' v'] l IH]; simpl.
  - now rewrite Hp.
  - destruct (String.eqb_spec k k') as [->|Hne]; simpl.
    + rewrite Hp. simpl. now rewrite String.eqb_refl.
    + destruct (p k') eqn:Hp'; simpl; [|assumption].
      apply String.eqb_neq in Hne. now rewrite Hne, IH.
Qed.

Lemma filter_remove (p : string -> bool) (k : string) l :
  filter (fun kv => p (fst kv)) (LocalStorage.remove k l)
  = LocalStorage.remove k (filter (fun kv => p (fst kv)) l).
Proof.
  unfold LocalStorage.remove.
  induction l as [|[k' v'] l IH]; simpl; [reflexivity|].
  destruct (k =? k')%string eqn:Hk, (p k') eqn:Hp; simpl;
    rewrite ?Hk, ?Hp; simpl; congruence.
Qed.

Lemma put_same (k v : string) l :
  LocalStorage.assoc k l = Some v -> LocalStorage.put k v l = l.
Proof.
  induction l as [|[k' v'] l IH]; simpl; [discriminate|].
  destruct (String.eqb_spec k k') as [->|Hne].
  - intros H. now inversion H.
  - intros H. now rewrite IH.
Qed.

Lemma prefixed_eqb (a b : string) :
  ((STORAGE_KEY_PREFIX ++ a) =? (STORAGE_KEY_PREFIX ++ b))%string
  = (a =? b)%string.
Proof.
  destruct (String.eqb_spec a b) as [->|Hne].
  - apply String.eqb_refl.
  - apply String.eqb_neq. intros H. apply Hne.
    now apply prefixed_key_injective.
Qed.

Lemma put_on_disk (e : MemoryEntry) (m : list (string * MemoryEntry)) :
  LocalStorage.put (STORAGE_KEY_PREFIX ++ id e) (stored_text e)
                   (map on_disk m)
  = map on_disk (map_set (id e) e m).
Proof.
  induction m as [|[k' e'] m IH];
    cbn [map on_disk fst snd LocalStorage.put map_set]; [reflexivity|].
  rewrite prefixed_eqb.
  destruct (id e =? k')%string; cbn [map on_disk fst snd]; [reflexivity|].
  now rewrite IH.
Qed.

Lemma remove_on_disk (k : string) (m : list (string * MemoryEntry)) :
  LocalStorage.remove (STORAGE_KEY_PREFIX ++ k) (map on_disk m)
  = map on_disk (map_delete k m).
Proof.
  unfold LocalStorage.remove, map_delete.
  induction m as [|[k' e'] m IH]; cbn [map filter on_disk fst snd];
    [reflexivity|].
  rewrite prefixed_eqb.
  destruct (k =? k')%string; cbn [negb map on_disk fst snd]; congruence.
Qed.

Lemma stored_text_portable (e : MemoryEntry) :
  portable e ->
  JSON.stringify (Entry.to_value e) = Ok (Some (stored_text e)) /\
  JSON.parse (stored_text e) = Ok (Entry.to_value e).
Proof.
  intros [Hplain Hnormal].
  destruct (parse_stringify _ (to_value_plain e Hplain)) as [text [Hs Hp]].
  unfold stored_text. rewrite Hs. cbn [LocalStorage.text_of].
  split; [reflexivity|].
  now rewrite (to_value_normal e Hnormal) in Hp.
Qed.

Lemma validateEntry_to_value (e : MemoryEntry) :
  TRINITIMemorySystem.validateEntry (Entry.to_value e) = Ok true.
Proof. reflexivity. Qed.

Lemma map_set_keys_NoDup k e (m : list (string * MemoryEntry)) :
  NoDup (map fst m) -> NoDup (map fst (map_set k e m)).
Proof.
  induction m as [|[k' e'] m IH]; intros Hnd; simpl.
  - constructor; [intros []|constructor].
  - inversion Hnd as [|? ? Hnot Hm]; subst.
    destruct (String.eqb_spec k k') as [->|Hne]; simpl.
    + now constructor.
    + constructor; [|now apply IH].
      intros Hin. apply Hnot.
      clear - Hin Hne. induction m as [|[k2 e2] m IHm]; simpl in *.
      * destruct Hin as [H|[]]. congruence.
      * destruct (String.eqb_spec k k2) as [->|Hk2]; simpl in Hin.
        -- exact Hin.
        -- destruct Hin as [H|H]; [now left|right; now apply IHm].
Qed.

Lemma map_set_Forall (P : string * MemoryEntry -> Prop) k e m :
  P (k, e) -> Forall P m -> Forall P (map_set k e m).
Proof.
  intros Hke. induction 1 as [|[k' e'] m Hx Hm IH]; simpl.
  - constructor; [assumption|constructor].
  - destruct (k =? k')%string; constructor; assumption.
Qed.

Lemma map_delete_NoDup k (m : list (string * MemoryEntry)) :
  NoDup (map fst m) -> NoDup (map fst (map_delete k m)).
Proof.
  intros Hnd. rewrite map_delete_keys. now apply NoDup_filter.
Qed.

Lemma map_delete_Forall (P : string * MemoryEntry -> Prop) k m :
  Forall P m -> Forall P (map_delete k m).
Proof.
  unfold map_delete. rewrite !Forall_forall.
  intros H x Hx. apply filter_In in Hx. now apply H.
Qed.

(** [loadFromDisk] on a medium that holds the entries [l] under their
    keys. *)
Lemma loadKey_entries (l : list (string * MemoryEntry)) :
  forall (acc : TRINITIMemorySystem.t) (ls : LocalStorage.t),
    (forall kv, In kv l ->
       LocalStorage.getItem ls (fst (on_disk kv)) = Some (snd (on_disk kv))) ->
    Forall (fun kv => fst kv = id (snd kv) /\ portable (snd kv)) l ->
    NoDup (map fst (storage acc ++ l)) ->
    fold_left loadKey (map (fun kv => fst (on_disk kv)) l) (acc, ls)
    = ({| storage := (storage acc ++ l)%list;
          MAX_ENTRIES := MAX_ENTRIES acc |}, ls).
Proof.
  induction l as [|[k e] l IH]; intros acc ls Hget Hall Hnd.
  - simpl. rewrite app_nil_r. now destruct acc.
  - inversion Hall as [|? ? [Hk Hport] Hall']; subst. simpl in Hk. subst k.
    cbn [map fold_left].
    assert (Hstep : loadKey (acc, ls) (fst (on_disk (id e, e)))
                    = ({| storage := (storage acc ++ [(id e, e)])%list;
                          MAX_ENTRIES := MAX_ENTRIES acc |}, ls)).
    { unfold loadKey. rewrite (Hget (id e, e)) by now left.
      cbn [on_disk fst snd].
      destruct (stored_text_portable e Hport) as [_ Hparse].
      rewrite Hparse. cbn [JS.bind].
      rewrite validateEntry_to_value. cbn [JS.bind].
      rewrite of_to_value.
      rewrite map_set_fresh; [reflexivity|].
      rewrite map_app in Hnd. apply NoDup_remove_2 in Hnd.
      intros Hin. apply Hnd. apply in_or_app. now left. }
    rewrite Hstep.
    rewrite IH.
    + cbn [storage MAX_ENTRIES]. now rewrite <- app_assoc.
    + intros kv Hkv. apply Hget. now right.
    + assumption.
    + cbn [storage]. now rewrite <- app_assoc.
Qed.

Lemma filter_keys (items : list (string * string)) :
  filter (String.prefix STORAGE_KEY_PREFIX) (map fst items)
  = map fst (filter under_prefix items).
Proof.
  unfold under_prefix.
  induction items as [|[k v] l IH]; simpl; [reflexivity|].
  destruct (String.prefix STORAGE_KEY_PREFIX k); simpl; congruence.
Qed.

Lemma assoc_on_disk (m : list (string * MemoryEntry)) kv :
  NoDup (map fst m) -> In kv m ->
  LocalStorage.assoc (fst (on_disk kv)) (map on_disk m)
  = Some (snd (on_disk kv)).
Proof.
  induction m as [|[k' e'] m IH]; intros Hnd Hin;
    cbn [map fst snd on_disk LocalStorage.assoc In] in *; [contradiction|].
  inversion Hnd as [|? ? Hnot Hm]; subst.
  rewrite prefixed_eqb.
  destruct Hin as [<-|Hin].
  - cbn [fst snd]. now rewrite String.eqb_refl.
  - destruct (String.eqb_spec (fst kv) k') as [Heq|Hne].
    + exfalso. apply Hnot. subst k'. now apply in_map.
    + now apply IH.
Qed.

Lemma mirrors_reload (self : TRINITIMemorySystem.t) (ls : LocalStorage.t)
    (capacity : nat) :
  mirrors self ls ->
  loadFromDisk (create capacity) ls
  = ({| storage := storage self; MAX_ENTRIES := capacity |}, ls).
Proof.
  intros [Hitems [Hnd Hall]].
  unfold loadFromDisk, LocalStorage.keys.
  rewrite filter_keys, Hitems, map_map.
  rewrite (loadKey_entries (storage self) (create capacity) ls).
  - reflexivity.
  - intros kv Hkv. unfold LocalStorage.getItem.
    rewrite <- (assoc_filter (String.prefix STORAGE_KEY_PREFIX)).
    + fold under_prefix. rewrite Hitems. now apply assoc_on_disk.
    + apply prefix_append.
  - assumption.
  - assumption.
Qed.

Lemma prune_cases (self self1 : TRINITIMemorySystem.t)
    (ls ls1 : LocalStorage.t) :
  prune self ls = Ok (self1, ls1) ->
  (self1 = self /\ ls1 = ls) \/
  exists k,
    self1 = {| storage := map_delete k (storage self);
               MAX_ENTRIES := MAX_ENTRIES self |} /\
    ls1 = removeFromDisk k ls.
Proof.
  unfold prune.
  destruct (Nat.leb (MAX_ENTRIES self) (List.length (storage self)));
    [|intros H; inversion H; now left].
  destruct (storage self) as [|first rest] eqn:Hst; [discriminate|].
  intros H. right. exists (fst (fold_left older rest first)).
  injection H as <- <-. split; reflexivity.
Qed.

Lemma mirrors_prune (self self1 : TRINITIMemorySystem.t)
    (ls ls1 : LocalStorage.t) :
  mirrors self ls -> prune self ls = Ok (self1, ls1) -> mirrors self1 ls1.
Proof.
  intros Hm Hprune.
  destruct (prune_cases _ _ _ _ Hprune) as [[-> ->]|[k [-> ->]]];
    [assumption|].
  destruct Hm as [Hitems [Hnd Hall]].
  unfold mirrors. cbn [storage].
  split; [|split].
  - unfold removeFromDisk, LocalStorage.removeItem. cbn [LocalStorage.items].
    unfold under_prefix in *.
    rewrite (filter_remove (String.prefix STORAGE_KEY_PREFIX)).
    rewrite Hitems. apply remove_on_disk.
  - now apply map_delete_NoDup.
  - now apply map_delete_Forall.
Qed.

Lemma mirrors_persist (self : TRINITIMemorySystem.t) (ls : LocalStorage.t)
    (e : MemoryEntry) :
  mirrors self ls -> portable e ->
  LocalStorage.getItem (persistToDisk e ls) (STORAGE_KEY_PREFIX ++ id e)
  = Some (stored_text e) ->
  mirrors {| storage := map_set (id e) e (storage self);
             MAX_ENTRIES := MAX_ENTRIES self |}
          (persistToDisk e ls).
Proof.
  intros [Hitems [Hnd Hall]] Hport Hget.
  assert (Hput : LocalStorage.items (persistToDisk e ls)
                 = LocalStorage.put (STORAGE_KEY_PREFIX ++ id e)
                     (stored_text e) (LocalStorage.items ls)).
  { revert Hget. unfold persistToDisk.
    destruct (stored_text_portable e Hport) as [Hs _]. rewrite Hs.
    cbn [JS.bind LocalStorage.text_of].
    unfold LocalStorage.setItem.
    destruct (_ <=? _); cbn [try_catch LocalStorage.items]; [reflexivity|].
    unfold LocalStorage.getItem. intros Hget. symmetry.
    now apply put_same. }
  unfold mirrors. cbn [storage].
  split; [|split].
  - rewrite Hput. unfold under_prefix in *.
    rewrite (filter_put (String.prefix STORAGE_KEY_PREFIX))
      by apply prefix_append.
    rewrite Hitems. apply put_on_disk.
  - now apply map_set_keys_NoDup.
  - apply map_set_Forall; [|assumption]. split; [reflexivity|assumption].
Qed.



(** ** [record], [getEntry], [deleteEntry] *)

Lemma record_stores (self : TRINITIMemorySystem.t) ls task_ result_ options r
    id_ self' ls' :
  record self ls task_ result_ options r = Ok (id_, self', ls') ->
  exists self1 ls1,
    prune self ls = Ok (self1, ls1) /\
    id_ = id (buildEntry task_ result_ options r) /\
    self' = {| storage := map_set id_ (buildEntry task_ result_ options r)
                                  (storage self1);
               MAX_ENTRIES := MAX_ENTRIES self1 |} /\
    ls' = persistToDisk (buildEntry task_ result_ options r) ls1.
Proof.
  unfold record.
  destruct (prune self ls) as [[self1 ls1]|err]; cbn [JS.bind];
    [|discriminate].
  intros H. inversion H; subst. exists self1, ls1. repeat split.
Qed.

(** X19.  The entry that [record] returns the [id] of is the one that
    [getEntry] finds under that [id].  [deleteEntry] of an [id] that is
    stored returns [true] and removes the entry from the working set and
    from the medium, leaving every other entry and every other key as
    they are, and keeping the medium a mirror of the working set;
    [deleteEntry] of an [id] that is not stored returns [false] and
    changes nothing. *)
Theorem record_getEntry_deleteEntry :
  forall (self : TRINITIMemorySystem.t) (ls : LocalStorage.t),
    (forall task_ result_ options r id_ self' ls',
       record self ls task_ result_ options r = Ok (id_, self', ls') ->
       getEntry self' id_ = Some (buildEntry task_ result_ options r)) /\
    (forall id_,
       getEntry self id_ = None ->
       deleteEntry self ls id_ = (false, self, ls)) /\
    (forall id_ e,
       getEntry self id_ = Some e ->
       fst (fst (deleteEntry self ls id_)) = true /\
       getEntry (snd (fst (deleteEntry self ls id_))) id_ = None /\
       LocalStorage.getItem (snd (deleteEntry self ls id_))
                            (STORAGE_KEY_PREFIX ++ id_) = None /\
       (forall k, k <> id_ ->
          getEntry (snd (fst (deleteEntry self ls id_))) k = getEntry self k /\
          LocalStorage.getItem (snd (deleteEntry self ls id_))
                               (STORAGE_KEY_PREFIX ++ k)
          = LocalStorage.getItem ls (STORAGE_KEY_PREFIX ++ k)) /\
       (mirrors self ls ->
        mirrors (snd (fst (deleteEntry self ls id_)))
                (snd (deleteEntry self ls id_)))).
Proof.
  intros self ls. split; [|split].
  - intros task_ result_ options r id_ self' ls' Hrec.
    destruct (record_stores _ _ _ _ _ _ _ _ _ Hrec)
      as [self1 [ls1 [_ [_ [-> _]]]]].
    unfold getEntry. cbn [Defensive.safeguardString storage].
    apply map_get_set_same.
  - intros id_ Hnone. unfold getEntry in Hnone. unfold deleteEntry.
    cbn [Defensive.safeguardString] in *. now rewrite Hnone.
  - intros id_ e Hsome. unfold getEntry in *. unfold deleteEntry.
    cbn [Defensive.safeguardString] in *. rewrite Hsome.
    cbn [fst snd storage].
    split; [reflexivity|].
    split; [apply map_get_delete_same|].
    split; [apply getItem_removeItem_same|].
    split.
    + intros k Hne. split.
      * now apply map_get_delete_other.
      * unfold removeFromDisk. apply getItem_removeItem_other.
        intros H. apply Hne. now apply prefixed_key_injective.
    + intros [Hitems [Hnd Hall]].
      unfold mirrors. cbn [storage].
      split; [|split].
      * unfold removeFromDisk, LocalStorage.removeItem.
        cbn [LocalStorage.items]. unfold under_prefix in *.
        rewrite (filter_remove (String.prefix STORAGE_KEY_PREFIX)).
        rewrite Hitems. apply remove_on_disk.
      * now apply map_delete_NoDup.
      * now apply map_delete_Forall.
Qed.

(** ** [searchTasks] and [getRecentTasks] *)

Lemma newest_first_sorted (l : list MemoryEntry) :
  StronglySorted (fun a b => timestamp b <= timestamp a)
    (JS.sort (fun a b => inject_Z (timestamp b - timestamp a)) l).
Proof.
  apply (sorted_weaken (fun a b => - timestamp a <= - timestamp b)).
  - intros a b H. lia.
  - apply (sort_key_sorted _ (fun e => - timestamp e)). intros a b.
    rewrite positive_inject.
    destruct (Z.ltb_spec 0 (timestamp b - timestamp a));
      destruct (Z.ltb_spec (- timestamp b) (- timestamp a));
      try reflexivity; lia.
Qed.

Lemma slice0_sorted {A} (R : A -> A -> Prop) (l : list A) (e : Z) :
  StronglySorted R l -> StronglySorted R (slice0 l e).
Proof. intros H. unfold slice0. now apply sorted_firstn. Qed.

(** X20.  [searchTasks] returns entries of the working set, newest
    first.  Each of them passes every filter that was asked for: with a
    query that is not empty, its task or its result contains the query,
    letter case ignored; with [includeErrors: false] it is a successful
    entry; with a list of tags that is not empty it carries at least one
    of them; with a [dateRange] its timestamp lies within the range,
    bounds included.  With a limit that is not negative, at most that
    many entries are returned. *)
Theorem searchTasks_sound :
  forall (self : TRINITIMemorySystem.t) (query : string)
         (options : option MemorySearchOptions) (found : list MemoryEntry),
    searchTasks self query options = Ok found ->
    StronglySorted (fun a b => timestamp b <= timestamp a) found /\
    (forall e, In e found ->
       In e (values self) /\
       (query <> "" ->
        includes (toLowerCase (task e)) (toLowerCase query) = true \/
        TRINITIMemorySystem.searchInResult (result e) query = Ok true) /\
       (forall o, options = Some o ->
          (so_includeErrors o = Some false -> Memory.success (metadata e) = true) /\
          (forall ts, so_tags o = Some ts -> ts <> [] ->
             exists tag, In tag ts /\ has_tag e tag) /\
          (forall s x, so_dateRange o = Some (s, x) ->
             s <= timestamp e /\ timestamp e <= x))) /\
    (forall o l, options = Some o -> so_limit o = Some l -> 0 <= l ->
       Z.of_nat (List.length found) <= l).
Proof.
  intros self query options found. unfold searchTasks.
  cbn [Defensive.safeguardString].
  set (textFilter :=
         if (query =? "")%string then Ok (values self)
         else filterM
                (fun entry =>
                   if includes (toLowerCase (task entry)) (toLowerCase query)
                   then Ok true
                   else TRINITIMemorySystem.searchInResult (result entry) query)
                (values self)).
  destruct textFilter as [r0|err] eqn:Htext; cbn [JS.bind]; [|discriminate].
  assert (H0 : forall e, In e r0 ->
            In e (values self) /\
            (query <> "" ->
             includes (toLowerCase (task e)) (toLowerCase query) = true \/
             TRINITIMemorySystem.searchInResult (result e) query = Ok true)).
  { intros e He. unfold textFilter in Htext.
    destruct (String.eqb_spec query "") as [->|Hq].
    - inversion Htext; subst. split; [assumption|]. congruence.
    - destruct (filterM_In _ _ _ _ Htext He) as [Hin Hp].
      split; [assumption|]. intros _.
      destruct (includes _ _); [now left|now right]. }
  clearbody textFilter. clear Htext.
  set (r1 := match options with
             | Some o =>
                 match so_includeErrors o with
                 | Some false => filter (fun e => Memory.success (metadata e)) r0
                 | _ => r0
                 end
             | None => r0
             end).
  set (r2 := match options with
             | Some o =>
                 match so_tags o with
                 | Some ts =>
                     if Nat.ltb 0 (List.length ts)
                     then
                       filter
                         (fun e =>
                            existsb
                              (fun tag =>
                                 match Memory.tags (metadata e) with
                                 | Some ets => arr_includes ets tag
                                 | None => false
                                 end)
                              ts)
                         r1
                     else r1
                 | None => r1
                 end
             | None => r1
             end).
  set (r3 := match options with
             | Some o =>
                 match so_dateRange o with
                 | Some (start, end_) =>
                     filter
                       (fun e => (start <=? timestamp e)
                                 && (timestamp e <=? end_))%bool
                       r2
                 | None => r2
                 end
             | None => r2
             end).
  intros H. inversion H; subst found; clear H.
  assert (H1 : forall e, In e r1 ->
            In e r0 /\
            forall o, options = Some o -> so_includeErrors o = Some false ->
                      Memory.success (metadata e) = true).
  { intros e He. unfold r1 in He.
    destruct options as [o|]; [|split; [assumption|discriminate]].
    destruct (so_includeErrors o) as [[|]|] eqn:Hinc.
    - split; [assumption|]. intros o' Ho. inversion Ho; subst. congruence.
    - apply filter_In in He. destruct He as [He Hs].
      split; [assumption|]. intros; assumption.
    - split; [assumption|]. intros o' Ho. inversion Ho; subst. congruence. }
  assert (H2 : forall e, In e r2 ->
            In e r1 /\
            forall o ts, options = Some o -> so_tags o = Some ts -> ts <> [] ->
                         exists tag, In tag ts /\ has_tag e tag).
  { intros e He. unfold r2 in He.
    destruct options as [o|]; [|split; [assumption|discriminate]].
    destruct (so_tags o) as [ts|] eqn:Hts.
    - destruct (Nat.ltb_spec 0 (List.length ts)) as [Hlen|Hlen].
      + apply filter_In in He. destruct He as [He Hex].
        split; [assumption|]. intros o' ts' Ho Hts' _.
        inversion Ho; subst o'. rewrite Hts in Hts'. inversion Hts'; subst ts'.
        apply existsb_exists in Hex. destruct Hex as [tag [Htag Hhas]].
        exists tag. split; [assumption|]. unfold has_tag.
        destruct (Memory.tags (metadata e)) as [ets|]; [|discriminate].
        exists ets. split; [reflexivity|]. now apply arr_includes_In.
      + split; [assumption|]. intros o' ts' Ho Hts' Hne.
        inversion Ho; subst o'. rewrite Hts in Hts'. inversion Hts'; subst ts'.
        destruct ts; [congruence|simpl in Hlen; lia].
    - split; [assumption|]. intros o' ts' Ho Hts'.
      inversion Ho; subst. congruence. }
  assert (H3 : forall e, In e r3 ->
            In e r2 /\
            forall o s x, options = Some o -> so_dateRange o = Some (s, x) ->
                          s <= timestamp e /\ timestamp e <= x).
  { intros e He. unfold r3 in He.
    destruct options as [o|]; [|split; [assumption|discriminate]].
    destruct (so_dateRange o) as [[s x]|] eqn:Hdr.
    - apply filter_In in He. destruct He as [He Hin].
      split; [assumption|]. intros o' s' x' Ho Hdr'.
      inversion Ho; subst o'. rewrite Hdr in Hdr'. inversion Hdr'; subst.
      apply andb_true_iff in Hin. destruct Hin as [Hs Hx].
      apply Z.leb_le in Hs. apply Z.leb_le in Hx. auto.
    - split; [assumption|]. intros o' s' x' Ho Hdr'.
      inversion Ho; subst. congruence. }
  split; [apply slice0_sorted, newest_first_sorted|].
  split.
  - intros e He. apply slice0_In in He. apply sort_In in He.
    destruct (H3 e He) as [He2 Hrange].
    destruct (H2 e He2) as [He1 Htags].
    destruct (H1 e He1) as [He0 Hsucc].
    destruct (H0 e He0) as [Hin Hq].
    split; [assumption|]. split; [assumption|].
    intros o Ho. split; [now apply Hsucc|].
    split; [intros ts; now apply Htags|intros s x; now apply Hrange].
  - intros o l Ho Hl Hpos. subst options. rewrite Hl.
    cbn [Defensive.safeguardNumber].
    rewrite slice0_length by assumption. lia.
Qed.

Lemma searchTasks_sound_witness :
  searchTasks two_stored "DEPLOY" None = Ok [deploy] /\
  StronglySorted (fun a b => timestamp b <= timestamp a) [deploy] /\
  (forall e, In e [deploy] ->
     In e (values two_stored) /\
     ("DEPLOY" <> "" ->
      includes (toLowerCase (task e)) (toLowerCase "DEPLOY") = true \/
      TRINITIMemorySystem.searchInResult (result e) "DEPLOY" = Ok true)).
Proof.
  split; [vm_compute; reflexivity|].
  destruct (searchTasks_sound two_stored "DEPLOY" None [deploy])
    as [H1 [H2 _]].
  - vm_compute. reflexivity.
  - split; [exact H1|].
    intros e He. destruct (H2 e He) as [Ha [Hb _]]. split; assumption.
Defined.

(** ** [import] and [clear] *)

Lemma import_step (self : TRINITIMemorySystem.t) ls (e : MemoryEntry) :
  importEntry (Ok (self, ls)) e
  = Ok ({| storage := map_set (id e) e (storage self);
           MAX_ENTRIES := MAX_ENTRIES self |},
        persistToDisk e ls).
Proof. reflexivity. Qed.

(** X21.  [import] stores every entry it is given under its [id], and
    it never evicts: entries with fresh, pairwise distinct ids are all
    added, in their order, whatever the capacity of the facade, so that
    the working set can hold more than [MAX_ENTRIES] entries
    afterwards. *)
Theorem import_does_not_prune :
  forall (entries : list MemoryEntry) (self : TRINITIMemorySystem.t)
         (ls : LocalStorage.t),
    NoDup (map fst (storage self) ++ map id entries) ->
    exists ls',
      import self ls entries
      = Ok ({| storage := (storage self ++ keyed entries)%list;
               MAX_ENTRIES := MAX_ENTRIES self |}, ls') /\
      (forall e, In e entries ->
         getEntry {| storage := (storage self ++ keyed entries)%list;
                     MAX_ENTRIES := MAX_ENTRIES self |} (id e) = Some e) /\
      List.length (storage self ++ keyed entries)%list
      = (List.length (storage self) + List.length entries)%nat.
Proof.
  unfold import.
  intros entries.
  induction entries as [|e es IH]; intros self ls Hnd.
  - exists ls. cbn [fold_left keyed map]. rewrite app_nil_r.
    split; [now destruct self|]. split; [intros e []|simpl; lia].
  - cbn [fold_left]. rewrite import_step.
    assert (Hfresh : ~ In (id e) (map fst (storage self))).
    { intros Hin. apply NoDup_remove_2 in Hnd. apply Hnd.
      apply in_or_app. now left. }
    rewrite (map_set_fresh _ _ _ Hfresh).
    destruct (IH {| storage := (storage self ++ [(id e, e)])%list;
                    MAX_ENTRIES := MAX_ENTRIES self |}
                 (persistToDisk e ls)) as [ls' [Himp [Hget Hlen]]].
    { cbn [storage]. rewrite map_app. cbn [map fst].
      rewrite <- app_assoc. exact Hnd. }
    cbn [storage MAX_ENTRIES] in Himp, Hget, Hlen.
    exists ls'.
    assert (Heq : (storage self ++ keyed (e :: es)
                   = (storage self ++ [(id e, e)]) ++ keyed es)%list).
    { unfold keyed. cbn [map]. now rewrite <- app_assoc. }
    rewrite Heq. split; [exact Himp|]. split.
    + intros e' [<-|He']; [|now apply Hget].
      unfold getEntry. cbn [Defensive.safeguardString storage].
      apply map_get_In.
      * rewrite !map_app, keyed_keys. cbn [map fst].
        rewrite <- app_assoc. exact Hnd.
      * apply in_or_app. left. apply in_or_app. right. now left.
    + rewrite Hlen, length_app. simpl. lia.
Qed.

Lemma import_does_not_prune_witness :
  exists ls',
    import (create 1) medium [created; deploy]
    = Ok ({| storage := keyed [created; deploy]; MAX_ENTRIES := 1 |}, ls') /\
    List.length (keyed [created; deploy]) = 2%nat.
Proof.
  destruct (import_does_not_prune [created; deploy] (create 1) medium)
    as [ls' [H1 [_ H3]]].
  - vm_compute.
    repeat (constructor; [simpl; intuition discriminate|]). constructor.
  - exists ls'. split; [exact H1|exact H3].
Defined.

Lemma getItem_remove_keys (keys_ : list string) ls k :
  LocalStorage.getItem
    (fold_left (fun acc key => LocalStorage.removeItem acc key) keys_ ls) k
  = if existsb (String.eqb k) keys_ then None else LocalStorage.getItem ls k.
Proof.
  revert ls. induction keys_ as [|key keys_ IH]; intros ls; simpl;
    [reflexivity|].
  rewrite IH.
  destruct (String.eqb_spec k key) as [->|Hne]; simpl.
  - rewrite getItem_removeItem_same. now destruct (existsb _ keys_).
  - now rewrite getItem_removeItem_other.
Qed.

Lemma getItem_keys ls k v :
  LocalStorage.getItem ls k = Some v -> In k (LocalStorage.keys ls).
Proof.
  unfold LocalStorage.getItem, LocalStorage.keys.
  induction (LocalStorage.items ls) as [|[k' v'] l IH]; simpl; [discriminate|].
  destruct (String.eqb_spec k k') as [->|Hne]; [now left|].
  intros H. right. now apply IH.
Qed.

(** X22.  [clear] empties the working set and removes from the medium
    every key under the prefix of the facade, and no other key: what
    other parts of the application keep in the medium stays.  A facade
    constructed over the medium afterwards is empty. *)
Theorem clear_removes_the_prefixed_keys :
  forall (self : TRINITIMemorySystem.t) (ls : LocalStorage.t),
    storage (fst (clear self ls)) = [] /\
    (forall k, String.prefix STORAGE_KEY_PREFIX k = true ->
       LocalStorage.getItem (snd (clear self ls)) k = None) /\
    (forall k, String.prefix STORAGE_KEY_PREFIX k = false ->
       LocalStorage.getItem (snd (clear self ls)) k
       = LocalStorage.getItem ls k) /\
    storage (fst (TRINITIMemorySystem.new (snd (clear self ls)))) = [] /\
    snd (TRINITIMemorySystem.new (snd (clear self ls))) = snd (clear self ls).
Proof.
  intros self ls. unfold clear, clearFromDisk. cbn [fst snd storage].
  set (ks := filter (String.prefix STORAGE_KEY_PREFIX) (LocalStorage.keys ls)).
  set (ls' := fold_left (fun acc key => LocalStorage.removeItem acc key) ks ls).
  assert (Hin : forall k, String.prefix STORAGE_KEY_PREFIX k = true ->
                  LocalStorage.getItem ls' k = None).
  { intros k Hk. unfold ls'. rewrite getItem_remove_keys.
    destruct (existsb (String.eqb k) ks) eqn:Hex; [reflexivity|].
    destruct (LocalStorage.getItem ls k) as [v|] eqn:Hget; [|reflexivity].
    exfalso. apply getItem_keys in Hget.
    assert (Hks : In k ks) by (apply filter_In; auto).
    apply existsb_eqb_In in Hks. congruence. }
  split; [reflexivity|]. split; [exact Hin|].
  split.
  - intros k Hk. unfold ls'. rewrite getItem_remove_keys.
    destruct (existsb (String.eqb k) ks) eqn:Hex; [|reflexivity].
    apply existsb_eqb_In in Hex. apply filter_In in Hex.
    destruct Hex as [_ Hp]. congruence.
  - unfold TRINITIMemorySystem.new, loadFromDisk.
    assert (Hnone : filter (String.prefix STORAGE_KEY_PREFIX)
                           (LocalStorage.keys ls') = []).
    { destruct (filter (String.prefix STORAGE_KEY_PREFIX)
                       (LocalStorage.keys ls')) as [|k l] eqn:Hf;
        [reflexivity|].
      exfalso.
      assert (Hk : In k (filter (String.prefix STORAGE_KEY_PREFIX)
                                (LocalStorage.keys ls')))
        by (rewrite Hf; now left).
      apply filter_In in Hk. destruct Hk as [Hk Hp].
      specialize (Hin k Hp).
      unfold LocalStorage.keys in Hk. apply in_map_iff in Hk.
      destruct Hk as [[k' v] [Hfst Hitem]]. simpl in Hfst. subst k'.
      revert Hin Hitem. unfold LocalStorage.getItem.
      induction (LocalStorage.items ls') as [|[k2 v2] items IH]; simpl;
        [contradiction|].
      destruct (String.eqb_spec k k2) as [->|Hne]; [discriminate|].
      intros Hassoc [Heq|Hitem]; [congruence|]. now apply IH. }
    rewrite Hnone. split; reflexivity.
Qed.

(** ** [loadFromDisk]: what becomes of the medium *)

Lemma loadKey_medium (self : TRINITIMemorySystem.t) (ls : LocalStorage.t)
    (k : string) :
  snd (loadKey (self, ls) k)
  = match LocalStorage.getItem ls k with
    | Some text =>
        match (entry <- JSON.parse text ;;
               TRINITIMemorySystem.validateEntry entry) with
        | Ok _ => ls
        | Throw _ => LocalStorage.removeItem ls k
        end
    | None => ls
    end.
Proof.
  unfold loadKey.
  destruct (LocalStorage.getItem ls k) as [text|]; [|reflexivity].
  destruct (JSON.parse text) as [v|err]; cbn [JS.bind]; [|reflexivity].
  destruct (TRINITIMemorySystem.validateEntry v) as [b|err];
    cbn [JS.bind]; [|reflexivity].
  destruct b; [|reflexivity].
  destruct (Entry.of_value v); reflexivity.
Qed.

Lemma loadKeys_medium (ks : list string) :
  forall (self : TRINITIMemorySystem.t) (ls : LocalStorage.t) (key : string),
    LocalStorage.getItem (snd (fold_left loadKey ks (self, ls))) key
    = match LocalStorage.getItem ls key with
      | Some text =>
          match (entry <- JSON.parse text ;;
                 TRINITIMemorySystem.validateEntry entry) with
          | Ok _ => Some text
          | Throw _ =>
              if existsb (String.eqb key) ks then None else Some text
          end
      | None => None
      end.
Proof.
  induction ks as [|k ks IH]; intros self ls key.
  - simpl. destruct (LocalStorage.getItem ls key) as [text|];
      [|reflexivity].
    destruct (entry <- JSON.parse text ;;
              TRINITIMemorySystem.validateEntry entry); reflexivity.
  - cbn [fold_left existsb].
    pose proof (loadKey_medium self ls k) as Hk.
    destruct (loadKey (self, ls) k) as [self1 ls1]. cbn [snd] in Hk.
    rewrite IH. subst ls1.
    destruct (String.eqb_spec key k) as [->|Hne]; cbn [orb].
    + destruct (LocalStorage.getItem ls k) as [text|] eqn:Hget.
      * destruct (entry <- JSON.parse text ;;
                  TRINITIMemorySystem.validateEntry entry) eqn:Hread.
        -- rewrite Hget, Hread. reflexivity.
        -- now rewrite getItem_removeItem_same.
      * now rewrite Hget.
    + assert (Hsame :
        LocalStorage.getItem
          match LocalStorage.getItem ls k with
          | Some text =>
              match (entry <- JSON.parse text ;;
                     TRINITIMemorySystem.validateEntry entry) with
              | Ok _ => ls
              | Throw _ => LocalStorage.removeItem ls k
              end
          | None => ls
          end key
        = LocalStorage.getItem ls key).
      { destruct (LocalStorage.getItem ls k) as [text|]; [|reflexivity].
        destruct (entry <- JSON.parse text ;;
                  TRINITIMemorySystem.validateEntry entry);
          [reflexivity|].
        now apply getItem_removeItem_other. }
      rewrite Hsame. reflexivity.
Qed.

Lemma loadKeys_capacity (ks : list string) :
  forall (self : TRINITIMemorySystem.t) (ls : LocalStorage.t),
    MAX_ENTRIES (fst (fold_left loadKey ks (self, ls))) = MAX_ENTRIES self.
Proof.
  induction ks as [|k ks IH]; intros self ls; [reflexivity|].
  cbn [fold_left].
  destruct (loadKey (self, ls) k) as [self1 ls1] eqn:Hk.
  rewrite IH. unfold loadKey in Hk.
  destruct (LocalStorage.getItem ls k) as [text|];
    [|inversion Hk; reflexivity].
  destruct (entry <- JSON.parse text ;;
            ok <- TRINITIMemorySystem.validateEntry entry ;;
            Ok (if ok : bool then Entry.of_value entry else None))
    as [[e|]|err]; inversion Hk; reflexivity.
Qed.


(* ================================================================== *)
(** * The enhanced facade                                              *)
(* ================================================================== *)

Import Memory MemorySearchEngine Spec Samples.
Import PersistenceManager.

(** ** [recordTask]: the result of a task *)

Lemma persistence_validate_result (e : MemoryEntry) :
  PersistenceManager.validateEntry (Entry.to_value e)
  = ((typeof (result e) =? "object")%string && negb (is_null (result e)))%bool.
Proof.
  unfold PersistenceManager.validateEntry, Entry.to_value.
  cbn. now rewrite !andb_true_r.
Qed.

Lemma recordTask_rejects_non_object (self : EnhancedMemorySystem.t)
    (ls : LocalStorage.t) (task_ : string) (result_ : value)
    (metadata_ : EnhancedMemorySystem.MetadataOverrides) (r : Env.readings) :
  truthy result_ = true -> (typeof result_ =? "object")%string = false ->
  EnhancedMemorySystem.recordTask self ls task_ result_ metadata_ r
  = (Throw (Error "Invalid memory entry structure"), loaded self r ls, ls).
Proof.
  intros Htruthy Htype.
  unfold EnhancedMemorySystem.recordTask. fold (loaded self r ls).
  unfold EnhancedMemorySystem.validateEntry.
  rewrite validateEntry_to_value.
  unfold saveEntry, saveEntry_try.
  rewrite persistence_validate_result.
  unfold EnhancedMemorySystem.buildEntry at 1 2. cbn [result].
  rewrite Htruthy, Htype. reflexivity.
Qed.

(** X24.  [recordTask] records only tasks whose result is an object.  A
    result that is falsy ([undefined], [null], [false], 0, [NaN], the
    empty string) is replaced by the empty object; a result that is
    truthy and not an object (a string that is not empty, a number that
    is not zero, [true]) makes [recordTask] throw 'Invalid memory entry
    structure' and leave the working set and the medium as they were.
    Every entry that [recordTask] adds has a result that is a non-null
    object. *)
Theorem recordTask_needs_an_object_result :
  forall (self : EnhancedMemorySystem.t) (ls : LocalStorage.t)
         (task_ : string) (result_ : value)
         (metadata_ : EnhancedMemorySystem.MetadataOverrides)
         (r : Env.readings),
    (truthy result_ = false ->
     result (EnhancedMemorySystem.buildEntry task_ result_ metadata_ r)
     = VObj []) /\
    (truthy result_ = true -> (typeof result_ =? "object")%string = false ->
     EnhancedMemorySystem.recordTask self ls task_ result_ metadata_ r
     = (Throw (Error "Invalid memory entry structure"), loaded self r ls, ls)) /\
    (forall id_ self' ls',
       EnhancedMemorySystem.recordTask self ls task_ result_ metadata_ r
       = (Ok id_, self', ls') ->
       is_object
         (result (EnhancedMemorySystem.buildEntry task_ result_ metadata_ r))).
Proof.
  intros self ls task_ result_ metadata_ r.
  split; [|split].
  - intros Hfalsy. unfold EnhancedMemorySystem.buildEntry. cbn [result].
    now rewrite Hfalsy.
  - apply recordTask_rejects_non_object.
  - intros id_ self' ls' Hrec.
    unfold EnhancedMemorySystem.recordTask in Hrec.
    destruct (EnhancedMemorySystem.validateEntry _) as [[|]|err];
      try discriminate.
    destruct (saveEntry _ _ ls) as [[u|err] ls1] eqn:Hsave; [|discriminate].
    assert (Hok : fst (saveEntry
                         (Entry.to_value
                            (EnhancedMemorySystem.buildEntry task_ result_
                               metadata_ r)) (Env.index_now r) ls) = Ok tt)
      by (rewrite Hsave; now destruct u).
    apply saveEntry_ok_valid in Hok.
    rewrite persistence_validate_result in Hok.
    now apply typeof_object.
Qed.

(** ** [getRecentTasks]: the working set is sorted in place *)

Lemma search_no_options (engine : MemorySearchEngine.t) (t0 t1 : Z) :
  entries (search engine no_options t0 t1) = memoryEntries engine.
Proof.
  unfold search, search_try.
  rewrite (filterM_pure _ (fun _ => true)).
  - simpl. induction (memoryEntries engine) as [|x l IH]; simpl; congruence.
  - intros e _. now rewrite matchesOptions_no_query by reflexivity.
Qed.

(** X25.  [getRecentTasks] returns the newest entries first, as many as
    the limit allows (twenty when no limit is given), and it sorts the
    working set of the facade in place: on a facade that is initialised
    and shares its array with the search engine, the entries of the
    facade are afterwards in descending order of their timestamps, the
    engine holds them in that order, and a search without [sortBy]
    returns them newest first and no longer in the order in which they
    were recorded.  Before the facade is initialised nothing is returned
    and nothing changes.  The facade and the engine hold the same
    entries after [initialize] and after every successful [recordTask],
    [deleteEntry] and [clearAll]. *)
Theorem getRecentTasks_sorts_in_place :
  forall (self : EnhancedMemorySystem.t) (limit_ : option Z),
    (EnhancedMemorySystem.isInitialized self = false ->
     EnhancedMemorySystem.getRecentTasks self limit_ = ([], self)) /\
    (EnhancedMemorySystem.isInitialized self = true -> shared self ->
     fst (EnhancedMemorySystem.getRecentTasks self limit_)
     = slice0
         (EnhancedMemorySystem.entries
            (snd (EnhancedMemorySystem.getRecentTasks self limit_)))
         (match limit_ with Some l => l | None => 20 end) /\
     StronglySorted (fun a b => timestamp b <= timestamp a)
       (EnhancedMemorySystem.entries
          (snd (EnhancedMemorySystem.getRecentTasks self limit_))) /\
     Permutation
       (EnhancedMemorySystem.entries
          (snd (EnhancedMemorySystem.getRecentTasks self limit_)))
       (EnhancedMemorySystem.entries self) /\
     shared (snd (EnhancedMemorySystem.getRecentTasks self limit_)) /\
     (forall t0 t1,
        entries
          (EnhancedMemorySystem.search
             (snd (EnhancedMemorySystem.getRecentTasks self limit_))
             no_options t0 t1)
        = EnhancedMemorySystem.entries
            (snd (EnhancedMemorySystem.getRecentTasks self limit_)))) /\
    (forall now ls, shared (EnhancedMemorySystem.initialize self now ls)) /\
    (forall ls task_ result_ metadata_ r id_ self' ls',
       EnhancedMemorySystem.recordTask self ls task_ result_ metadata_ r
       = (Ok id_, self', ls') -> shared self') /\
    (forall ls entryId now,
       fst (fst (EnhancedMemorySystem.deleteEntry self ls entryId now)) = true ->
       shared (snd (fst (EnhancedMemorySystem.deleteEntry self ls entryId now)))) /\
    (forall ls now,
       fst (fst (EnhancedMemorySystem.clearAll self ls now)) = Ok tt ->
       shared (snd (fst (EnhancedMemorySystem.clearAll self ls now)))).
Proof.
  intros self limit_.
  split; [|split; [|split; [|split; [|split]]]].
  - intros Hinit. unfold EnhancedMemorySystem.getRecentTasks.
    now rewrite Hinit.
  - intros Hinit _. unfold EnhancedMemorySystem.getRecentTasks.
    rewrite Hinit. cbn [negb fst snd EnhancedMemorySystem.entries].
    split; [reflexivity|].
    split; [apply newest_first_sorted|].
    split; [apply sort_perm|].
    split; [reflexivity|].
    intros t0 t1. unfold EnhancedMemorySystem.search.
    cbn [EnhancedMemorySystem.isInitialized
         EnhancedMemorySystem.searchEngine negb].
    now rewrite search_no_options.
  - intros now ls. reflexivity.
  - intros ls task_ result_ metadata_ r id_ self' ls' Hrec.
    unfold EnhancedMemorySystem.recordTask in Hrec.
    destruct (EnhancedMemorySystem.validateEntry _) as [[|]|err];
      try discriminate.
    destruct (saveEntry _ _ ls) as [[u|err] ls1]; [|discriminate].
    inversion Hrec; subst. reflexivity.
  - intros ls entryId now.
    unfold EnhancedMemorySystem.deleteEntry.
    destruct (deleteEntry entryId now ls) as [[|] ls1]; cbn [fst snd];
      [reflexivity|discriminate].
  - intros ls now.
    unfold EnhancedMemorySystem.clearAll.
    destruct (clearAllEntries now ls) as [[u|err] ls1]; cbn [fst snd];
      [reflexivity|discriminate].
Qed.

(** ** The statistics *)

Lemma filter_split_length {A} (p : A -> bool) (l : list A) :
  (List.length (filter p l) + List.length (filter (fun x => negb (p x)) l)
   = List.length l)%nat.
Proof.
  induction l as [|x l IH]; simpl; [reflexivity|].
  destruct (p x); simpl; lia.
Qed.

Lemma sum_fold_left (l : list MemoryEntry) (a : Z) :
  fold_left (fun sum e => sum + duration (metadata e)) l a
  = a + fold_right Z.add 0 (map (fun e => duration (metadata e)) l).
Proof.
  revert a. induction l as [|x l IH]; intros a; simpl; [lia|].
  rewrite IH. lia.
Qed.

Lemma updateStats_stats_of (self : EnhancedMemorySystem.t) :
  stats_of (EnhancedMemorySystem.stats (EnhancedMemorySystem.updateStats self))
           (EnhancedMemorySystem.entries self).
Proof.
  unfold stats_of, EnhancedMemorySystem.updateStats.
  cbn [EnhancedMemorySystem.stats EnhancedMemorySystem.totalEntries
       EnhancedMemorySystem.successfulTasks EnhancedMemorySystem.failedTasks
       EnhancedMemorySystem.averageDuration].
  split; [reflexivity|]. split; [reflexivity|].
  split; [apply filter_split_length|].
  now rewrite sum_fold_left.
Qed.

(** X26.  The statistics of the facade follow its working set: after
    [initialize] and after every successful [recordTask], [deleteEntry]
    and [clearAll], [totalEntries] is the number of entries,
    [successfulTasks] the number of the successful ones, the successful
    and the failed tasks add up to the total, and [averageDuration] is
    the sum of the durations over the number of entries (zero for an
    empty working set). *)
Theorem stats_follow_the_working_set :
  forall (self : EnhancedMemorySystem.t) (ls : LocalStorage.t),
    (forall now,
       stats_of
         (EnhancedMemorySystem.getStats
            (EnhancedMemorySystem.initialize self now ls))
         (EnhancedMemorySystem.entries
            (EnhancedMemorySystem.initialize self now ls))) /\
    (forall task_ result_ metadata_ r id_ self' ls',
       EnhancedMemorySystem.recordTask self ls task_ result_ metadata_ r
       = (Ok id_, self', ls') ->
       stats_of (EnhancedMemorySystem.getStats self')
                (EnhancedMemorySystem.entries self')) /\
    (forall entryId now,
       fst (fst (EnhancedMemorySystem.deleteEntry self ls entryId now)) = true ->
       stats_of
         (EnhancedMemorySystem.getStats
            (snd (fst (EnhancedMemorySystem.deleteEntry self ls entryId now))))
         (EnhancedMemorySystem.entries
            (snd (fst (EnhancedMemorySystem.deleteEntry self ls entryId now))))) /\
    (forall now,
       fst (fst (EnhancedMemorySystem.clearAll self ls now)) = Ok tt ->
       EnhancedMemorySystem.entries
         (snd (fst (EnhancedMemorySystem.clearAll self ls now))) = [] /\
       EnhancedMemorySystem.totalEntries
         (EnhancedMemorySystem.getStats
            (snd (fst (EnhancedMemorySystem.clearAll self ls now)))) = O).
Proof.
  intros self ls. unfold EnhancedMemorySystem.getStats.
  split; [|split; [|split]].
  - intros now. unfold EnhancedMemorySystem.initialize.
    cbn [EnhancedMemorySystem.stats EnhancedMemorySystem.entries].
    apply (updateStats_stats_of
             (EnhancedMemorySystem.with_entries self
                (Entry.typed (retrieveEntries now ls)))).
  - intros task_ result_ metadata_ r id_ self' ls' Hrec.
    unfold EnhancedMemorySystem.recordTask in Hrec.
    destruct (EnhancedMemorySystem.validateEntry _) as [[|]|err];
      try discriminate.
    destruct (saveEntry _ _ ls) as [[u|err] ls1]; [|discriminate].
    inversion Hrec; subst.
    match goal with
    | |- stats_of (EnhancedMemorySystem.stats
                     (EnhancedMemorySystem.updateStats ?s)) _ =>
        apply (updateStats_stats_of s)
    end.
  - intros entryId now.
    unfold EnhancedMemorySystem.deleteEntry.
    destruct (deleteEntry entryId now ls) as [[|] ls1]; cbn [fst snd];
      [|discriminate].
    intros _.
    match goal with
    | |- stats_of (EnhancedMemorySystem.stats
                     (EnhancedMemorySystem.updateStats ?s)) _ =>
        apply (updateStats_stats_of s)
    end.
  - intros now.
    unfold EnhancedMemorySystem.clearAll.
    destruct (clearAllEntries now ls) as [[u|err] ls1]; cbn [fst snd];
      [|discriminate].
    intros _. split; reflexivity.
Qed.

(** ** [deleteEntry] of the facade *)

(** X27.  [deleteEntry] of the facade removes the text of the entry from
    the medium in every case (for every [id] but "INDEX").  When the persistence layer reports
    success, every entry with that [id] leaves the working set and the
    other entries keep their order; when it reports failure (the index
    could not be rewritten), [false] is returned and the working set
    still holds the entry whose text the medium has lost. *)
Theorem deleteEntry_of_the_facade :
  forall (self : EnhancedMemorySystem.t) (ls : LocalStorage.t)
         (entryId : string) (now : Z),
    (entryId <> "INDEX" ->
     LocalStorage.getItem
       (snd (EnhancedMemorySystem.deleteEntry self ls entryId now))
       (entryKey entryId) = None) /\
    (fst (fst (EnhancedMemorySystem.deleteEntry self ls entryId now)) = true ->
     EnhancedMemorySystem.entries
       (snd (fst (EnhancedMemorySystem.deleteEntry self ls entryId now)))
     = filter (fun e => negb (id e =? entryId)%string)
              (EnhancedMemorySystem.entries self) /\
     forall e,
       In e (EnhancedMemorySystem.entries
               (snd (fst (EnhancedMemorySystem.deleteEntry self ls entryId
                            now)))) ->
       id e <> entryId) /\
    (fst (fst (EnhancedMemorySystem.deleteEntry self ls entryId now)) = false ->
     snd (fst (EnhancedMemorySystem.deleteEntry self ls entryId now)) = self).
Proof.
  intros self ls entryId now.
  split; [|split].
  - intros Hid.
    pose proof (deleteEntry_text_gone entryId now ls Hid) as Hgone.
    unfold EnhancedMemorySystem.deleteEntry.
    destruct (deleteEntry entryId now ls) as [[|] ls1]; exact Hgone.
  - unfold EnhancedMemorySystem.deleteEntry.
    destruct (deleteEntry entryId now ls) as [[|] ls1]; cbn [fst snd];
      [|discriminate].
    intros _. split; [reflexivity|].
    intros e He. cbn [EnhancedMemorySystem.entries] in He.
    apply filter_In in He. destruct He as [_ Hne].
    apply negb_true_iff in Hne. now apply String.eqb_neq.
  - unfold EnhancedMemorySystem.deleteEntry.
    destruct (deleteEntry entryId now ls) as [[|] ls1]; cbn [fst snd];
      [discriminate|reflexivity].
Qed.

(** ** [getMostCommonTags] *)

Lemma count_tag_tally (tag : string) (d : Z) (m : tally) :
  EnhancedMemorySystem.count_tag tag
    (map (fun kv => (fst kv, fst (snd kv))) m)
  = map (fun kv => (fst kv, fst (snd kv))) (tally_add tag d m).
Proof.
  induction m as [|[k [c t]] r IH]; simpl; [reflexivity|].
  destruct (tag =? k)%string; simpl; [reflexivity|]. now rewrite IH.
Qed.

Lemma tagCounts_tally (es : list MemoryEntry) (m : tally) :
  fold_left
    (fun counts e =>
       match Memory.tags (metadata e) with
       | Some ts =>
           fold_left (fun c tag => EnhancedMemorySystem.count_tag tag c)
                     ts counts
       | None => counts
       end)
    es (map (fun kv => (fst kv, fst (snd kv))) m)
  = map (fun kv => (fst kv, fst (snd kv)))
        (fold_left (fun m kd => tally_add (fst kd) (snd kd) m)
                   (tag_occurrences es) m).
Proof.
  revert m. induction es as [|e es IH]; intros m; simpl; [reflexivity|].
  rewrite fold_left_app, <- IH. f_equal.
  destruct (Memory.tags (metadata e)) as [ts|]; [|reflexivity].
  generalize (Memory.duration (metadata e)). intros d.
  revert m. induction ts as [|tag ts IHts]; intros m; simpl;
    [reflexivity|].
  rewrite (count_tag_tally tag d m). apply IHts.
Qed.

(** X28.  [getMostCommonTags] returns at most ten tags with their
    counts, in descending order of the count, and no tag twice.  The
    count of a tag is the number of times it occurs in the tag lists of
    the entries, and is at least one.  When fewer than ten tags are
    returned, every tag of every entry is among them. *)
Theorem getMostCommonTags_counts :
  forall (es : list MemoryEntry),
    let r := EnhancedMemorySystem.getMostCommonTags es in
    (List.length r <= 10)%nat /\
    NoDup (map fst r) /\
    StronglySorted (fun a b => (snd b <= snd a)%nat) r /\
    (forall tag n, In (tag, n) r ->
       (1 <= n)%nat /\ n = count_of tag (tag_occurrences es)) /\
    ((List.length r < 10)%nat ->
     forall e tag, In e es -> has_tag e tag -> In tag (map fst r)).
Proof.
  intros es r. subst r. unfold EnhancedMemorySystem.getMostCommonTags.
  pose proof (tagCounts_tally es []) as Htally. simpl map in Htally.
  rewrite Htally. clear Htally.
  destruct (tally_of_occurrences (tag_occurrences es)) as [Hnd Hget].
  set (m := fold_left (fun m kd => tally_add (fst kd) (snd kd) m)
                      (tag_occurrences es) []) in *.
  set (mk := fun kv : string * (nat * Z) => (fst kv, fst (snd kv))).
  set (cmp := fun a b : string * nat =>
                inject_Z (Z.of_nat (snd b) - Z.of_nat (snd a))).
  rewrite slice0_count by lia. change (Z.to_nat 10) with 10%nat.
  assert (Hkeys : map fst (map mk m) = map fst m).
  { rewrite map_map. apply map_ext. intros [k [c t]]. reflexivity. }
  split; [rewrite length_firstn; lia|].
  split.
  { rewrite <- firstn_map. apply NoDup_firstn.
    apply (Permutation_NoDup (l := map fst (map mk m))).
    - apply Permutation_map, Permutation_sym, sort_perm.
    - now rewrite Hkeys. }
  split.
  { apply sorted_firstn.
    apply (sorted_weaken
             (fun a b : string * nat =>
                - Z.of_nat (snd a) <= - Z.of_nat (snd b))).
    - intros a b Hab. lia.
    - apply (sort_key_sorted cmp (fun p => - Z.of_nat (snd p))).
      intros a b. unfold cmp. rewrite positive_inject.
      destruct (Z.ltb_spec 0 (Z.of_nat (snd b) - Z.of_nat (snd a)));
        destruct (Z.ltb_spec (- Z.of_nat (snd b)) (- Z.of_nat (snd a)));
        try reflexivity; lia. }
  split.
  { intros tag n Hp. apply firstn_In in Hp. apply sort_In in Hp.
    apply in_map_iff in Hp. destruct Hp as [[k [c t]] [Heq Hin]].
    unfold mk in Heq. simpl in Heq. inversion Heq; subst.
    pose proof (tally_get_In m tag (n, t) Hnd Hin) as Hk.
    rewrite Hget in Hk.
    destruct (Nat.eqb_spec (count_of tag (tag_occurrences es)) 0)
      as [Hz|Hnz]; [discriminate|].
    inversion Hk; subst. split; [lia|reflexivity]. }
  intros Hfew e tag He [ts [Hts Htag]].
  rewrite (firstn_short _ _ Hfew).
  apply (Permutation_in (l := map fst (map mk m))).
  - apply Permutation_map, Permutation_sym, sort_perm.
  - rewrite Hkeys.
    assert (Hin : In (tag, Memory.duration (metadata e))
                     (tag_occurrences es)).
    { unfold tag_occurrences. apply in_flat_map. exists e.
      split; [assumption|]. rewrite Hts. apply in_map_iff. eauto. }
    assert (Hpos : count_of tag (tag_occurrences es) <> O).
    { unfold count_of. intros Hz. apply length_zero_iff_nil in Hz.
      assert (Hf : In (tag, Memory.duration (metadata e))
                      (filter (fun kd0 => (fst kd0 =? tag)%string)
                              (tag_occurrences es))).
      { apply filter_In. split; [assumption|apply String.eqb_refl]. }
      rewrite Hz in Hf. contradiction. }
    specialize (Hget tag).
    apply Nat.eqb_neq in Hpos. rewrite Hpos in Hget.
    apply tally_get_Some_In in Hget.
    apply in_map_iff. eexists. split; [|exact Hget]. reflexivity.
Qed.

(* ================================================================== *)
(** * Guarded execution                                                *)
(* ================================================================== *)

Import Memory MemorySearchEngine Spec Samples.
Import PersistenceManager.

(** ** [guardedExec] *)

Import ErrorGuard.

Lemma attempts_fail (exec : nat -> outcome) (retries : Z) (n : nat) :
  forall (a : nat) (lastErr : value) (delays : list Z),
    (forall j, (a <= j < a + n)%nat -> failure_of (exec j) <> None) ->
    attempts exec retries n a lastErr delays
    = (None,
       match n with
       | O => lastErr
       | S m => match failure_of (exec (a + m)%nat) with
                | Some err => err
                | None => lastErr
                end
       end,
       (delays ++ delays_from retries a n)%list).
Proof.
  induction n as [|n IH]; intros a lastErr delays Hfail.
  - cbn [attempts delays_from seq flat_map]. now rewrite app_nil_r.
  - cbn [attempts].
    assert (Ha : failure_of (exec a) <> None) by (apply Hfail; lia).
    assert (Hrest : forall j, (S a <= j < S a + n)%nat ->
                      failure_of (exec j) <> None)
      by (intros j Hj; apply Hfail; lia).
    assert (Hdelays : forall d : list Z,
              ((if Z.of_nat a <? retries
                then d ++ [2 ^ Z.of_nat a * 500] else d)
               ++ delays_from retries (S a) n
               = d ++ delays_from retries a (S n))%list).
    { intros d. unfold delays_from. cbn [seq flat_map].
      destruct (Z.of_nat a <? retries); [|reflexivity].
      now rewrite <- app_assoc. }
    assert (Hlast : forall e0 : value,
              failure_of (exec a) = Some e0 ->
              match n with
              | O => e0
              | S m => match failure_of (exec (S a + m)%nat) with
                       | Some err => err
                       | None => e0
                       end
              end
              = match failure_of (exec (a + n)%nat) with
                | Some err => err
                | None => lastErr
                end).
    { intros e0 He0. destruct n as [|m].
      - rewrite Nat.add_0_r, He0. reflexivity.
      - replace (a + S m)%nat with (S a + m)%nat by lia.
        destruct (failure_of (exec (S a + m)%nat)) eqn:Hm; [reflexivity|].
        exfalso. apply (Hrest (S a + m)%nat); [lia|assumption]. }
    destruct (exec a) as [res|err] eqn:Hexec.
    + destruct (success res) eqn:Hs.
      * exfalso. apply Ha. cbn [failure_of]. now rewrite Hs.
      * rewrite IH by assumption. rewrite Hdelays.
        f_equal. f_equal. apply Hlast. cbn [failure_of]. now rewrite Hs.
    + rewrite IH by assumption. rewrite Hdelays.
      f_equal. f_equal. now apply Hlast.
Qed.

Lemma attempts_success (exec : nat -> outcome) (retries : Z) (k : nat)
    (res : TaskResult) :
  exec k = Resolved res -> success res = true ->
  forall (n a : nat) (lastErr : value) (delays : list Z),
    (a <= k < a + n)%nat ->
    (forall j, (a <= j < k)%nat -> failure_of (exec j) <> None) ->
    exists lastErr',
      attempts exec retries n a lastErr delays
      = (Some res, lastErr', (delays ++ delays_from retries a (k - a))%list).
Proof.
  intros Hk Hres.
  induction n as [|n IH]; intros a lastErr delays Hrange Hfail; [lia|].
  cbn [attempts].
  destruct (Nat.eq_dec a k) as [->|Hne].
  - rewrite Hk, Hres. exists lastErr.
    rewrite Nat.sub_diag. cbn [delays_from seq flat_map].
    now rewrite app_nil_r.
  - assert (Ha : failure_of (exec a) <> None) by (apply Hfail; lia).
    assert (Hdelays : forall d : list Z,
              ((if Z.of_nat a <? retries
                then d ++ [2 ^ Z.of_nat a * 500] else d)
               ++ delays_from retries (S a) (k - S a)
               = d ++ delays_from retries a (k - a))%list).
    { intros d. replace (k - a)%nat with (S (k - S a)) by lia.
      unfold delays_from. cbn [seq flat_map].
      destruct (Z.of_nat a <? retries); [|reflexivity].
      now rewrite <- app_assoc. }
    destruct (exec a) as [res0|err] eqn:Hexec.
    + destruct (success res0) eqn:Hs;
        [exfalso; apply Ha; cbn [failure_of]; now rewrite Hs|].
      edestruct IH as [lastErr' Heq]; [| |rewrite Heq].
      * lia.
      * intros j Hj. apply Hfail. lia.
      * exists lastErr'. now rewrite Hdelays.
    + edestruct IH as [lastErr' Heq]; [| |rewrite Heq].
      * lia.
      * intros j Hj. apply Hfail. lia.
      * exists lastErr'. now rewrite Hdelays.
Qed.

Lemma delays_from_backoff (retries : Z) (k : nat) :
  Z.of_nat k <= retries -> delays_from retries 0 k = backoff_delays k.
Proof.
  intros Hk. unfold delays_from, backoff_delays.
  assert (H : forall a n, Z.of_nat (a + n) <= retries ->
            flat_map
              (fun j => if Z.of_nat j <? retries
                        then [2 ^ Z.of_nat j * 500] else [])
              (seq a n)
            = map (fun i => 2 ^ Z.of_nat i * 500) (seq a n)).
  { intros a n. revert a. induction n as [|n IH]; intros a Ha; simpl;
      [reflexivity|].
    replace (Z.of_nat a <? retries) with true
      by (symmetry; apply Z.ltb_lt; lia).
    simpl. rewrite IH; [reflexivity|]. lia. }
  apply H. simpl. exact Hk.
Qed.

Lemma delays_from_last (retries : Z) :
  0 <= retries ->
  delays_from retries 0 (Z.to_nat (retries + 1))
  = backoff_delays (Z.to_nat retries).
Proof.
  intros Hr.
  replace (Z.to_nat (retries + 1)) with (Z.to_nat retries + 1)%nat by lia.
  unfold delays_from. rewrite seq_app, flat_map_app.
  fold (delays_from retries 0 (Z.to_nat retries)).
  rewrite delays_from_backoff by lia.
  cbn [seq flat_map Nat.add].
  replace (Z.of_nat (Z.to_nat retries) <? retries) with false
    by (symmetry; apply Z.ltb_ge; lia).
  now rewrite !app_nil_r.
Qed.

(** X29.  [guardedExec] calls [exec] until a call succeeds, at most
    [retries + 1] times, and waits 500 ms, 1000 ms, 2000 ms, ... between
    the calls.  The result of the first successful call is returned as it
    is, and the medium is not touched.  When no call succeeds, the result
    is a failure with an empty output whose error is the text of the last
    error, and there is no wait after the last call.  With a negative
    [retries], [exec] is not called at all and the error is the text
    'undefined'. *)
Theorem guardedExec_retries :
  forall (exec : nat -> outcome) (retries : Z) (ls : LocalStorage.t)
         (r : Env.readings),
    (forall k res,
       Z.of_nat k <= retries ->
       exec k = Resolved res -> success res = true ->
       (forall j, (j < k)%nat -> failure_of (exec j) <> None) ->
       guardedExec exec retries ls r = (res, backoff_delays k, ls)) /\
    (0 <= retries ->
     (forall j, Z.of_nat j <= retries -> failure_of (exec j) <> None) ->
     exists err,
       failure_of (exec (Z.to_nat retries)) = Some err /\
       fst (guardedExec exec retries ls r)
       = ({| success := false; output := "";
             error := Some (toString err) |},
          backoff_delays (Z.to_nat retries))) /\
    (retries < 0 ->
     fst (guardedExec exec retries ls r)
     = ({| success := false; output := ""; error := Some "undefined" |}, [])).
Proof.
  intros exec retries ls r. unfold guardedExec.
  split; [|split].
  - intros k res Hk Hexec Hres Hfail.
    destruct (attempts_success exec retries k res Hexec Hres
                (Z.to_nat (retries + 1)) 0%nat VUndefined [])
      as [lastErr' Heq].
    + lia.
    + intros j Hj. apply Hfail. lia.
    + rewrite Heq. rewrite Nat.sub_0_r. cbn [app].
      now rewrite delays_from_backoff.
  - intros Hr Hfail.
    rewrite attempts_fail by (intros j Hj; apply Hfail; lia).
    replace (Z.to_nat (retries + 1)) with (S (Z.to_nat retries)) by lia.
    cbn [Nat.add app].
    destruct (failure_of (exec (Z.to_nat retries))) as [err|] eqn:Hlast.
    + exists err. split; [reflexivity|]. cbn [fst]. f_equal.
      replace (S (Z.to_nat retries)) with (Z.to_nat (retries + 1)) by lia.
      now apply delays_from_last.
    + exfalso. apply (Hfail (Z.to_nat retries)); [lia|assumption].
  - intros Hneg.
    replace (Z.to_nat (retries + 1)) with O by lia.
    reflexivity.
Qed.

Lemma guardedExec_retries_witness :
  guardedExec third_time 2 medium (reading 9000 0 "q7w8e9r0t")
  = ({| success := true; output := "done"; error := None |},
     [500; 1000], medium).
Proof.
  apply (proj1 (guardedExec_retries third_time 2 medium
                  (reading 9000 0 "q7w8e9r0t"))
           2%nat {| success := true; output := "done"; error := None |}).
  - vm_compute. discriminate.
  - reflexivity.
  - reflexivity.
  - intros j Hj.
    destruct j as [|[|j]]; [discriminate|discriminate|].
    exfalso. apply (Nat.lt_irrefl 2).
    apply (Nat.le_lt_trans _ (S (S j))); [|exact Hj].
    apply le_n_S, le_n_S, Nat.le_0_l.
Defined.

(** ** [recordTaskFailure] *)

(** X30.  A failure is recorded with its message as the result of the
    task, and a result that is a string is not an object: when the
    message is not empty, [recordTask] throws, the error is caught, and
    the medium is left as it was.  So [guardedExec] never writes to the
    medium unless the text of the last error is the empty string. *)
Theorem recordTaskFailure_records_nothing :
  forall (message : string) (ls : LocalStorage.t) (r : Env.readings),
    message <> "" ->
    recordTaskFailure message ls r = ls /\
    (forall exec retries,
       ErrorGuard.error (fst (fst (guardedExec exec retries ls r)))
       = Some message ->
       snd (guardedExec exec retries ls r) = ls).
Proof.
  intros message ls r Hne.
  assert (Hrec : forall m, m <> "" -> recordTaskFailure m ls r = ls).
  { intros m Hm. unfold recordTaskFailure.
    rewrite (recordTask_rejects_non_object EnhancedMemorySystem.new ls);
      [reflexivity| |reflexivity].
    cbn [truthy]. apply negb_true_iff. now apply String.eqb_neq. }
  split; [now apply Hrec|].
  intros exec retries. unfold guardedExec.
  destruct (attempts exec retries (Z.to_nat (retries + 1)) 0 VUndefined [])
    as [[[res|] lastErr] delays]; cbn [fst snd ErrorGuard.error];
    [reflexivity|].
  intros Hmsg. inversion Hmsg as [Heq]. rewrite Heq. now apply Hrec.
Qed.

Lemma recordTaskFailure_records_nothing_witness :
  recordTaskFailure "Error: timeout" medium (reading 9000 0 "q7w8e9r0t")
  = medium /\
  (forall exec retries,
     ErrorGuard.error
       (fst (fst (guardedExec exec retries medium
                    (reading 9000 0 "q7w8e9r0t"))))
     = Some "Error: timeout" ->
     snd (guardedExec exec retries medium (reading 9000 0 "q7w8e9r0t"))
     = medium).
Proof.
  apply (recordTaskFailure_records_nothing "Error: timeout" medium
           (reading 9000 0 "q7w8e9r0t")).
  discriminate.
Defined.
